(** * RockPaperClaw: the match lifecycle engine

    A shallow embedding of the arena's core: the SQL functions of the schema
    and its migrations (escrow_wager, refund_wager, cancel_challenge,
    create_match, submit_commit, submit_reveal, resolve_match), the strategy
    executor (computeMove, advanceState), strategy validation
    (validateStrategy), the accept-challenge and post-challenge handlers and
    the stale match reaper (processMatch); further the handlers of a live
    match (commit-move, reveal-move, get-match), the reaper's sweep, the rate
    limiter (check_rate_limit, clean_rate_limits, rateLimit) and the outcome
    rule as the simulator and the browser game have it.

    Conventions.
    - A table is a finite map from primary key to row; the transactions table
      is a list, newest row last, because it is only ever appended to.
    - A PL/pgSQL function is a function from the database to [res]: [Err] is
      RAISE EXCEPTION (or a violated constraint), and [rpc] gives the
      transactional reading of one call: an error leaves the database as it
      was.
    - INTEGER columns are 32-bit: arithmetic out of range raises.
    - TIMESTAMPTZ values are integers counting microseconds.
    - JavaScript numbers that carry weights, random draws and requested
      windows are binary64 floats; a number inside strategy_state is an
      integer or NaN, and an integer there is read, and added to, as the
      binary64 number nearest to it ([binary64_of_Z]).
    - A text is held as its UTF-8 bytes; the length JavaScript tests is the
      number of its UTF-16 code units ([js_length]). *)

From Stdlib Require Import ZArith String List Bool Lia Floats.
From stdpp Require Import gmap strings list fin_maps.

#[local] Set Warnings "-inexact-float".

Local Open Scope string_scope.
Local Open Scope list_scope.
Local Open Scope Z_scope.

(** ** Results of fallible code *)

Inductive res (A : Type) : Type :=
| Ok (a : A)
| Err (msg : string).
Arguments Ok {A} a.
Arguments Err {A} msg.

#[global] Instance res_ret : MRet res := fun A a => Ok a.
#[global] Instance res_bind : MBind res := fun A B k r =>
  match r with
  | Ok a => k a
  | Err e => Err e
  end.

Definition is_ok {A} (r : res A) : bool :=
  match r with Ok _ => true | Err _ => false end.

(** ** Moves *)

Inductive Move : Type := rock | paper | scissors.

#[global] Instance Move_eq_dec : EqDecision Move.
Proof. solve_decision. Defined.

Definition VALID_MOVES : list Move := [rock; paper; scissors].

Definition move_text (m : Move) : string :=
  match m with
  | rock => "rock"
  | paper => "paper"
  | scissors => "scissors"
  end.

(** [p_move IN ('rock', 'paper', 'scissors')] on a TEXT argument. *)
Definition move_of_text (t : string) : option Move :=
  if String.eqb t "rock" then Some rock
  else if String.eqb t "paper" then Some paper
  else if String.eqb t "scissors" then Some scissors
  else None.

(** ** Strategies and strategy state *)

(** The [Strategy] union of auth.ts. *)
Inductive Strategy : Type :=
| Random
| Always (move : Move)
| Cycle (sequence : list Move)
| Weighted (w_rock w_paper w_scissors : float)
| CounterLastLoss.

(** Values found in a strategy_state object. *)
Inductive jsval : Type :=
| JNull
| JBool (b : bool)
| JNum (n : Z)
| JNaN
| JStr (s : string).

Abbreviation StrategyState := (gmap string jsval).

(** ** Tables *)

Abbreviation uuid := N.
Abbreviation timestamptz := Z.

Module Agent.
Record row : Type := mk {
    balance : Z;
    wins : Z;
    losses : Z;
    draws : Z;
    strategy : Strategy;
    strategy_state : gmap string jsval
  }.

Definition with_balance (b : Z) (a : row) : row :=
    mk b (wins a) (losses a) (draws a) (strategy a) (strategy_state a).
Definition with_wins (n : Z) (a : row) : row :=
    mk (balance a) n (losses a) (draws a) (strategy a) (strategy_state a).
Definition with_losses (n : Z) (a : row) : row :=
    mk (balance a) (wins a) n (draws a) (strategy a) (strategy_state a).
Definition with_draws (n : Z) (a : row) : row :=
    mk (balance a) (wins a) (losses a) n (strategy a) (strategy_state a).
Definition with_strategy_state (st : gmap string jsval) (a : row) : row :=
    mk (balance a) (wins a) (losses a) (draws a) (strategy a) st.
End Agent.

Module Challenge.
Inductive challenge_status : Type := open | matched | cancelled.

Record row : Type := mk {
    challenger_id : uuid;
    wager_amount : Z;
    status : challenge_status
  }.

Definition with_status (st : challenge_status) (c : row) : row :=
    mk (challenger_id c) (wager_amount c) st.

Definition is_open (c : row) : bool :=
    match status c with open => true | _ => false end.
End Challenge.

Module Match.
Inductive match_status : Type := pending | waiting_reveals | complete.
Inductive match_phase : Type := strategy | finished.

Record row : Type := mk {
    challenge_id : uuid;
    agent1_id : uuid;
    agent2_id : uuid;
    wager_amount : Z;
    status : match_status;
    phase : match_phase;
    strategy_deadline : option timestamptz;
    commit_deadline : timestamptz;
    agent1_move_hash : option string;
    agent2_move_hash : option string;
    reveal_deadline : option timestamptz;
    agent1_move : option Move;
    agent1_salt : option string;
    agent2_move : option Move;
    agent2_salt : option string;
    agent1_used_fallback : bool;
    agent2_used_fallback : bool;
    agent1_strategy : Strategy;
    agent2_strategy : Strategy;
    winner_id : option uuid;
    created_at : timestamptz;
    completed_at : option timestamptz
  }.

Definition is_complete (m : row) : bool :=
    match status m with complete => true | _ => false end.
Definition is_pending (m : row) : bool :=
    match status m with pending => true | _ => false end.
Definition is_waiting_reveals (m : row) : bool :=
    match status m with waiting_reveals => true | _ => false end.

(** The SET lists of the UPDATE statements on matches. *)
Definition set_agent1_move_hash (h : string) (m : row) : row :=
    mk (challenge_id m) (agent1_id m) (agent2_id m) (wager_amount m) (status m)
       (phase m) (strategy_deadline m) (commit_deadline m)
       (Some h) (agent2_move_hash m) (reveal_deadline m)
       (agent1_move m) (agent1_salt m) (agent2_move m) (agent2_salt m)
       (agent1_used_fallback m) (agent2_used_fallback m)
       (agent1_strategy m) (agent2_strategy m) (winner_id m)
       (created_at m) (completed_at m).

Definition set_agent2_move_hash (h : string) (m : row) : row :=
    mk (challenge_id m) (agent1_id m) (agent2_id m) (wager_amount m) (status m)
       (phase m) (strategy_deadline m) (commit_deadline m)
       (agent1_move_hash m) (Some h) (reveal_deadline m)
       (agent1_move m) (agent1_salt m) (agent2_move m) (agent2_salt m)
       (agent1_used_fallback m) (agent2_used_fallback m)
       (agent1_strategy m) (agent2_strategy m) (winner_id m)
       (created_at m) (completed_at m).

Definition set_waiting_reveals (deadline : timestamptz) (m : row) : row :=
    mk (challenge_id m) (agent1_id m) (agent2_id m) (wager_amount m)
       waiting_reveals
       (phase m) (strategy_deadline m) (commit_deadline m)
       (agent1_move_hash m) (agent2_move_hash m) (Some deadline)
       (agent1_move m) (agent1_salt m) (agent2_move m) (agent2_salt m)
       (agent1_used_fallback m) (agent2_used_fallback m)
       (agent1_strategy m) (agent2_strategy m) (winner_id m)
       (created_at m) (completed_at m).

Definition set_agent1_reveal (mv : Move) (salt : string) (m : row) : row :=
    mk (challenge_id m) (agent1_id m) (agent2_id m) (wager_amount m) (status m)
       (phase m) (strategy_deadline m) (commit_deadline m)
       (agent1_move_hash m) (agent2_move_hash m) (reveal_deadline m)
       (Some mv) (Some salt) (agent2_move m) (agent2_salt m)
       (agent1_used_fallback m) (agent2_used_fallback m)
       (agent1_strategy m) (agent2_strategy m) (winner_id m)
       (created_at m) (completed_at m).

Definition set_agent2_reveal (mv : Move) (salt : string) (m : row) : row :=
    mk (challenge_id m) (agent1_id m) (agent2_id m) (wager_amount m) (status m)
       (phase m) (strategy_deadline m) (commit_deadline m)
       (agent1_move_hash m) (agent2_move_hash m) (reveal_deadline m)
       (agent1_move m) (agent1_salt m) (Some mv) (Some salt)
       (agent1_used_fallback m) (agent2_used_fallback m)
       (agent1_strategy m) (agent2_strategy m) (winner_id m)
       (created_at m) (completed_at m).

Definition set_final_moves (m1 m2 : Move) (f1 f2 : bool) (m : row) : row :=
    mk (challenge_id m) (agent1_id m) (agent2_id m) (wager_amount m) (status m)
       (phase m) (strategy_deadline m) (commit_deadline m)
       (agent1_move_hash m) (agent2_move_hash m) (reveal_deadline m)
       (Some m1) (agent1_salt m) (Some m2) (agent2_salt m)
       f1 f2
       (agent1_strategy m) (agent2_strategy m) (winner_id m)
       (created_at m) (completed_at m).

Definition set_complete (winner : option uuid) (now : timestamptz) (m : row) : row :=
    mk (challenge_id m) (agent1_id m) (agent2_id m) (wager_amount m)
       complete
       (phase m) (strategy_deadline m) (commit_deadline m)
       (agent1_move_hash m) (agent2_move_hash m) (reveal_deadline m)
       (agent1_move m) (agent1_salt m) (agent2_move m) (agent2_salt m)
       (agent1_used_fallback m) (agent2_used_fallback m)
       (agent1_strategy m) (agent2_strategy m) winner
       (created_at m) (Some now).

Definition with_phase (p : match_phase) (m : row) : row :=
    mk (challenge_id m) (agent1_id m) (agent2_id m) (wager_amount m) (status m)
       p (strategy_deadline m) (commit_deadline m)
       (agent1_move_hash m) (agent2_move_hash m) (reveal_deadline m)
       (agent1_move m) (agent1_salt m) (agent2_move m) (agent2_salt m)
       (agent1_used_fallback m) (agent2_used_fallback m)
       (agent1_strategy m) (agent2_strategy m) (winner_id m)
       (created_at m) (completed_at m).
End Match.

Module Tx.
Record row : Type := mk {
    match_id : option uuid;
    from_agent_id : option uuid;
    to_agent_id : uuid;
    amount : Z;
    note : string
  }.
End Tx.

Record db : Type := mkDb {
  agents : gmap N Agent.row;
  challenges : gmap N Challenge.row;
  matches : gmap N Match.row;
  transactions : list Tx.row
}.

Definition with_agents (t : gmap N Agent.row) (s : db) : db :=
  mkDb t (challenges s) (matches s) (transactions s).
Definition with_challenges (t : gmap N Challenge.row) (s : db) : db :=
  mkDb (agents s) t (matches s) (transactions s).
Definition with_matches (t : gmap N Match.row) (s : db) : db :=
  mkDb (agents s) (challenges s) t (transactions s).
Definition with_transactions (t : list Tx.row) (s : db) : db :=
  mkDb (agents s) (challenges s) (matches s) t.

(** One call through [supabase.rpc]: a single transaction.  A raised
    exception rolls every statement of the function back. *)
Definition rpc {A} (f : db → res (db * A)) (s : db) : db * res A :=
  match f s with
  | Ok (s', a) => (s', Ok a)
  | Err e => (s, Err e)
  end.

(** ** SQL statements *)

Definition INT4_MIN : Z := -2147483648.
Definition INT4_MAX : Z := 2147483647.

(** The result of an INTEGER expression. *)
Definition int4 (z : Z) : res Z :=
  if (INT4_MIN <=? z) && (z <=? INT4_MAX) then Ok z
  else Err "integer out of range".

(** [(n || ' seconds')::INTERVAL], in microseconds. *)
Definition seconds (n : Z) : Z := n * 1000000.

(** [UPDATE agents SET ... WHERE id = id]: no row, no change. *)
Definition update_agent (id : uuid) (set : Agent.row → res Agent.row)
    (s : db) : res db :=
  match agents s !! id with
  | None => Ok s
  | Some a => a' ← set a; Ok (with_agents (<[id := a']> (agents s)) s)
  end.

(** [UPDATE agents SET ... WHERE id = v] for a variable that may be NULL. *)
Definition update_agent_opt (v : option uuid) (set : Agent.row → res Agent.row)
    (s : db) : res db :=
  match v with
  | None => Ok s
  | Some id => update_agent id set s
  end.

(** [UPDATE agents SET ... WHERE id IN (id1, id2)]. *)
Definition update_agents_in (id1 id2 : uuid) (set : Agent.row → res Agent.row)
    (s : db) : res db :=
  s1 ← update_agent id1 set s;
  if decide (id1 = id2) then Ok s1 else update_agent id2 set s1.

(** [SET balance = balance + d], under CHECK (balance >= 0). *)
Definition add_balance (d : Z) (a : Agent.row) : res Agent.row :=
  b ← int4 (Agent.balance a + d);
  if 0 <=? b then Ok (Agent.with_balance b a)
  else Err "new row violates check constraint balance_non_negative".

Definition incr_wins (a : Agent.row) : res Agent.row :=
  n ← int4 (Agent.wins a + 1); Ok (Agent.with_wins n a).
Definition incr_losses (a : Agent.row) : res Agent.row :=
  n ← int4 (Agent.losses a + 1); Ok (Agent.with_losses n a).
Definition incr_draws (a : Agent.row) : res Agent.row :=
  n ← int4 (Agent.draws a + 1); Ok (Agent.with_draws n a).
Definition set_strategy_state (st : gmap string jsval) (a : Agent.row)
    : res Agent.row :=
  Ok (Agent.with_strategy_state st a).

(** Trigger trg_sync_match_phase, BEFORE UPDATE ON matches FOR EACH ROW. *)
Definition sync_match_phase (new : Match.row) : Match.row :=
  if Match.is_complete new then Match.with_phase Match.finished new else new.

(** [UPDATE matches SET ... WHERE id = id]. *)
Definition update_match (id : uuid) (set : Match.row → Match.row) (s : db) : db :=
  match matches s !! id with
  | None => s
  | Some m => with_matches (<[id := sync_match_phase (set m)]> (matches s)) s
  end.

(** [UPDATE challenges SET status = st WHERE id = id]. *)
Definition update_challenge_status (id : uuid) (st : Challenge.challenge_status)
    (s : db) : db :=
  match challenges s !! id with
  | None => s
  | Some c => with_challenges (<[id := Challenge.with_status st c]> (challenges s)) s
  end.

Definition references {A} (t : gmap N A) (v : option uuid) : bool :=
  match v with
  | None => true
  | Some id => bool_decide (is_Some (t !! id))
  end.

(** [INSERT INTO transactions ...]: CHECK (amount > 0) and the three foreign
    keys. *)
Definition insert_transaction (t : Tx.row) (s : db) : res db :=
  if negb (0 <? Tx.amount t) then
    Err "new row violates check constraint amount_positive"
  else if negb (references (matches s) (Tx.match_id t)
                && references (agents s) (Tx.from_agent_id t)
                && references (agents s) (Some (Tx.to_agent_id t))) then
    Err "insert on table transactions violates foreign key constraint"
  else Ok (with_transactions (transactions s ++ [t]) s).

(** [INSERT INTO challenges (challenger_id, wager_amount)], as post-challenge
    issues it; [id] is the key gen_random_uuid() draws. *)
Definition insert_challenge (id : uuid) (challenger : uuid) (wager : Z)
    (s : db) : res (db * Challenge.row) :=
  if negb (0 <? wager) then Err "new row violates check constraint wager_positive"
  else if negb (references (agents s) (Some challenger)) then
    Err "insert on table challenges violates foreign key constraint"
  else match challenges s !! id with
       | Some _ => Err "duplicate key value violates unique constraint"
       | None =>
           let c := Challenge.mk challenger wager Challenge.open in
           Ok (with_challenges (<[id := c]> (challenges s)) s, c)
       end.

(** ** The escrow ledger *)

Definition escrow_wager (p_agent_id : uuid) (p_amount : Z) (s : db)
    : res (db * bool) :=
  match agents s !! p_agent_id with
  | Some a =>
      if Agent.balance a <? p_amount then Ok (s, false)
      else s' ← update_agent p_agent_id (add_balance (- p_amount)) s;
           Ok (s', true)
  | None =>
      (* v_balance is NULL: the IF is not taken and the UPDATE finds no row *)
      Ok (s, true)
  end.

Definition refund_wager (p_agent_id : uuid) (p_amount : Z) (s : db)
    : res (db * unit) :=
  s' ← update_agent p_agent_id (add_balance p_amount) s;
  Ok (s', tt).

Definition challenge_status_text (st : Challenge.challenge_status) : string :=
  match st with
  | Challenge.open => "open"
  | Challenge.matched => "matched"
  | Challenge.cancelled => "cancelled"
  end.

(** Migration 006.  The result is the single row (success, wager_amount,
    message). *)
Definition cancel_challenge (p_challenge_id p_agent_id : uuid) (s : db)
    : res (db * (bool * Z * string)) :=
  match challenges s !! p_challenge_id with
  | None => Ok (s, (false, 0, "Challenge not found"))
  | Some v_challenge =>
      if negb (bool_decide (Challenge.challenger_id v_challenge = p_agent_id)) then
        Ok (s, (false, 0, "Not your challenge"))
      else if negb (Challenge.is_open v_challenge) then
        Ok (s, (false, 0,
                ("Cannot cancel a challenge with status '"
                 ++ challenge_status_text (Challenge.status v_challenge)
                 ++ "'")%string))
      else
        let s1 := update_challenge_status p_challenge_id Challenge.cancelled s in
        s2 ← update_agent p_agent_id
               (add_balance (Challenge.wager_amount v_challenge)) s1;
        s3 ← insert_transaction
               (Tx.mk None None p_agent_id (Challenge.wager_amount v_challenge)
                  "challenge cancelled — wager returned") s2;
        Ok (s3, (true, Challenge.wager_amount v_challenge, "Challenge cancelled."))
  end.

(** post-challenge/index.ts after authentication and rate limiting.  [wager]
    is [Number(body?.wager_amount)] once [Number.isInteger] holds; the three
    store calls are three transactions. *)
Definition post_challenge (agent_id : uuid) (wager : Z) (new_id : uuid)
    (s : db) : db * res Challenge.row :=
  if wager <=? 0 then (s, Err "wager_amount must be a positive integer")
  else if negb (is_ok (int4 wager)) then (s, Err "integer out of range")
  else
    match rpc (escrow_wager agent_id wager) s with
    | (s1, Err e) => (s1, Err e)
    | (s1, Ok false) => (s1, Err "Insufficient balance")
    | (s1, Ok true) =>
        match rpc (insert_challenge new_id agent_id wager) s1 with
        | (s2, Ok c) => (s2, Ok c)
        | (s2, Err e) =>
            (* refund escrow on failure *)
            (fst (rpc (refund_wager agent_id wager) s2), Err e)
        end
    end.

(** ** Match creation *)

(** create_match as migration 003 leaves it; [new_id] is the key
    gen_random_uuid() draws for the match. *)
Definition create_match (now : timestamptz) (new_id : uuid)
    (p_challenge_id p_accepter_id : uuid)
    (p_strategy_seconds p_commit_seconds : Z) (s : db) : res (db * Match.row) :=
  match challenges s !! p_challenge_id with
  | None => Err "Challenge is not open or does not exist"
  | Some v_challenge =>
      if negb (Challenge.is_open v_challenge) then
        Err "Challenge is not open or does not exist"
      else if bool_decide (Challenge.challenger_id v_challenge = p_accepter_id) then
        Err "An agent cannot accept their own challenge"
      else
        let wager := Challenge.wager_amount v_challenge in
        let v_challenger := agents s !! Challenge.challenger_id v_challenge in
        let v_accepter := agents s !! p_accepter_id in
        if match v_accepter with
           | Some a => Agent.balance a <? wager
           | None => false
           end
        then Err "Accepter has insufficient balance"
        else
          s1 ← update_agent p_accepter_id (add_balance (- wager)) s;
          match v_challenger, v_accepter with
          | Some v_challenger, Some v_accepter =>
              let v_strategy_dl := now + seconds p_strategy_seconds in
              let v_match :=
                Match.mk p_challenge_id
                  (Challenge.challenger_id v_challenge) p_accepter_id wager
                  Match.pending Match.strategy
                  (Some v_strategy_dl)
                  (v_strategy_dl + seconds p_commit_seconds)
                  None None None None None None None false false
                  (Agent.strategy v_challenger) (Agent.strategy v_accepter)
                  None now None in
              match matches s1 !! new_id with
              | Some _ => Err "duplicate key value violates unique constraint"
              | None =>
                  let s2 := with_matches (<[new_id := v_match]> (matches s1)) s1 in
                  let s3 := update_challenge_status p_challenge_id
                              Challenge.matched s2 in
                  Ok (s3, v_match)
              end
          | _, _ =>
              (* a missing agent row leaves the NOT NULL strategy snapshot
                 (and the foreign key) unsatisfied *)
              Err "null value in column violates not-null constraint"
          end
  end.

(** ** The strategy executor (strategy.ts) *)

Record MoveResult : Type := mkMoveResult {
  move : option Move;  (* [None] is JavaScript's undefined *)
  newState : gmap string jsval
}.

(** [Math.floor(x)] where it can index VALID_MOVES: k exactly when
    k <= x < k + 1, for k = 0, 1, 2. *)
Definition floor_index (x : float) : option nat :=
  if PrimFloat.leb 0 x && PrimFloat.ltb x 1 then Some 0%nat
  else if PrimFloat.leb 1 x && PrimFloat.ltb x 2 then Some 1%nat
  else if PrimFloat.leb 2 x && PrimFloat.ltb x 3 then Some 2%nat
  else None.

(** [VALID_MOVES[Math.floor(rand * 3)]], undefined outside the array. *)
Definition random_move (rand : float) : option Move :=
  k ← floor_index (PrimFloat.mul rand 3); VALID_MOVES !! k.

(** The binary64 number nearest to the integer [z], ties to the even
    mantissa: what JSON.parse makes of an integer read from the store, and
    what an addition returns for an exact sum [z].  An integer of size at
    most 2^53 is kept; beyond, its 53 leading bits are rounded; from
    2^1024 - 2^970 on the result is an infinity, for which [None] stands
    here as it does for NaN: [%] turns both into NaN and an array has no
    element at either. *)
Definition binary64_of_Z (z : Z) : option Z :=
  let a := Z.abs z in
  if a <? 2 ^ 53 then Some z
  else
    let e := Z.log2 a - 52 in
    let q := a / 2 ^ e in
    let r := a mod 2 ^ e in
    let q' := if 2 * r <? 2 ^ e then q
              else if 2 ^ e <? 2 * r then q + 1
              else if Z.even q then q else q + 1 in
    if 2 ^ 1024 <=? q' * 2 ^ e then None
    else Some (Z.sgn z * (q' * 2 ^ e)).

(** A number that is the result of [%]: an integer or, for [None], NaN. *)
Definition js_number (v : option Z) : jsval :=
  match v with
  | Some z => JNum z
  | None => JNaN
  end.

(** [typeof state.index === 'number' ? state.index : 0], the number being
    the binary64 reading of what the state holds. *)
Definition state_index (state : gmap string jsval) : option Z :=
  match state !! "index" with
  | Some (JNum i) => binary64_of_Z i
  | Some JNaN => None
  | _ => Some 0
  end.

(** JavaScript's [a % n]: the remainder takes the sign of the dividend, and
    a zero divisor gives NaN. *)
Definition js_rem (a : option Z) (n : Z) : option Z :=
  match a with
  | Some x => if n =? 0 then None else Some (Z.rem x n)
  | None => None
  end.

(** [a + 1] in binary64: the exact sum, rounded. *)
Definition js_succ (a : option Z) : option Z :=
  match a with
  | Some x => binary64_of_Z (x + 1)
  | None => None
  end.

(** [array[k]]: undefined for NaN and outside the array. *)
Definition js_elem {A} (l : list A) (k : option Z) : option A :=
  match k with
  | Some k => if k <? 0 then None else l !! Z.to_nat k
  | None => None
  end.

Definition counters (m : Move) : Move :=
  match m with
  | rock => paper
  | paper => scissors
  | scissors => rock
  end.

(** The filter of the counter_last_loss query: a completed, non-drawn match
    of the agent that somebody else won. *)
Definition lost_by (agentId : uuid) (m : Match.row) : bool :=
  match Match.winner_id m with
  | Some w =>
      negb (N.eqb w agentId)
      && (N.eqb (Match.agent1_id m) agentId || N.eqb (Match.agent2_id m) agentId)
      && Match.is_complete m
  | None => false
  end.

(** [a] sorts strictly before [b] under ORDER BY completed_at DESC (NULLs
    first). *)
Definition sorts_before (a b : option timestamptz) : bool :=
  match a, b with
  | None, Some _ => true
  | Some x, Some y => y <? x
  | _, _ => false
  end.

(** The row [.order('completed_at', desc).limit(1).single()] returns.  Rows
    with equal completion times are in no specified order; the model takes
    the one with the greatest key. *)
Definition last_loss (s : db) (agentId : uuid) : option Match.row :=
  foldr (fun m best =>
           match best with
           | None => Some m
           | Some b =>
               if sorts_before (Match.completed_at m) (Match.completed_at b)
               then Some m else Some b
           end)
        None
        (List.filter (lost_by agentId) (map snd (map_to_list (matches s)))).

(** [computeMove(strategy, state, agentId)]; [rand] is the value
    [Math.random()] returns when the strategy draws one, and [s] is the store
    the counter_last_loss query reads. *)
Definition computeMove (s : db) (rand : float) (strategy : Strategy)
    (state : gmap string jsval) (agentId : option uuid) : MoveResult :=
  match strategy with
  | Random => mkMoveResult (random_move rand) state
  | Always mv => mkMoveResult (Some mv) state
  | Cycle sequence =>
      let index := state_index state in
      let len := Z.of_nat (length sequence) in
      mkMoveResult (js_elem sequence (js_rem index len))
                   {[ "index" := js_number (js_rem (js_succ index) len) ]}
  | Weighted w_rock w_paper w_scissors =>
      let mv :=
        if PrimFloat.ltb rand w_rock then rock
        else if PrimFloat.ltb rand (PrimFloat.add w_rock w_paper) then paper
        else scissors in
      mkMoveResult (Some mv) state
  | CounterLastLoss =>
      let lastLostTo :=
        match agentId with
        | Some id =>
            match last_loss s id with
            | Some data =>
                if N.eqb (Match.agent1_id data) id then Match.agent2_move data
                else Match.agent1_move data
            | None => None
            end
        | None => None
        end in
      let mv :=
        match lastLostTo with
        | Some m => Some (counters m)
        | None => random_move rand
        end in
      mkMoveResult mv state
  end.

Definition advanceState (s : db) (rand : float) (strategy : Strategy)
    (state : gmap string jsval) (agentId : option uuid) : gmap string jsval :=
  newState (computeMove s rand strategy state agentId).

(** ** Strategy validation (auth.ts) *)

(** A parsed JSON value; an object is the list of its properties. *)
#[local] Set Warnings "-register-all".
Inductive json : Type :=
| Jnull
| Jbool (b : bool)
| Jnumber (x : float)
| Jstring (t : string)
| Jarray (items : list json)
| Jobject (fields : list (string * json)).

(** [o.k], [None] when the property is absent. *)
Fixpoint get (k : string) (fields : list (string * json)) : option json :=
  match fields with
  | [] => None
  | (k', v) :: rest => if String.eqb k k' then Some v else get k rest
  end.

(** [VALID_MOVES.includes(v as Move)] *)
Definition as_move (v : option json) : option Move :=
  match v with
  | Some (Jstring t) => move_of_text t
  | _ => None
  end.

Definition includes_move (v : option json) : bool :=
  match as_move v with Some _ => true | None => false end.

Definition as_number (v : option json) : option float :=
  match v with
  | Some (Jnumber x) => Some x
  | _ => None
  end.

Definition validateStrategy (s : json) : bool :=
  match s with
  | Jobject strategy =>
      match get "type" strategy with
      | Some (Jstring t) =>
          if String.eqb t "random" then true
          else if String.eqb t "always" then includes_move (get "move" strategy)
          else if String.eqb t "cycle" then
            match get "sequence" strategy with
            | Some (Jarray sequence) =>
                (0 <? Z.of_nat (length sequence))
                && (Z.of_nat (length sequence) <=? 20)
                && forallb (fun m => includes_move (Some m)) sequence
            | _ => false
            end
          else if String.eqb t "weighted" then
            match as_number (get "rock" strategy),
                  as_number (get "paper" strategy),
                  as_number (get "scissors" strategy) with
            | Some w_rock, Some w_paper, Some w_scissors =>
                let sum := PrimFloat.add (PrimFloat.add w_rock w_paper) w_scissors in
                PrimFloat.ltb (PrimFloat.abs (PrimFloat.sub sum 1)) 0.001
            | _, _, _ => false
            end
          else if String.eqb t "counter_last_loss" then true
          else false
      | _ => false
      end
  | _ => false
  end.

(** The typed reading of a validated object ([s is Strategy]). *)
Definition as_Strategy (s : json) : option Strategy :=
  match s with
  | Jobject strategy =>
      match get "type" strategy with
      | Some (Jstring t) =>
          if String.eqb t "random" then Some Random
          else if String.eqb t "always" then
            Always <$> as_move (get "move" strategy)
          else if String.eqb t "cycle" then
            match get "sequence" strategy with
            | Some (Jarray sequence) =>
                Cycle <$> mapM (fun m => as_move (Some m)) sequence
            | _ => None
            end
          else if String.eqb t "weighted" then
            match as_number (get "rock" strategy),
                  as_number (get "paper" strategy),
                  as_number (get "scissors" strategy) with
            | Some w_rock, Some w_paper, Some w_scissors =>
                Some (Weighted w_rock w_paper w_scissors)
            | _, _, _ => None
            end
          else if String.eqb t "counter_last_loss" then Some CounterLastLoss
          else None
      | _ => None
      end
  | _ => None
  end.

(** A JSON value read as a condition: null, false, 0, -0 and the empty text
    are falsy (as NaN would be, which JSON does not carry); objects and
    arrays are truthy. *)
Definition js_truthy (v : json) : bool :=
  match v with
  | Jnull => false
  | Jbool b => b
  | Jnumber x => negb (PrimFloat.eqb x 0 || PrimFloat.is_nan x)
  | Jstring EmptyString => false
  | Jstring (String _ _) => true
  | Jarray _ => true
  | Jobject _ => true
  end.

(** set-strategy/index.ts after authentication and rate limiting: the
    strategy is replaced and the strategy state reset to the empty object.
    [body_strategy] is [body?.strategy]: [None] when the body is no JSON, is
    null or has no such property. *)
Definition set_strategy (agent_id : uuid) (body_strategy : option json) (s : db)
    : db * res unit :=
  match body_strategy with
  | None => (s, Err "strategy is required")
  | Some strategy =>
      if negb (js_truthy strategy) then (s, Err "strategy is required")
      else if negb (validateStrategy strategy) then
        (s, Err "Invalid strategy. Must be one of: random, always, cycle, weighted, counter_last_loss")
      else
        match as_Strategy strategy, agents s !! agent_id with
        | Some st, Some a =>
            (with_agents
               (<[agent_id := Agent.mk (Agent.balance a) (Agent.wins a)
                                (Agent.losses a) (Agent.draws a) st ∅]>
                  (agents s)) s,
             Ok tt)
        | _, _ => (s, Ok tt)
        end
  end.

(** ** Commit and reveal *)

(** submit_commit as migration 001 leaves it; the handler passes no
    p_reveal_seconds, so the default of 60 applies there. *)
Definition submit_commit (now : timestamptz) (p_match_id p_agent_id : uuid)
    (p_move_hash : string) (p_reveal_seconds : Z) (s : db)
    : res (db * Match.row) :=
  match matches s !! p_match_id with
  | None => Err "Match is not in pending state or does not exist"
  | Some v_match =>
      if negb (Match.is_pending v_match) then
        Err "Match is not in pending state or does not exist"
      else if match Match.strategy_deadline v_match with
              | Some d => now <? d
              | None => false
              end then
        Err "Strategy period active"
      else if Match.commit_deadline v_match <? now then
        Err "Commit deadline has passed"
      else if negb (N.eqb p_agent_id (Match.agent1_id v_match)
                    || N.eqb p_agent_id (Match.agent2_id v_match)) then
        Err "Agent is not a participant in match"
      else
        s1 ← (if N.eqb p_agent_id (Match.agent1_id v_match) then
                match Match.agent1_move_hash v_match with
                | Some _ => Err "Agent1 has already committed"
                | None =>
                    Ok (update_match p_match_id
                          (Match.set_agent1_move_hash p_move_hash) s)
                end
              else
                match Match.agent2_move_hash v_match with
                | Some _ => Err "Agent2 has already committed"
                | None =>
                    Ok (update_match p_match_id
                          (Match.set_agent2_move_hash p_move_hash) s)
                end);
        let s2 :=
          match matches s1 !! p_match_id with
          | Some v =>
              match Match.agent1_move_hash v, Match.agent2_move_hash v with
              | Some _, Some _ =>
                  update_match p_match_id
                    (Match.set_waiting_reveals (now + seconds p_reveal_seconds)) s1
              | _, _ => s1
              end
          | None => s1
          end in
        match matches s2 !! p_match_id with
        | Some v => Ok (s2, v)
        | None => Err "no row"
        end
  end.

Section Codec.

(** [encode(extensions.digest(t, 'sha256'), 'hex')] in the store and
    [createHash('sha256').update(t).digest('hex')] in the client: the
    lowercase hexadecimal SHA-256 digest of the UTF-8 bytes of [t].  Both
    come from libraries outside the repository. *)
Variable sha256_hex : string → string.

(** commit.ts; [salt] is [randomBytes(16).toString('hex')]. *)
Definition createCommit (move : string) (salt : string) : string * string :=
  (sha256_hex (move ++ salt)%string, salt).

(** [v_expected_hash != v_stored_hash]: NULL, hence not taken, when no hash
    is stored. *)
Definition hash_mismatch (v_expected_hash : string) (v_stored_hash : option string)
    : bool :=
  match v_stored_hash with
  | Some h => negb (String.eqb v_expected_hash h)
  | None => false
  end.

Definition submit_reveal (now : timestamptz) (p_match_id p_agent_id : uuid)
    (p_move p_salt : string) (s : db) : res (db * Match.row) :=
  match matches s !! p_match_id with
  | None => Err "Match is not in waiting_reveals state or does not exist"
  | Some v_match =>
      if negb (Match.is_waiting_reveals v_match) then
        Err "Match is not in waiting_reveals state or does not exist"
      else if match Match.reveal_deadline v_match with
              | Some d => d <? now
              | None => false
              end then
        Err "Reveal deadline has passed"
      else if negb (N.eqb p_agent_id (Match.agent1_id v_match)
                    || N.eqb p_agent_id (Match.agent2_id v_match)) then
        Err "Agent is not a participant in match"
      else
        match move_of_text p_move with
        | None => Err "Invalid move"
        | Some mv =>
            let v_expected_hash := sha256_hex (p_move ++ p_salt)%string in
            s1 ← (if N.eqb p_agent_id (Match.agent1_id v_match) then
                    match Match.agent1_move v_match with
                    | Some _ => Err "Agent1 has already revealed"
                    | None =>
                        if hash_mismatch v_expected_hash
                             (Match.agent1_move_hash v_match) then
                          Err "Hash mismatch for agent1"
                        else
                          Ok (update_match p_match_id
                                (Match.set_agent1_reveal mv p_salt) s)
                    end
                  else
                    match Match.agent2_move v_match with
                    | Some _ => Err "Agent2 has already revealed"
                    | None =>
                        if hash_mismatch v_expected_hash
                             (Match.agent2_move_hash v_match) then
                          Err "Hash mismatch for agent2"
                        else
                          Ok (update_match p_match_id
                                (Match.set_agent2_reveal mv p_salt) s)
                    end);
            match matches s1 !! p_match_id with
            | Some v => Ok (s1, v)
            | None => Err "no row"
            end
        end
  end.

End Codec.

(** ** Resolution *)

(** The verdict of resolve_match: [(v_winner_id, v_loser_id)], both NULL on
    a draw. *)
Definition determine_winner (v_match : Match.row) (m1 m2 : Move)
    : option uuid * option uuid :=
  if bool_decide (m1 = m2) then (None, None)
  else
    match m1, m2 with
    | rock, scissors | paper, rock | scissors, paper =>
        (Some (Match.agent1_id v_match), Some (Match.agent2_id v_match))
    | _, _ =>
        (Some (Match.agent2_id v_match), Some (Match.agent1_id v_match))
    end.

Definition resolve_match (now : timestamptz) (p_match_id : uuid)
    (p_agent1_move p_agent2_move : string)
    (p_agent1_fallback p_agent2_fallback : bool)
    (p_agent1_new_state p_agent2_new_state : gmap string jsval) (s : db)
    : res (db * Match.row) :=
  match matches s !! p_match_id with
  | None => Err "Match is already complete or does not exist"
  | Some v_match =>
      if Match.is_complete v_match then
        Err "Match is already complete or does not exist"
      else
        match move_of_text p_agent1_move, move_of_text p_agent2_move with
        | None, _ => Err "Invalid agent1 move"
        | Some _, None => Err "Invalid agent2 move"
        | Some m1, Some m2 =>
            let a1 := Match.agent1_id v_match in
            let a2 := Match.agent2_id v_match in
            let wager := Match.wager_amount v_match in
            let s1 := update_match p_match_id
                        (Match.set_final_moves m1 m2
                           p_agent1_fallback p_agent2_fallback) s in
            let '(v_winner_id, v_loser_id) := determine_winner v_match m1 m2 in
            let v_is_draw := bool_decide (m1 = m2) in
            s2 ← (if v_is_draw then
                    sa ← update_agents_in a1 a2 (add_balance wager) s1;
                    sb ← insert_transaction
                           (Tx.mk (Some p_match_id) None a1 wager
                              "draw — wager returned") sa;
                    sc ← insert_transaction
                           (Tx.mk (Some p_match_id) None a2 wager
                              "draw — wager returned") sb;
                    update_agents_in a1 a2 incr_draws sc
                  else
                    w2 ← int4 (wager * 2);
                    sa ← update_agent_opt v_winner_id (add_balance w2) s1;
                    sb ← match v_winner_id with
                         | Some w =>
                             insert_transaction
                               (Tx.mk (Some p_match_id) v_loser_id w w2
                                  "match winnings") sa
                         | None => Err "null value in column to_agent_id"
                         end;
                    sc ← update_agent_opt v_winner_id incr_wins sb;
                    update_agent_opt v_loser_id incr_losses sc);
            let s3 := update_match p_match_id (Match.set_complete v_winner_id now) s2 in
            s4 ← update_agent a1 (set_strategy_state p_agent1_new_state) s3;
            s5 ← update_agent a2 (set_strategy_state p_agent2_new_state) s4;
            match matches s5 !! p_match_id with
            | Some v => Ok (s5, v)
            | None => Err "no row"
            end
        end
  end.

(** ** The stale match reaper (process-stale-matches/index.ts) *)

(** The WHERE clause of the stale_matches view. *)
Definition is_stale (now : timestamptz) (m : Match.row) : bool :=
  (Match.is_pending m && (Match.commit_deadline m <? now))
  || (Match.is_waiting_reveals m
      && match Match.reveal_deadline m with
         | Some d => d <? now
         | None => false
         end).

Definition stale_matches (now : timestamptz) (s : db) : list (uuid * Match.row) :=
  List.filter (fun r => is_stale now (snd r)) (map_to_list (matches s)).

(** A strategy state as the JSON body of an RPC call carries it: NaN is
    written as null. *)
Definition jsonb_of_state (st : gmap string jsval) : gmap string jsval :=
  (fun v => match v with JNaN => JNull | _ => v end) <$> st.

Record ProcessResult : Type := mkProcessResult {
  r_winner_id : option uuid;
  r_agent1_move : Move;
  r_agent2_move : Move;
  r_agent1_fallback : bool;
  r_agent2_fallback : bool
}.

Definition is_some {A} (o : option A) : bool :=
  match o with Some _ => true | None => false end.

(** [processMatch(supabase, match)] for the row [match] of the stale_matches
    view with key [id]; [rand1] and [rand2] are the draws of the two
    executor calls.  [Err] is a thrown Error, which the sweep records and
    moves on from. *)
Definition processMatch (now : timestamptz) (rand1 rand2 : float)
    (id : uuid) (match_ : Match.row) (s : db) : db * res ProcessResult :=
  match agents s !! Match.agent1_id match_, agents s !! Match.agent2_id match_ with
  | Some agent1, Some agent2 =>
      let id1 := Some (Match.agent1_id match_) in
      let id2 := Some (Match.agent2_id match_) in
      let '(agent1Move, agent2Move, agent1Fallback, agent2Fallback,
            newState1, newState2) :=
        if Match.is_pending match_ then
          let agent1Committed := is_some (Match.agent1_move_hash match_) in
          let agent2Committed := is_some (Match.agent2_move_hash match_) in
          let r1 := computeMove s rand1 (Agent.strategy agent1)
                      (Agent.strategy_state agent1) id1 in
          let r2 := computeMove s rand2 (Agent.strategy agent2)
                      (Agent.strategy_state agent2) id2 in
          (move r1, move r2, negb agent1Committed, negb agent2Committed,
           newState r1, newState r2)
        else
          let '(agent1Move, newState1, agent1Fallback) :=
            match Match.agent1_move match_ with
            | Some mv =>
                (Some mv,
                 advanceState s rand1 (Agent.strategy agent1)
                   (Agent.strategy_state agent1) id1,
                 false)
            | None =>
                let r1 := computeMove s rand1 (Agent.strategy agent1)
                            (Agent.strategy_state agent1) id1 in
                (move r1, newState r1, true)
            end in
          let '(agent2Move, newState2, agent2Fallback) :=
            match Match.agent2_move match_ with
            | Some mv =>
                (Some mv,
                 advanceState s rand2 (Agent.strategy agent2)
                   (Agent.strategy_state agent2) id2,
                 false)
            | None =>
                let r2 := computeMove s rand2 (Agent.strategy agent2)
                            (Agent.strategy_state agent2) id2 in
                (move r2, newState r2, true)
            end in
          (agent1Move, agent2Move, agent1Fallback, agent2Fallback,
           newState1, newState2) in
      match agent1Move, agent2Move with
      | Some m1, Some m2 =>
          match rpc (resolve_match now id (move_text m1) (move_text m2)
                       agent1Fallback agent2Fallback
                       (jsonb_of_state newState1) (jsonb_of_state newState2)) s with
          | (s', Ok result) =>
              (s', Ok (mkProcessResult (Match.winner_id result) m1 m2
                         agent1Fallback agent2Fallback))
          | (s', Err e) => (s', Err e)
          end
      | _, _ =>
          (* an undefined move is left out of the request body, and the
             store finds no function to call *)
          (s, Err "Could not find the function resolve_match")
      end
  | _, _ => (s, Err "Agents not found for match")
  end.

(** ** Accepting a challenge (accept-challenge/index.ts) *)

(** [Math.min] and [Math.max] on two numbers: NaN if either is, and -0
    below +0. *)
Definition Math_min (a b : float) : float :=
  if PrimFloat.is_nan a || PrimFloat.is_nan b then PrimFloat.nan
  else if PrimFloat.ltb a b then a
  else if PrimFloat.ltb b a then b
  else if PrimFloat.get_sign a then a else b.

Definition Math_max (a b : float) : float :=
  if PrimFloat.is_nan a || PrimFloat.is_nan b then PrimFloat.nan
  else if PrimFloat.ltb a b then b
  else if PrimFloat.ltb b a then a
  else if PrimFloat.get_sign a then b else a.

(** The window the handler asks for, from [Number(body?.strategy_seconds)]
    or [Number(body?.commit_seconds)]. *)
Definition window_seconds (req : float) : float :=
  if negb (PrimFloat.is_nan req) then Math_max 10 (Math_min 120 req)
  else 60.

(** The integer a binary64 value denotes, if it denotes one: the value of
    sign, mantissa [m] and exponent [e] is m * 2^e. *)
Definition sf_integer (x : spec_float) : option Z :=
  match x with
  | S754_zero _ => Some 0
  | S754_finite sign m e =>
      if 0 <=? e then Some (cond_Zopp sign (Z.pos m * 2 ^ e))
      else if Z.pos m mod 2 ^ (- e) =? 0 then
        Some (cond_Zopp sign (Z.pos m / 2 ^ (- e)))
      else None
  | _ => None
  end.

Definition integer_value (x : float) : option Z := sf_integer (Prim2SF x).

(** A number of the request body bound to an INTEGER parameter of an SQL
    function: anything but an integer in range is refused by the store. *)
Definition integer_param (x : float) : res Z :=
  match integer_value x with
  | Some z => int4 z
  | None => Err "invalid input syntax for type integer"
  end.

(** The handler after authentication and rate limiting; the two numbers are
    [Number(body?.strategy_seconds)] and [Number(body?.commit_seconds)]. *)
Definition accept_challenge (now : timestamptz) (new_id : uuid)
    (challengeId agent_id : uuid) (reqStrategySeconds reqCommitSeconds : float)
    (s : db) : db * res Match.row :=
  let strategySeconds := window_seconds reqStrategySeconds in
  let commitSeconds := window_seconds reqCommitSeconds in
  rpc (fun s =>
         p_strategy_seconds ← integer_param strategySeconds;
         p_commit_seconds ← integer_param commitSeconds;
         create_match now new_id challengeId agent_id
           p_strategy_seconds p_commit_seconds s) s.

(** *** The numbers of the request body *)

Section Request.

(** Two functions of the JavaScript library: the number a text denotes
    (StringToNumber) and the text of a number (Number::toString). *)
Variable StringToNumber : string → float.
Variable NumberToString : float → string.







End Request.


(** * Vocabulary of the properties *)

(** The moves of [n] successive fallbacks of one agent: every resolution
    stores the executor's new state on the agent's row, and the next one
    starts from it. *)
Fixpoint successive_moves (s : db) (strategy : Strategy)
    (state : gmap string jsval) (n : nat) : list (option Move) :=
  match n with
  | O => []
  | S n' =>
      let r := computeMove s 0 strategy state None in
      move r :: successive_moves s strategy (jsonb_of_state (newState r)) n'
  end.

(** The wire object [{type: 'weighted', rock, paper, scissors}]. *)
Definition weighted_config (w_rock w_paper w_scissors : float) : json :=
  Jobject [("type", Jstring "weighted"); ("rock", Jnumber w_rock);
           ("paper", Jnumber w_paper); ("scissors", Jnumber w_scissors)].

(** [rock + paper + scissors] as JavaScript adds them. *)
Definition weight_sum (w_rock w_paper w_scissors : float) : float :=
  PrimFloat.add (PrimFloat.add w_rock w_paper) w_scissors.

(** "Sums to 1.0 within a tolerance of [tol]". *)
Definition sums_to_one_within (tol : float) (w_rock w_paper w_scissors : float)
    : bool :=
  PrimFloat.leb
    (PrimFloat.abs (PrimFloat.sub (weight_sum w_rock w_paper w_scissors) 1)) tol.

(** An agent's spendable balance (0 for an unknown agent). *)
Definition balance_of (s : db) (a : uuid) : Z :=
  match agents s !! a with
  | Some r => Agent.balance r
  | None => 0
  end.

(** What a run of transaction rows pays to agent [a]. *)
Definition credited (a : uuid) (txs : list Tx.row) : Z :=
  foldr (fun t acc =>
           if N.eqb (Tx.to_agent_id t) a then Tx.amount t + acc else acc)
        0 txs.

(** Between [s] and [s'] the log only grew, and every agent's balance moved
    by exactly what the new rows pay to that agent. *)
Definition ledger_matched (s s' : db) : Prop :=
  ∃ new,
    transactions s' = transactions s ++ new
    ∧ ∀ a, balance_of s' a - balance_of s a = credited a new.

(** The standard cycle in the spec's words: rock beats scissors, scissors
    beats paper, paper beats rock. *)
Definition beats (a b : Move) : bool :=
  match a, b with
  | rock, scissors | scissors, paper | paper, rock => true
  | _, _ => false
  end.

Inductive outcome : Type := Won | Lost | Drew.

(** Equal moves are a draw; otherwise the move that beats the other wins. *)
Definition outcome_of (mine theirs : Move) : outcome :=
  if bool_decide (mine = theirs) then Drew
  else if beats mine theirs then Won else Lost.

(** Balance, wins, losses and draws of an agent row. *)
Definition standing (a : Agent.row) : Z * Z * Z * Z :=
  (Agent.balance a, Agent.wins a, Agent.losses a, Agent.draws a).

(** The standing the spec promises after a match of wager [w]: the winner
    is credited both wagers and a win, the loser a loss, and on a draw each
    side gets its own wager back and a draw. *)
Definition standing_after (w : Z) (o : outcome) (a : Agent.row)
    : Z * Z * Z * Z :=
  match o with
  | Won => (Agent.balance a + 2 * w, Agent.wins a + 1, Agent.losses a, Agent.draws a)
  | Lost => (Agent.balance a, Agent.wins a, Agent.losses a + 1, Agent.draws a)
  | Drew => (Agent.balance a + w, Agent.wins a, Agent.losses a, Agent.draws a + 1)
  end.

(** The row of an agent leaves every INTEGER column room for one more
    settlement of wager [w]. *)
Definition settles_in_range (w : Z) (a : Agent.row) : Prop :=
  0 <= Agent.balance a ∧ Agent.balance a + 2 * w <= INT4_MAX
  ∧ 0 <= Agent.wins a < INT4_MAX
  ∧ 0 <= Agent.losses a < INT4_MAX
  ∧ 0 <= Agent.draws a < INT4_MAX.

(** The arguments of one invocation of resolve_match for a given match. *)
Record resolve_call : Type := mkResolveCall {
  c_now : timestamptz;
  c_agent1_move : string;
  c_agent2_move : string;
  c_agent1_fallback : bool;
  c_agent2_fallback : bool;
  c_agent1_new_state : gmap string jsval;
  c_agent2_new_state : gmap string jsval
}.

Definition invoke_resolve (id : uuid) (c : resolve_call) (s : db)
    : db * res Match.row :=
  rpc (resolve_match (c_now c) id (c_agent1_move c) (c_agent2_move c)
         (c_agent1_fallback c) (c_agent2_fallback c)
         (c_agent1_new_state c) (c_agent2_new_state c)) s.

(** The row resolve_match leaves for a match [m] resolved at [now] with
    final moves [m1], [m2] and fallback flags [f1], [f2]. *)
Definition resolved_row (now : timestamptz) (m1 m2 : Move) (f1 f2 : bool)
    (m : Match.row) : Match.row :=
  Match.with_phase Match.finished
    (Match.set_complete
       match outcome_of m1 m2 with
       | Won => Some (Match.agent1_id m)
       | Lost => Some (Match.agent2_id m)
       | Drew => None
       end
       now (Match.set_final_moves m1 m2 f1 f2 m)).

(** *** The scenario of the spec

    Agents A and B are registered with 1000 chips each (the two starting
    grants are in the log); A posts a wager of 50 and B accepts. *)
Definition agent_A : uuid := 1%N.
Definition agent_B : uuid := 2%N.

Definition registered (st : Strategy) : Agent.row := Agent.mk 1000 0 0 0 st ∅.

Definition arena : db :=
  mkDb (<[agent_A := registered Random]> (<[agent_B := registered Random]> ∅))
       ∅ ∅
       [Tx.mk None None agent_A 1000 "starting balance";
        Tx.mk None None agent_B 1000 "starting balance"].

Definition arena_posted : db := fst (post_challenge agent_A 50 10 arena).

Definition arena_accepted : db :=
  fst (accept_challenge 0 20 10 agent_B PrimFloat.nan PrimFloat.nan arena_posted).

Definition rock_beats_scissors : resolve_call :=
  mkResolveCall 130000000 "rock" "scissors" false false ∅ ∅.

(** The revealed move and the stored commit hash of a participant, agent1
    first as in submit_reveal. *)
Definition participant_move (m : Match.row) (agent : uuid) : option Move :=
  if N.eqb agent (Match.agent1_id m) then Match.agent1_move m
  else Match.agent2_move m.

Definition participant_hash (m : Match.row) (agent : uuid) : option string :=
  if N.eqb agent (Match.agent1_id m) then Match.agent1_move_hash m
  else Match.agent2_move_hash m.

(** *** A second scenario: a commit phase that times out

    A (always rock) posts a wager of 50 and B (always scissors) accepts at
    time 0 with the default windows, so the strategy window closes at 60 s
    and the commit window at 120 s.  A then changes strategy to always
    paper, and at 70 s commits a hash; B never commits. *)
Definition duel : db :=
  fst (accept_challenge 0 20 10 agent_B PrimFloat.nan PrimFloat.nan
         (fst (post_challenge agent_A 50 10
                 (mkDb (<[agent_A := registered (Always rock)]>
                          (<[agent_B := registered (Always scissors)]> ∅))
                       ∅ ∅ [])))).

Definition always_paper : json :=
  Jobject [("type", Jstring "always"); ("move", Jstring "paper")].

Definition duel_restrategized : db :=
  fst (set_strategy agent_A (Some always_paper) duel).

Definition lone_hash : string :=
  "9f86d081884c7d659a2feaa0c55ad015a3bf4f1b2b0b822cd15d6c15b0f00a08".

Definition duel_committed : db :=
  fst (rpc (submit_commit 70000000 20 agent_A lone_hash 60) duel_restrategized).

(** The row of the match once A has committed. *)
Definition duel_row : Match.row :=
  Match.mk 10 agent_A agent_B 50 Match.pending Match.strategy
    (Some 60000000) 120000000 (Some lone_hash) None None
    None None None None false false
    (Always rock) (Always scissors) None 0 None.

Definition ok_value {A} (r : res A) : option A :=
  match r with
  | Ok a => Some a
  | Err _ => None
  end.

(** The binary64 values 10 and 120. *)
Definition sf10 : spec_float := S754_finite false 5629499534213120 (-49).
Definition sf120 : spec_float := S754_finite false 8444249301319680 (-46).

(** *** A third scenario: the reveal phase

    In the match of the second scenario (before A's change of strategy) A
    commits to rock at 70 s and B to scissors at 80 s, each with the digest
    of the move followed by its salt, so the reveal window closes at
    140 s. *)
Definition salt_A : string := "000102030405060708090a0b0c0d0e0f".
Definition salt_B : string := "f0e0d0c0b0a090807060504030201000".

Definition reveal_stage (sha256_hex : string → string) : db :=
  fst (rpc (submit_commit 80000000 20 agent_B
              (fst (createCommit sha256_hex "scissors" salt_B)) 60)
         (fst (rpc (submit_commit 70000000 20 agent_A
                      (fst (createCommit sha256_hex "rock" salt_A)) 60)
                 duel))).

(** A stand-in for the digest in examples: the theorems about the reveal
    hold for whatever function the library computes. *)
Definition plain_digest (t : string) : string := t.

(** * Texts as JavaScript sees them *)

(** [t.length], the number of UTF-16 code units of a text.  A text is held
    as its UTF-8 bytes, which is what the store hashes and compares: a byte
    that continues a sequence (10xxxxxx) adds nothing, a byte that starts a
    four-byte sequence (11110xxx, a code point above U+FFFF and so a
    surrogate pair) adds two, and any other byte adds one. *)
Fixpoint js_length (t : string) : nat :=
  match t with
  | EmptyString => 0%nat
  | String c rest =>
      let b := Ascii.nat_of_ascii c in
      ((if Nat.leb 128 b && Nat.ltb b 192 then 0
        else if Nat.leb 240 b then 2
        else 1) + js_length rest)%nat
  end.

(** * The request handlers of a live match *)

Section Handlers.

Variable sha256_hex : string → string.

(** ** commit-move/index.ts *)

(** The body of the handler's response; [cr_reveal_deadline] is [None] when
    the field is left out. *)
Record CommitResponse : Type := mkCommitResponse {
  cr_status : Match.match_status;
  cr_you_committed : bool;
  cr_opponent_committed : bool;
  cr_reveal_deadline : option (option timestamptz)
}.

(** The handler after authentication and rate limiting.  [match_id] is
    [None] when the body has no usable match id, and [move_hash] is the
    body's field as parsed.  The call passes no p_reveal_seconds. *)
Definition commit_move (now : timestamptz) (agent_id : uuid)
    (match_id : option uuid) (move_hash : option json) (s : db)
    : db * res CommitResponse :=
  match match_id with
  | None => (s, Err "match_id is required")
  | Some id =>
      match move_hash with
      | Some (Jstring h) =>
          if negb (js_length h =? 64)%nat then
            (s, Err "move_hash must be a 64-character hex SHA-256 string")
          else
            match rpc (submit_commit now id agent_id h 60) s with
            | (s', Err e) => (s', Err e)
            | (s', Ok m) =>
                let isAgent1 := N.eqb (Match.agent1_id m) agent_id in
                (s', Ok (mkCommitResponse (Match.status m) true
                           (if isAgent1 then is_some (Match.agent2_move_hash m)
                            else is_some (Match.agent1_move_hash m))
                           (if Match.is_waiting_reveals m
                            then Some (Match.reveal_deadline m) else None)))
            end
      | _ => (s, Err "move_hash must be a 64-character hex SHA-256 string")
      end
  end.

(** ** reveal-move/index.ts *)

Inductive RevealResponse : Type :=
| WaitingForOpponent (status : Match.match_status) (your_move : Move)
| MatchResolved (your_move opponent_move : option Move) (outcome : string)
    (winner_id : option uuid) (wager_amount : Z).

(** [resolveMatch(supabase, match, triggeringAgentId)] for the row with key
    [id]; [m1] and [m2] are match.agent1_move and match.agent2_move, which
    the caller has found non-null, [now] is the time of the resolve_match
    call and [rand1], [rand2] the draws of the two executor calls. *)
Definition resolveMatch (now : timestamptz) (rand1 rand2 : float) (id : uuid)
    (match_ : Match.row) (m1 m2 : Move) (triggeringAgentId : uuid) (s : db)
    : db * res RevealResponse :=
  match agents s !! Match.agent1_id match_, agents s !! Match.agent2_id match_ with
  | Some agent1, Some agent2 =>
      let newState1 := advanceState s rand1 (Agent.strategy agent1)
                         (Agent.strategy_state agent1)
                         (Some (Match.agent1_id match_)) in
      let newState2 := advanceState s rand2 (Agent.strategy agent2)
                         (Agent.strategy_state agent2)
                         (Some (Match.agent2_id match_)) in
      match rpc (resolve_match now id (move_text m1) (move_text m2) false false
                   (jsonb_of_state newState1) (jsonb_of_state newState2)) s with
      | (s', Err e) => (s', Err e)
      | (s', Ok result) =>
          let youAreAgent1 := N.eqb (Match.agent1_id result) triggeringAgentId in
          let yourMove := if youAreAgent1 then Match.agent1_move result
                          else Match.agent2_move result in
          let opponentMove := if youAreAgent1 then Match.agent2_move result
                              else Match.agent1_move result in
          let outcome :=
            match Match.winner_id result with
            | None => "draw"
            | Some w => if N.eqb w triggeringAgentId then "win" else "loss"
            end in
          (s', Ok (MatchResolved yourMove opponentMove outcome
                     (Match.winner_id result) (Match.wager_amount result)))
      end
  | _, _ => (s, Err "Could not load agents for resolution")
  end.

(** The handler after authentication and rate limiting; [now] is the time
    of the submit_reveal call and [now'] that of the resolution. *)
Definition reveal_move (now now' : timestamptz) (rand1 rand2 : float)
    (agent_id : uuid) (match_id : option uuid) (move salt : option json)
    (s : db) : db * res RevealResponse :=
  match match_id with
  | None => (s, Err "match_id is required")
  | Some id =>
      match as_move move with
      | None => (s, Err "move must be rock, paper, or scissors")
      | Some mv =>
          match salt with
          | Some (Jstring salt) =>
              if (js_length salt <? 16)%nat then
                (s, Err "salt must be a string of at least 16 characters for cryptographic safety")
              else
                match rpc (submit_reveal sha256_hex now id agent_id
                             (move_text mv) salt) s with
                | (s1, Err e) => (s1, Err e)
                | (s1, Ok m) =>
                    match Match.agent1_move m, Match.agent2_move m with
                    | Some m1, Some m2 =>
                        resolveMatch now' rand1 rand2 id m m1 m2 agent_id s1
                    | _, _ =>
                        (s1, Ok (WaitingForOpponent (Match.status m) mv))
                    end
                end
          | _ =>
              (s, Err "salt must be a string of at least 16 characters for cryptographic safety")
          end
      end
  end.

(** ** The calls that change the store *)

Inductive action : Type :=
| PostChallenge (agent_id : uuid) (wager : Z) (new_id : uuid)
| CancelChallenge (challenge_id agent_id : uuid)
| AcceptChallenge (now : timestamptz) (new_id challenge_id agent_id : uuid)
    (strategy_seconds commit_seconds : float)
| SetStrategy (agent_id : uuid) (strategy : option json)
| CommitMove (now : timestamptz) (agent_id : uuid) (match_id : option uuid)
    (move_hash : option json)
| RevealMove (now now' : timestamptz) (rand1 rand2 : float) (agent_id : uuid)
    (match_id : option uuid) (move salt : option json)
| ProcessStale (now : timestamptz) (rand1 rand2 : float) (id : uuid)
    (row : Match.row).

(** The store after one call, whatever the call answered. *)
Definition run (a : action) (s : db) : db :=
  match a with
  | PostChallenge agent_id wager new_id =>
      fst (post_challenge agent_id wager new_id s)
  | CancelChallenge challenge_id agent_id =>
      fst (rpc (cancel_challenge challenge_id agent_id) s)
  | AcceptChallenge now new_id challenge_id agent_id ss cs =>
      fst (accept_challenge now new_id challenge_id agent_id ss cs s)
  | SetStrategy agent_id strategy => fst (set_strategy agent_id strategy s)
  | CommitMove now agent_id match_id move_hash =>
      fst (commit_move now agent_id match_id move_hash s)
  | RevealMove now now' rand1 rand2 agent_id match_id move salt =>
      fst (reveal_move now now' rand1 rand2 agent_id match_id move salt s)
  | ProcessStale now rand1 rand2 id row =>
      fst (processMatch now rand1 rand2 id row s)
  end.

Definition run_all (acts : list action) (s : db) : db :=
  foldl (fun st a => run a st) s acts.

End Handlers.

(** ** Chips in play *)

Definition sum_of {A} (f : A → Z) (t : gmap N A) : Z :=
  map_fold (fun _ x acc => f x + acc) 0 t.

Definition total_balance (s : db) : Z := sum_of Agent.balance (agents s).

(** What the store holds in escrow: the wager of an open challenge, and
    both wagers of a match that is not yet complete. *)
Definition challenge_escrow (c : Challenge.row) : Z :=
  if Challenge.is_open c then Challenge.wager_amount c else 0.

Definition match_escrow (m : Match.row) : Z :=
  if Match.is_complete m then 0 else 2 * Match.wager_amount m.

Definition chips (s : db) : Z :=
  total_balance s
  + sum_of challenge_escrow (challenges s)
  + sum_of match_escrow (matches s).

(** The constraints of the schema the settlement relies on: balances are
    non-negative INTEGERs, and the two sides of a match are different,
    existing agents. *)
Definition constraints_hold (s : db) : Prop :=
  (∀ a r, agents s !! a = Some r → 0 <= Agent.balance r <= INT4_MAX)
  ∧ (∀ id m, matches s !! id = Some m →
       Match.agent1_id m ≠ Match.agent2_id m
       ∧ is_Some (agents s !! Match.agent1_id m)
       ∧ is_Some (agents s !! Match.agent2_id m)).

(** A SET list that leaves the two sides and the wager of a match alone. *)
Definition keeps_parties (set : Match.row → Match.row) : Prop :=
  ∀ m, Match.agent1_id (set m) = Match.agent1_id m
       ∧ Match.agent2_id (set m) = Match.agent2_id m
       ∧ Match.wager_amount (set m) = Match.wager_amount m.

(** *** A fourth scenario: a live match

    A stand-in digest of 64 characters for the examples (the theorems hold
    for whatever function the library computes): the text, padded with
    zeros and cut to 64 characters. *)
Definition padded_digest (t : string) : string :=
  String.substring 0 64
    (t ++ "0000000000000000000000000000000000000000000000000000000000000000")%string.

(** A posts a wager of 50 and B accepts at time 0 with the default windows;
    A commits to rock at 70 s and B to scissors at 80 s; A reveals at 90 s
    and B at 95 s. *)
Definition live_match : list action :=
  [PostChallenge agent_A 50 10;
   AcceptChallenge 0 20 10 agent_B PrimFloat.nan PrimFloat.nan;
   CommitMove 70000000 agent_A (Some 20%N)
     (Some (Jstring (padded_digest ("rock" ++ salt_A)%string)));
   CommitMove 80000000 agent_B (Some 20%N)
     (Some (Jstring (padded_digest ("scissors" ++ salt_B)%string)));
   RevealMove 90000000 90000001 0 0 agent_A (Some 20%N)
     (Some (Jstring "rock")) (Some (Jstring salt_A));
   RevealMove 95000000 95000001 0 0 agent_B (Some 20%N)
     (Some (Jstring "scissors")) (Some (Jstring salt_B))].

(** The other side of a match as a participant sees it, agent1 first as in
    the handlers. *)
Definition opponent_of (m : Match.row) (agent : uuid) : uuid :=
  if N.eqb agent (Match.agent1_id m) then Match.agent2_id m
  else Match.agent1_id m.

Definition opponent_hash (m : Match.row) (agent : uuid) : option string :=
  if N.eqb agent (Match.agent1_id m) then Match.agent2_move_hash m
  else Match.agent1_move_hash m.

Definition opponent_move (m : Match.row) (agent : uuid) : option Move :=
  if N.eqb agent (Match.agent1_id m) then Match.agent2_move m
  else Match.agent1_move m.

(** What a settlement pays to a side with the given outcome. *)
Definition payout (w : Z) (o : outcome) : Z :=
  match o with
  | Won => 2 * w
  | Drew => w
  | Lost => 0
  end.

Definition outcome_text (o : outcome) : string :=
  match o with
  | Won => "win"
  | Lost => "loss"
  | Drew => "draw"
  end.

(** The row of the match in the third scenario, and the store and the row
    once A has revealed rock at 90 s. *)
Definition reveal_row : Match.row :=
  Match.mk 10 agent_A agent_B 50 Match.waiting_reveals Match.strategy
    (Some 60000000) 120000000
    (Some (plain_digest ("rock" ++ salt_A)%string))
    (Some (plain_digest ("scissors" ++ salt_B)%string))
    (Some 140000000)
    None None None None false false
    (Always rock) (Always scissors) None 0 None.

Definition reveal_stage_A : db :=
  fst (reveal_move plain_digest 90000000 90000001 0 0 agent_A (Some 20%N)
         (Some (Jstring "rock")) (Some (Jstring salt_A))
         (reveal_stage plain_digest)).

Definition reveal_row_A : Match.row := Match.set_agent1_reveal rock salt_A reveal_row.

(** ** Calls that come after the reaper has read the view *)

(** The commit or reveal transaction of the call does not start before
    [t0]; the other calls carry no time that a match row is compared with. *)
Definition not_before (t0 : timestamptz) (a : action) : Prop :=
  match a with
  | CommitMove now _ _ _ => t0 <= now
  | RevealMove now _ _ _ _ _ _ _ => t0 <= now
  | _ => True
  end.

(** Outside the row [id'] the matches are the same. *)
Definition same_elsewhere (id' : uuid) (s s' : db) : Prop :=
  ∀ k, k ≠ id' → matches s' !! k = matches s !! k.

(** ** What may happen to a match row

    [row_evolves m m']: the identity of the match ([m] and [m'] have the
    same challenge, sides, wager, strategy snapshots, creation time and
    commit window), a complete row is final, a stored commit hash stays,
    the status never steps back to pending, and the phase keeps agreeing
    with the status if it did. *)
Definition phase_agrees (m : Match.row) : Prop :=
  Match.phase m = Match.finished ↔ Match.status m = Match.complete.

Definition row_evolves (m m' : Match.row) : Prop :=
  Match.challenge_id m' = Match.challenge_id m
  ∧ Match.agent1_id m' = Match.agent1_id m
  ∧ Match.agent2_id m' = Match.agent2_id m
  ∧ Match.wager_amount m' = Match.wager_amount m
  ∧ Match.agent1_strategy m' = Match.agent1_strategy m
  ∧ Match.agent2_strategy m' = Match.agent2_strategy m
  ∧ Match.created_at m' = Match.created_at m
  ∧ Match.strategy_deadline m' = Match.strategy_deadline m
  ∧ Match.commit_deadline m' = Match.commit_deadline m
  ∧ (Match.status m = Match.complete → m' = m)
  ∧ (∀ h, Match.agent1_move_hash m = Some h → Match.agent1_move_hash m' = Some h)
  ∧ (∀ h, Match.agent2_move_hash m = Some h → Match.agent2_move_hash m' = Some h)
  ∧ (Match.status m' = Match.pending → Match.status m = Match.pending)
  ∧ (phase_agrees m → phase_agrees m').

(** [store_evolves s s']: every match row of [s] is still there and has
    evolved, a row that is new in [s'] has a phase that agrees with its
    status, and every challenge of [s] is still there with its challenger
    and wager, unchanged altogether unless it was open. *)
Definition store_evolves (s s' : db) : Prop :=
  (∀ id m, matches s !! id = Some m →
           ∃ m', matches s' !! id = Some m' ∧ row_evolves m m')
  ∧ (∀ id m', matches s' !! id = Some m' → matches s !! id = None →
              phase_agrees m')
  ∧ (∀ cid c, challenges s !! cid = Some c →
              ∃ c', challenges s' !! cid = Some c'
                    ∧ Challenge.challenger_id c' = Challenge.challenger_id c
                    ∧ Challenge.wager_amount c' = Challenge.wager_amount c
                    ∧ (Challenge.status c ≠ Challenge.open → c' = c)).

(** The store once the live match of the fourth scenario has been played. *)
Definition arena_played : db := run_all padded_digest live_match arena.

(** The store once both agents of the fourth scenario have committed: the
    match waits for the reveals until 140 s. *)
Definition arena_committed : db :=
  run_all padded_digest (firstn 4 live_match) arena.

(** ** Successive fallbacks *)

(** The moves of successive fallbacks of one agent with the draws [rands]:
    every resolution stores the executor's new state on the agent's row
    (as the JSON body carries it), and the next one starts from it.  The
    store is read by counter_last_loss only. *)
Fixpoint fallback_run (s : db) (strategy : Strategy) (agentId : option uuid)
    (state : gmap string jsval) (rands : list float) : list (option Move) :=
  match rands with
  | [] => []
  | rand :: rest =>
      let r := computeMove s rand strategy state agentId in
      move r :: fallback_run s strategy agentId (jsonb_of_state (newState r)) rest
  end.

(** What validateStrategy promises about the typed strategy. *)
Definition valid_shape (st : Strategy) : Prop :=
  match st with
  | Cycle sequence => (1 <= length sequence <= 20)%nat
  | Weighted w_rock w_paper w_scissors =>
      PrimFloat.ltb
        (PrimFloat.abs (PrimFloat.sub (weight_sum w_rock w_paper w_scissors) 1))
        0.001 = true
  | _ => True
  end.

(** A strategy that draws no random move. *)
Definition draws_random (st : Strategy) : bool :=
  match st with
  | Random | CounterLastLoss => true
  | _ => false
  end.

(** The wire object [{type: 'cycle', sequence: ['rock', 'paper']}]. *)
Definition cycle_rock_paper : json :=
  Jobject [("type", Jstring "cycle");
           ("sequence", Jarray [Jstring "rock"; Jstring "paper"])].

(** ** Rate limiting *)

Module RateLimit.
(** A row of rate_limits.  The generated id is read by no statement. *)
Record row : Type := mk {
    key : string;
    created_at : timestamptz
  }.
End RateLimit.

(** The WHERE clause of check_rate_limit's count. *)
Definition in_window (now : timestamptz) (p_key : string) (p_window_secs : Z)
    (r : RateLimit.row) : bool :=
  String.eqb (RateLimit.key r) p_key
  && (now - seconds p_window_secs <? RateLimit.created_at r).

(** [check_rate_limit(p_key, p_window_secs, p_max_reqs)] in a transaction
    whose now() is [now]; v_count is an INTEGER. *)
Definition check_rate_limit (now : timestamptz) (p_key : string)
    (p_window_secs p_max_reqs : Z) (t : list RateLimit.row)
    : res (list RateLimit.row * bool) :=
  v_count ← int4 (Z.of_nat (length (List.filter
                                      (in_window now p_key p_window_secs) t)));
  if p_max_reqs <=? v_count then Ok (t, false)
  else Ok (RateLimit.mk p_key now :: t, true).

(** The two statements of check_rate_limit apart: the count, on the rows
    [seen] by the SELECT, and the test with the INSERT, on the table [t] as
    it is by then. *)
Definition rate_limit_count (now : timestamptz) (p_key : string)
    (p_window_secs : Z) (seen : list RateLimit.row) : res Z :=
  int4 (Z.of_nat (length (List.filter (in_window now p_key p_window_secs)
                            seen))).

Definition rate_limit_insert (now : timestamptz) (p_key : string)
    (p_max_reqs v_count : Z) (t : list RateLimit.row)
    : list RateLimit.row * bool :=
  if p_max_reqs <=? v_count then (t, false)
  else (RateLimit.mk p_key now :: t, true).

(** The rows clean_rate_limits() leaves. *)
Definition kept (now : timestamptz) (r : RateLimit.row) : bool :=
  negb (RateLimit.created_at r <? now - seconds 600).

Definition clean_rate_limits (now : timestamptz) (t : list RateLimit.row)
    : list RateLimit.row :=
  List.filter (kept now) t.

(** [rateLimit(key, windowSecs, maxReqs)] with integer arguments: [None] for
    null (the request goes on), [Some 429] for the error response.  A failed
    rpc, here an argument or a count that is no INTEGER, lets the request
    through. *)
Definition rateLimit (now : timestamptz) (key : string) (windowSecs maxReqs : Z)
    (t : list RateLimit.row) : list RateLimit.row * option Z :=
  match (w ← int4 windowSecs; m ← int4 maxReqs;
         check_rate_limit now key w m t) : res (list RateLimit.row * bool) with
  | Err _ => (t, None)
  | Ok (t', allowed) => (t', if allowed then None else Some 429)
  end.

(** What reaches the rate_limits table: the rateLimit call of a handler, or
    a run of clean_rate_limits(). *)
Inductive limiter_event : Type :=
| Limit (now : timestamptz) (key : string) (windowSecs maxReqs : Z)
| Cleanup (now : timestamptz).

Definition event_time (e : limiter_event) : timestamptz :=
  match e with
  | Limit now _ _ _ => now
  | Cleanup now => now
  end.

Definition is_limit (e : limiter_event) : bool :=
  match e with
  | Limit _ _ _ _ => true
  | Cleanup _ => false
  end.

(** A rateLimit call as the caller saw it. *)
Record served : Type := mkServed {
  sv_at : timestamptz;
  sv_key : string;
  sv_passed : bool
}.

(** The events in order; the log lists the rateLimit calls, first call
    first. *)
Fixpoint serve (es : list limiter_event) (t : list RateLimit.row)
    : list RateLimit.row * list served :=
  match es with
  | [] => (t, [])
  | Limit now key windowSecs maxReqs :: rest =>
      let '(t', r) := rateLimit now key windowSecs maxReqs t in
      let '(t'', log) := serve rest t' in
      (t'', mkServed now key (negb (is_some r)) :: log)
  | Cleanup now :: rest => serve rest (clean_rate_limits now t)
  end.

(** The calls under [key] that went through in the [w] seconds up to [t]. *)
Definition passed_in (t : timestamptz) (key : string) (w : Z) (e : served)
    : bool :=
  sv_passed e && String.eqb (sv_key e) key
  && (t - seconds w <? sv_at e) && (sv_at e <=? t).

Definition passed_within (t : timestamptz) (key : string) (w : Z)
    (log : list served) : nat :=
  length (List.filter (passed_in t key w) log).

(** The events come with a clock that never runs backwards, from [t0] on. *)
Fixpoint in_order (t0 : timestamptz) (es : list limiter_event) : Prop :=
  match es with
  | [] => True
  | e :: rest => t0 <= event_time e ∧ in_order (event_time e) rest
  end.

(** Every call under [key] asks for the same window and maximum. *)
Definition limited_by (key : string) (w m : Z) (e : limiter_event) : Prop :=
  match e with
  | Limit _ key' w' m' => key' = key → w' = w ∧ m' = m
  | Cleanup _ => True
  end.

(** The window of a call is at most clean_rate_limits' ten minutes. *)
Definition short_window (e : limiter_event) : Prop :=
  match e with
  | Limit _ _ w _ => w <= 600
  | Cleanup _ => True
  end.

(** register/index.ts: five registrations per address in ten minutes. *)
Definition register_limit (now : timestamptz) (ip : string) : limiter_event :=
  Limit now ("register:" ++ ip) 600 5.

(** Two tables that hold the same rows of the last ten minutes. *)
Definition same_recent (tl : timestamptz) (t1 t2 : list RateLimit.row) : Prop :=
  List.filter (kept tl) t1 = List.filter (kept tl) t2.

(** The rows, and the passed calls, under [key] later than [L]. *)
Definition row_after (key : string) (L : timestamptz) (r : RateLimit.row)
    : bool :=
  String.eqb (RateLimit.key r) key && (L <? RateLimit.created_at r).

Definition pass_after (key : string) (L : timestamptz) (e : served) : bool :=
  sv_passed e && String.eqb (sv_key e) key && (L <? sv_at e).

(** What the table and the log have to do with each other at time [tl]:
    no call is later than [tl], the rows of the last ten minutes are the
    calls that passed, and no window holds more than [m] of them. *)
Definition in_step (key : string) (w m : Z) (tl : timestamptz)
    (t : list RateLimit.row) (log : list served) : Prop :=
  Forall (fun e => sv_at e <= tl) log
  ∧ (∀ L, tl - seconds 600 <= L →
          length (List.filter (row_after key L) t)
          = length (List.filter (pass_after key L) log))
  ∧ (∀ t', Z.of_nat (passed_within t' key w log) <= m).

(** Six registrations from one address within ten minutes, a cleanup in
    between. *)
Definition register_burst : list limiter_event :=
  [register_limit 0 "10.0.0.7";
   register_limit 60000000 "10.0.0.7";
   register_limit 120000000 "10.0.0.7";
   Cleanup 150000000;
   register_limit 180000000 "10.0.0.7";
   register_limit 240000000 "10.0.0.7";
   Cleanup 590000000;
   register_limit 599000000 "10.0.0.7"].

(** ** get-match/index.ts *)

Section GetMatch.

(** The name column of agents, which no statement modelled so far reads. *)
Variable agent_name : uuid → string.

(** A row of the match_feed view, with the columns getOpponentHistory
    selects. *)
Record FeedRow : Type := mkFeedRow {
  fr_agent1_id : uuid;
  fr_agent2_id : uuid;
  fr_agent1_name : string;
  fr_agent2_name : string;
  fr_agent1_move : option Move;
  fr_agent2_move : option Move;
  fr_winner_id : option uuid;
  fr_wager_amount : Z;
  fr_completed_at : option timestamptz
}.

(** The row of match_feed a match gives: none unless it is complete and
    both JOINs find their agent; the LEFT JOIN leaves the winner NULL when
    it finds none. *)
Definition feed_row (s : db) (m : Match.row) : option FeedRow :=
  if Match.is_complete m
     && is_some (agents s !! Match.agent1_id m)
     && is_some (agents s !! Match.agent2_id m)
  then Some (mkFeedRow (Match.agent1_id m) (Match.agent2_id m)
               (agent_name (Match.agent1_id m)) (agent_name (Match.agent2_id m))
               (Match.agent1_move m) (Match.agent2_move m)
               (match Match.winner_id m with
                | Some w => if is_some (agents s !! w) then Some w else None
                | None => None
                end)
               (Match.wager_amount m) (Match.completed_at m))
  else None.

(** The rows of match_feed.  A query that reads the view orders them
    itself. *)
Definition match_feed (s : db) : list FeedRow :=
  omap (fun '(_, m) => feed_row s m) (map_to_list (matches s)).

(** ORDER BY completed_at DESC.  Rows with equal completion times are in no
    specified order; the model keeps them in the order of the input. *)
Fixpoint insert_by_completed (x : FeedRow) (l : list FeedRow) : list FeedRow :=
  match l with
  | [] => [x]
  | y :: rest =>
      if sorts_before (fr_completed_at x) (fr_completed_at y) then x :: l
      else y :: insert_by_completed x rest
  end.

Definition order_by_completed_desc (l : list FeedRow) : list FeedRow :=
  foldr insert_by_completed [] l.

Record RecentMatch : Type := mkRecentMatch {
  rm_vs : string;
  rm_their_move : option Move;
  rm_vs_move : option Move;
  rm_result : string;
  rm_wager : Z;
  rm_completed_at : option timestamptz
}.

Record OpponentHistory : Type := mkOpponentHistory {
  opponent_name : string;
  total_reviewed : nat;
  recent_matches : list RecentMatch
}.

Definition recent_match (opponentId : uuid) (m : FeedRow) : RecentMatch :=
  let isAgent1 := N.eqb (fr_agent1_id m) opponentId in
  mkRecentMatch
    (if isAgent1 then fr_agent2_name m else fr_agent1_name m)
    (if isAgent1 then fr_agent1_move m else fr_agent2_move m)
    (if isAgent1 then fr_agent2_move m else fr_agent1_move m)
    (match fr_winner_id m with
     | Some w => if N.eqb w opponentId then "win" else "loss"
     | None => "draw"
     end)
    (fr_wager_amount m) (fr_completed_at m).

(** [getOpponentHistory(supabase, opponentId, opponentName)]. *)
Definition getOpponentHistory (s : db) (opponentId : uuid)
    (opponentName : string) : OpponentHistory :=
  let data :=
    take 20
      (order_by_completed_desc
         (List.filter (fun m => N.eqb (fr_agent1_id m) opponentId
                                || N.eqb (fr_agent2_id m) opponentId)
            (match_feed s))) in
  let recent_matches := map (recent_match opponentId) data in
  mkOpponentHistory opponentName (length recent_matches) recent_matches.

(** The sanitised object of an in-progress match. *)
Record SanitisedMatch : Type := mkSanitisedMatch {
  sm_id : uuid;
  sm_phase : Match.match_phase;
  sm_status : Match.match_status;
  sm_wager_amount : Z;
  sm_strategy_deadline : option timestamptz;
  sm_commit_deadline : timestamptz;
  sm_reveal_deadline : option timestamptz;
  sm_created_at : timestamptz;
  sm_your_role : string;
  sm_your_move_hash : option string;
  sm_your_move : option Move;
  sm_opponent_committed : bool;
  sm_opponent_revealed : bool;
  sm_opponent_history : option OpponentHistory
}.

Inductive GetMatchResponse : Type :=
| FullMatch (id : uuid) (m : Match.row)
| Sanitised (v : SanitisedMatch).

(** The handler of a GET request.  [agent] is the agent verifyAgentKey
    finds, if any, and [matchId] is [None] when the path ends in an empty
    segment. *)
Definition get_match (agent : option uuid) (matchId : option uuid) (s : db)
    : res GetMatchResponse :=
  match matchId with
  | None => Err "match_id is required in the URL path"
  | Some id =>
      match matches s !! id with
      | None => Err "Match not found"
      | Some m =>
          match Match.phase m with
          | Match.finished => Ok (FullMatch id m)
          | Match.strategy =>
              match agent with
              | None => Err "Authentication required for in-progress matches"
              | Some agent_id =>
                  let isAgent1 := N.eqb (Match.agent1_id m) agent_id in
                  let isAgent2 := N.eqb (Match.agent2_id m) agent_id in
                  if negb isAgent1 && negb isAgent2 then
                    Err "You are not a participant in this match"
                  else
                    let opponentId :=
                      if isAgent1 then Match.agent2_id m
                      else Match.agent1_id m in
                    let opponentName :=
                      match agents s !! opponentId with
                      | Some _ => Some (agent_name opponentId)
                      | None => None
                      end in
                    let opponentHistory :=
                      match opponentName with
                      | Some n =>
                          if String.eqb n EmptyString then None
                          else Some (getOpponentHistory s opponentId n)
                      | None => None
                      end in
                    Ok (Sanitised
                          (mkSanitisedMatch id (Match.phase m) (Match.status m)
                             (Match.wager_amount m)
                             (Match.strategy_deadline m)
                             (Match.commit_deadline m)
                             (Match.reveal_deadline m)
                             (Match.created_at m)
                             (if isAgent1 then "agent1" else "agent2")
                             (if isAgent1 then Match.agent1_move_hash m
                              else Match.agent2_move_hash m)
                             (if isAgent1 then Match.agent1_move m
                              else Match.agent2_move m)
                             (if isAgent1 then is_some (Match.agent2_move_hash m)
                              else is_some (Match.agent1_move_hash m))
                             (if isAgent1 then is_some (Match.agent2_move m)
                              else is_some (Match.agent1_move m))
                             opponentHistory))
              end
          end
      end
  end.

End GetMatch.

(** What a row keeps of the side that is not [agent]'s: whether a hash and
    a move are stored, and nothing of the hash, the move, the salt, the
    strategy snapshot or the fallback flag. *)
Definition hide_opponent (agent : uuid) (m : Match.row) : Match.row :=
  if N.eqb (Match.agent1_id m) agent then
    Match.mk (Match.challenge_id m) (Match.agent1_id m) (Match.agent2_id m)
      (Match.wager_amount m) (Match.status m) (Match.phase m)
      (Match.strategy_deadline m) (Match.commit_deadline m)
      (Match.agent1_move_hash m)
      ((fun _ => EmptyString) <$> Match.agent2_move_hash m)
      (Match.reveal_deadline m)
      (Match.agent1_move m) (Match.agent1_salt m)
      ((fun _ => rock) <$> Match.agent2_move m) None
      (Match.agent1_used_fallback m) false
      (Match.agent1_strategy m) Random
      (Match.winner_id m) (Match.created_at m) (Match.completed_at m)
  else
    Match.mk (Match.challenge_id m) (Match.agent1_id m) (Match.agent2_id m)
      (Match.wager_amount m) (Match.status m) (Match.phase m)
      (Match.strategy_deadline m) (Match.commit_deadline m)
      ((fun _ => EmptyString) <$> Match.agent1_move_hash m)
      (Match.agent2_move_hash m)
      (Match.reveal_deadline m)
      ((fun _ => rock) <$> Match.agent1_move m) None
      (Match.agent2_move m) (Match.agent2_salt m)
      false (Match.agent2_used_fallback m)
      Random (Match.agent2_strategy m)
      (Match.winner_id m) (Match.created_at m) (Match.completed_at m).

(** The store with the row of match [id] replaced. *)
Definition with_match (id : uuid) (m : Match.row) (s : db) : db :=
  with_matches (<[id := m]> (matches s)) s.

(** The names of the two agents of the scenarios. *)
Definition scenario_name (a : uuid) : string :=
  if N.eqb a agent_A then "alpha" else "bravo".

(** The row of the third scenario with another commit of B's. *)
Definition reveal_row_other : Match.row :=
  Match.set_agent2_move_hash
    "2c26b46b68ffc68ff99b453c1d30413413422d706483bfa0f98a5e886266e7ae"
    reveal_row.

(** ** The same rule elsewhere *)

(** scripts/simulate.ts: the outcome the simulator reports for a match it
    has played, from the moves its two clients committed. *)
Module Simulate.
Inductive MatchOutcome : Type := challenger_wins | accepter_wins | draw | error.

Definition resolveOutcome (c a : Move) : MatchOutcome :=
  if bool_decide (c = a) then draw
  else
    match c, a with
    | rock, scissors | scissors, paper | paper, rock => challenger_wins
    | _, _ => accepter_wins
    end.
End Simulate.

(** The browser game: [winner(player, cpu)] on any two strings. *)
Definition winner (player cpu : string) : string :=
  if String.eqb player cpu then "draw"
  else if (String.eqb player "rock" && String.eqb cpu "scissors")
          || (String.eqb player "paper" && String.eqb cpu "rock")
          || (String.eqb player "scissors" && String.eqb cpu "paper")
  then "win"
  else "loss".

(** ** The sweep (process-stale-matches/index.ts) *)

(** The body of the sweep's response: [{processed: 0}] has no results. *)
Record SweepResponse : Type := mkSweepResponse {
  processed : nat;
  results : option (list (uuid * res ProcessResult))
}.

(** The loop over the rows of the view.  [calls] gives, for each match, the
    time of its resolve_match transaction and the draws of its two executor
    calls; a thrown Error is recorded and the loop goes on. *)
Fixpoint sweep_loop (calls : uuid → timestamptz * float * float)
    (stale : list (uuid * Match.row)) (s : db)
    : db * list (uuid * res ProcessResult) :=
  match stale with
  | [] => (s, [])
  | (id, match_) :: rest =>
      let '(now, rand1, rand2) := calls id in
      let '(s1, r) := processMatch now rand1 rand2 id match_ s in
      let '(s2, rs) := sweep_loop calls rest s1 in
      (s2, (id, r) :: rs)
  end.

(** The handler; [now] is the time of the query on stale_matches. *)
Definition process_stale_matches (now : timestamptz)
    (calls : uuid → timestamptz * float * float) (s : db)
    : db * SweepResponse :=
  match stale_matches now s with
  | [] => (s, mkSweepResponse 0 None)
  | stale =>
      let '(s', rs) := sweep_loop calls stale s in
      (s', mkSweepResponse (length rs) (Some rs))
  end.

(** The entries of a response. *)
Definition reported (r : SweepResponse) : list (uuid * res ProcessResult) :=
  match results r with
  | Some rs => rs
  | None => []
  end.

(** A sweep at 130 s whose one transaction starts a second later. *)
Definition sweep_calls (id : uuid) : timestamptz * float * float :=
  (131000000, 0%float, 0%float).

(** * Properties *)

(** ** The strategy executor *)

Lemma move_of_text_text (m : Move) : move_of_text (move_text m) = Some m.
Proof. destruct m; reflexivity. Qed.

Lemma state_index_absent (state : gmap string jsval) :
  state !! "index" = None → state_index state = Some 0.
Proof. intros H. unfold state_index. rewrite H. reflexivity. Qed.

(** Integers of size up to 2^53 are binary64 numbers. *)
Lemma binary64_of_Z_exact (z : Z) :
  - 2 ^ 53 <= z <= 2 ^ 53 → binary64_of_Z z = Some z.
Proof.
  intros Hz.
  destruct (Z.eq_dec z (2 ^ 53)) as [-> | Hhi]; [vm_compute; reflexivity |].
  destruct (Z.eq_dec z (- 2 ^ 53)) as [-> | Hlo]; [vm_compute; reflexivity |].
  unfold binary64_of_Z.
  destruct (Z.ltb_spec (Z.abs z) (2 ^ 53)) as [_ | Hge]; [reflexivity | lia].
Qed.

(** The rounding is the kernel's: on integers around and beyond 2^53 it
    agrees with the conversion of a 63-bit integer to a binary64 float. *)
Example binary64_of_Z_agrees :
  Forall (fun z => integer_value (PrimFloat.of_uint63 (Uint63.of_Z z))
                   = binary64_of_Z z)
    [0; 19; 2 ^ 53 - 1; 2 ^ 53; 2 ^ 53 + 1; 2 ^ 53 + 2; 2 ^ 53 + 3;
     2 ^ 54 + 1; 2 ^ 54 + 2; 2 ^ 54 + 3; 2 ^ 54 + 6; 2 ^ 60 + 129;
     2 ^ 62 + 511; 2 ^ 62 + 512; 2 ^ 62 + 1536; 2 ^ 63 - 1].
Proof. repeat constructor. Qed.

Lemma state_index_number (state : gmap string jsval) (i : Z) :
  state !! "index" = Some (JNum i) → - 2 ^ 53 <= i <= 2 ^ 53 →
  state_index state = Some i.
Proof.
  intros H Hi. unfold state_index. rewrite H. by apply binary64_of_Z_exact.
Qed.

(** A cursor below the length stays below the length. *)
Lemma cycle_cursor_in_range (s : db) (rand : float) (sequence : list Move)
    (state : gmap string jsval) (agentId : option uuid) (i : Z) :
  sequence ≠ [] → 0 <= i < 2 ^ 53 → state_index state = Some i →
  ∃ j, newState (computeMove s rand (Cycle sequence) state agentId)
         = {[ "index" := JNum j ]}
       ∧ 0 <= j < Z.of_nat (length sequence).
Proof.
  intros Hne Hi Hidx.
  assert (Hlen : 0 < Z.of_nat (length sequence))
    by (destruct sequence; [done | simpl; lia]).
  exists ((i + 1) mod Z.of_nat (length sequence)). split.
  - simpl. rewrite Hidx. unfold js_succ.
    rewrite binary64_of_Z_exact by lia. unfold js_rem, js_number.
    destruct (Z.eqb_spec (Z.of_nat (length sequence)) 0); [lia |].
    rewrite Z.rem_mod_nonneg by lia. reflexivity.
  - apply Z.mod_pos_bound, Hlen.
Qed.

(** Outside the non-negative cursors the executor has no move to give. *)
Example cycle_negative_index :
  move (computeMove (mkDb ∅ ∅ ∅ []) 0 (Cycle [rock; paper; scissors])
          {[ "index" := JNum (-1) ]} None) = None.
Proof. reflexivity. Qed.

(** C7 as stated fails at both ends of the integers.  At index -1 the claim
    gives sequence[(-1) mod 3], scissors, where [%] keeps the sign of the
    index and the array has no element at -1; at index 2^53 the claim gives
    the new index (2^53 + 1) mod 3 = 0, where the sum is rounded to 2^53 and
    the new index is 2. *)
Lemma cycle_index_counterexample :
  [rock; paper; scissors] !! Z.to_nat ((-1) mod 3) = Some scissors
  ∧ move (computeMove (mkDb ∅ ∅ ∅ []) 0 (Cycle [rock; paper; scissors])
            {[ "index" := JNum (-1) ]} None) = None
  ∧ (2 ^ 53 + 1) mod 3 = 0
  ∧ newState (computeMove (mkDb ∅ ∅ ∅ []) 0 (Cycle [rock; paper; scissors])
                {[ "index" := JNum (2 ^ 53) ]} None)
    = {[ "index" := JNum 2 ]}.
Proof. repeat split; vm_compute; reflexivity. Qed.

(** C7, amended.  For a cycle strategy with a non-empty sequence and a
    state whose index is an integer [i] with 0 <= i < 2^53 (or absent, read
    as 0), computeMove returns sequence[i mod len], which exists, and the
    new state {index: (i + 1) mod len}; so cycle([rock, paper, scissors])
    from index 0 plays rock, paper, scissors and then rock again over
    successive advances. *)
Theorem computeMove_cycle (s : db) (rand : float) (sequence : list Move)
    (state : gmap string jsval) (agentId : option uuid) (i : Z) :
  sequence ≠ [] →
  0 <= i < 2 ^ 53 →
  state !! "index" = Some (JNum i) ∨ (state !! "index" = None ∧ i = 0) →
  let len := Z.of_nat (length sequence) in
  computeMove s rand (Cycle sequence) state agentId
    = mkMoveResult (sequence !! Z.to_nat (i mod len))
                   {[ "index" := JNum ((i + 1) mod len) ]}
  ∧ is_Some (sequence !! Z.to_nat (i mod len))
  ∧ successive_moves s (Cycle [rock; paper; scissors])
      {[ "index" := JNum 0 ]} 4
    = [Some rock; Some paper; Some scissors; Some rock].
Proof.
  intros Hne Hi Hst len.
  assert (Hlen : 0 < len) by (subst len; destruct sequence; [done | simpl; lia]).
  assert (Hidx : state_index state = Some i).
  { destruct Hst as [H | [H ->]].
    - apply state_index_number; [exact H | lia].
    - by apply state_index_absent. }
  pose proof (Z.mod_pos_bound i len Hlen) as Hb.
  split; [| split].
  - unfold computeMove. rewrite Hidx. unfold js_succ.
    rewrite binary64_of_Z_exact by lia.
    unfold js_rem, js_elem, js_number. fold len.
    destruct (Z.eqb_spec len 0); [lia |].
    rewrite !Z.rem_mod_nonneg by lia.
    destruct (Z.ltb_spec (i mod len) 0); [lia |].
    reflexivity.
  - apply lookup_lt_is_Some. subst len. lia.
  - reflexivity.
Qed.

Lemma computeMove_cycle_witness :
  computeMove (mkDb ∅ ∅ ∅ []) 0 (Cycle [paper; rock; scissors])
    {[ "index" := JNum 2 ]} None
  = mkMoveResult (Some scissors) {[ "index" := JNum 0 ]}.
Proof.
  refine (proj1 (computeMove_cycle (mkDb ∅ ∅ ∅ []) 0 [paper; rock; scissors]
                   {[ "index" := JNum 2 ]} None 2 _ _ _)).
  - discriminate.
  - lia.
  - left. reflexivity.
Defined.

(** ** Strategy validation *)

Lemma validateStrategy_weighted_config (w_rock w_paper w_scissors : float) :
  validateStrategy (weighted_config w_rock w_paper w_scissors)
  = PrimFloat.ltb
      (PrimFloat.abs (PrimFloat.sub (weight_sum w_rock w_paper w_scissors) 1))
      0.001.
Proof. reflexivity. Qed.

(** C8 as stated fails: the weights 0.5, 0.25, 0.252 sum to 1.002, inside a
    tolerance of 0.005, and the configuration is refused. *)
Lemma weighted_tolerance_counterexample :
  sums_to_one_within 0.005 0.5 0.25 0.252 = true
  ∧ validateStrategy (weighted_config 0.5 0.25 0.252) = false.
Proof. split; vm_compute; reflexivity. Qed.

(** C8, amended.  A weighted configuration is accepted exactly when rock,
    paper and scissors are three numbers whose sum, as JavaScript adds
    them, differs from 1.0 by strictly less than 0.001. *)
Theorem validateStrategy_weighted (fields : list (string * json)) :
  get "type" fields = Some (Jstring "weighted") →
  validateStrategy (Jobject fields) = true
  ↔ ∃ w_rock w_paper w_scissors,
      get "rock" fields = Some (Jnumber w_rock)
      ∧ get "paper" fields = Some (Jnumber w_paper)
      ∧ get "scissors" fields = Some (Jnumber w_scissors)
      ∧ PrimFloat.ltb
          (PrimFloat.abs
             (PrimFloat.sub (weight_sum w_rock w_paper w_scissors) 1))
          0.001 = true.
Proof.
  intros Ht. unfold validateStrategy. rewrite Ht.
  change (String.eqb "weighted" "random") with false.
  change (String.eqb "weighted" "always") with false.
  change (String.eqb "weighted" "cycle") with false.
  change (String.eqb "weighted" "weighted") with true.
  cbv iota. split.
  - destruct (get "rock" fields) as [[| | r | | |] |]; try discriminate.
    destruct (get "paper" fields) as [[| | p | | |] |]; try discriminate.
    destruct (get "scissors" fields) as [[| | sc | | |] |]; try discriminate.
    simpl. intros H. exists r, p, sc. done.
  - intros (r & p & sc & -> & -> & -> & H). exact H.
Qed.

Lemma validateStrategy_weighted_witness :
  validateStrategy (weighted_config 0.6 0.2 0.2) = true.
Proof.
  apply (proj2 (validateStrategy_weighted
                  [("type", Jstring "weighted"); ("rock", Jnumber 0.6);
                   ("paper", Jnumber 0.2); ("scissors", Jnumber 0.2)]
                  eq_refl)).
  exists 0.6%float, 0.2%float, 0.2%float.
  repeat split; vm_compute; reflexivity.
Defined.

(** ** SQL statements *)

Lemma int4_Ok (z : Z) : INT4_MIN <= z <= INT4_MAX → int4 z = Ok z.
Proof.
  intros [H1 H2]. unfold int4.
  destruct (Z.leb_spec INT4_MIN z); [| lia].
  destruct (Z.leb_spec z INT4_MAX); [| lia]. reflexivity.
Qed.

Lemma int4_inv (z z' : Z) : int4 z = Ok z' → z' = z ∧ INT4_MIN <= z <= INT4_MAX.
Proof.
  unfold int4.
  destruct (Z.leb_spec INT4_MIN z); destruct (Z.leb_spec z INT4_MAX);
    simpl; intros Hz; inversion Hz; lia.
Qed.

Lemma bind_Ok_inv {A B} (m : res A) (k : A → res B) (b : B) :
  (m ≫= k) = Ok b → ∃ a, m = Ok a ∧ k a = Ok b.
Proof. destruct m as [a | e]; simpl; [eauto | discriminate]. Qed.

Lemma add_balance_Ok (d : Z) (a : Agent.row) :
  0 <= Agent.balance a + d <= INT4_MAX →
  add_balance d a = Ok (Agent.with_balance (Agent.balance a + d) a).
Proof.
  intros Hr. unfold add_balance.
  rewrite int4_Ok by (unfold INT4_MIN; lia). simpl.
  destruct (Z.leb_spec 0 (Agent.balance a + d)); [reflexivity | lia].
Qed.

Lemma add_balance_inv (d : Z) (a a' : Agent.row) :
  add_balance d a = Ok a' →
  a' = Agent.with_balance (Agent.balance a + d) a
  ∧ 0 <= Agent.balance a + d <= INT4_MAX.
Proof.
  unfold add_balance. intros Hb.
  apply bind_Ok_inv in Hb as (b & Hb & Hc).
  apply int4_inv in Hb as [-> [_ Hr]].
  destruct (Z.leb_spec 0 (Agent.balance a + d)); inversion Hc.
  split; [reflexivity | lia].
Qed.

Lemma update_agent_Some (id : uuid) (set : Agent.row → res Agent.row)
    (s : db) (a a' : Agent.row) :
  agents s !! id = Some a → set a = Ok a' →
  update_agent id set s = Ok (with_agents (<[id := a']> (agents s)) s).
Proof.
  intros Ha Hs. unfold update_agent. rewrite Ha. simpl. rewrite Hs. reflexivity.
Qed.

Lemma update_agent_inv (id : uuid) (set : Agent.row → res Agent.row)
    (s s' : db) :
  update_agent id set s = Ok s' →
  (agents s !! id = None ∧ s' = s)
  ∨ ∃ a a', agents s !! id = Some a ∧ set a = Ok a'
            ∧ s' = with_agents (<[id := a']> (agents s)) s.
Proof.
  unfold update_agent. destruct (agents s !! id) as [a |] eqn:Ha.
  - intros Hu. apply bind_Ok_inv in Hu as (a' & Hs & Hu). inversion Hu.
    right. eauto.
  - intros Hu. inversion Hu. left. done.
Qed.

Lemma incr_wins_Ok (a : Agent.row) :
  0 <= Agent.wins a < INT4_MAX →
  incr_wins a = Ok (Agent.with_wins (Agent.wins a + 1) a).
Proof.
  intros Hr. unfold incr_wins. rewrite int4_Ok by (unfold INT4_MIN; lia).
  reflexivity.
Qed.

Lemma incr_losses_Ok (a : Agent.row) :
  0 <= Agent.losses a < INT4_MAX →
  incr_losses a = Ok (Agent.with_losses (Agent.losses a + 1) a).
Proof.
  intros Hr. unfold incr_losses. rewrite int4_Ok by (unfold INT4_MIN; lia).
  reflexivity.
Qed.

Lemma incr_draws_Ok (a : Agent.row) :
  0 <= Agent.draws a < INT4_MAX →
  incr_draws a = Ok (Agent.with_draws (Agent.draws a + 1) a).
Proof.
  intros Hr. unfold incr_draws. rewrite int4_Ok by (unfold INT4_MIN; lia).
  reflexivity.
Qed.

Lemma references_Some {A} (t : gmap N A) (id : uuid) (x : A) :
  t !! id = Some x → references t (Some id) = true.
Proof. intros H. unfold references. apply bool_decide_eq_true. eauto. Qed.

Lemma insert_transaction_Ok (t : Tx.row) (s : db) :
  0 < Tx.amount t →
  references (matches s) (Tx.match_id t) = true →
  references (agents s) (Tx.from_agent_id t) = true →
  references (agents s) (Some (Tx.to_agent_id t)) = true →
  insert_transaction t s = Ok (with_transactions (transactions s ++ [t]) s).
Proof.
  intros Ha Hm Hf Ht. unfold insert_transaction.
  destruct (Z.ltb_spec 0 (Tx.amount t)); [| lia].
  rewrite Hm, Hf, Ht. reflexivity.
Qed.

Lemma update_match_Some (id : uuid) (set : Match.row → Match.row) (s : db)
    (m : Match.row) :
  matches s !! id = Some m →
  update_match id set s
  = with_matches (<[id := sync_match_phase (set m)]> (matches s)) s.
Proof. intros Hm. unfold update_match. rewrite Hm. reflexivity. Qed.

Lemma sync_match_phase_incomplete (m : Match.row) :
  Match.is_complete m = false → sync_match_phase m = m.
Proof. intros Hc. unfold sync_match_phase. rewrite Hc. reflexivity. Qed.

Ltac lookup_rows :=
  simpl;
  repeat first [rewrite lookup_insert_eq | rewrite lookup_insert_ne by congruence];
  first [eassumption | reflexivity].

Ltac in_range :=
  simpl; unfold INT4_MAX, INT4_MIN in *; lia.

Ltac run_update_agent :=
  erewrite update_agent_Some;
  [ simpl
  | lookup_rows
  | first [ apply add_balance_Ok; in_range
          | apply incr_wins_Ok; in_range
          | apply incr_losses_Ok; in_range
          | apply incr_draws_Ok; in_range
          | reflexivity ] ].

Ltac run_insert_transaction :=
  rewrite insert_transaction_Ok;
  [ simpl
  | in_range
  | first [reflexivity | eapply references_Some; lookup_rows]
  | first [reflexivity | eapply references_Some; lookup_rows]
  | first [reflexivity | eapply references_Some; lookup_rows] ].

Lemma resolve_match_effect (now : timestamptz) (id : uuid) (m1 m2 : Move)
    (f1 f2 : bool) (st1 st2 : gmap string jsval) (s : db) (m : Match.row)
    (ag1 ag2 : Agent.row) :
  matches s !! id = Some m →
  Match.status m ≠ Match.complete →
  agents s !! Match.agent1_id m = Some ag1 →
  agents s !! Match.agent2_id m = Some ag2 →
  Match.agent1_id m ≠ Match.agent2_id m →
  0 < Match.wager_amount m →
  settles_in_range (Match.wager_amount m) ag1 →
  settles_in_range (Match.wager_amount m) ag2 →
  ∃ s' ag1' ag2',
    resolve_match now id (move_text m1) (move_text m2) f1 f2 st1 st2 s
      = Ok (s', resolved_row now m1 m2 f1 f2 m)
    ∧ matches s' !! id = Some (resolved_row now m1 m2 f1 f2 m)
    ∧ agents s' !! Match.agent1_id m = Some ag1'
    ∧ agents s' !! Match.agent2_id m = Some ag2'
    ∧ standing ag1' = standing_after (Match.wager_amount m) (outcome_of m1 m2) ag1
    ∧ standing ag2' = standing_after (Match.wager_amount m) (outcome_of m2 m1) ag2
    ∧ Agent.strategy_state ag1' = st1
    ∧ Agent.strategy_state ag2' = st2.
Proof.
  intros Hm Hst Ha1 Ha2 Hne Hw (Hb1 & Hc1 & Hw1 & Hl1 & Hd1)
    (Hb2 & Hc2 & Hw2 & Hl2 & Hd2).
  assert (Hne' : Match.agent2_id m ≠ Match.agent1_id m) by congruence.
  unfold resolve_match. rewrite Hm.
  assert (Hnc : Match.is_complete m = false).
  { unfold Match.is_complete. destruct (Match.status m); done. }
  rewrite Hnc, !move_of_text_text.
  rewrite (update_match_Some id (Match.set_final_moves m1 m2 f1 f2) s m Hm).
  rewrite (sync_match_phase_incomplete (Match.set_final_moves m1 m2 f1 f2 m))
    by exact Hnc.
  assert (Hmid : references
                   (<[id := Match.set_final_moves m1 m2 f1 f2 m]> (matches s))
                   (Some id) = true).
  { eapply references_Some. apply lookup_insert_eq. }
  unfold resolved_row.
  destruct m1, m2; unfold determine_winner, outcome_of; simpl bool_decide;
    cbv iota beta; unfold update_agents_in, update_agent_opt.
  all: first
    [ (* draw *)
      run_update_agent;
      destruct (decide (Match.agent1_id m = Match.agent2_id m)); [done |];
      run_update_agent;
      run_insert_transaction; run_insert_transaction;
      run_update_agent;
      destruct (decide (Match.agent1_id m = Match.agent2_id m)); [done |];
      run_update_agent
    | (* a winner *)
      rewrite int4_Ok by in_range; simpl;
      run_update_agent; run_insert_transaction;
      run_update_agent; run_update_agent ].
  all: erewrite update_match_Some by (simpl; apply lookup_insert_eq); simpl;
    run_update_agent; run_update_agent;
    rewrite lookup_insert_eq;
    do 3 eexists; (split; [reflexivity |]);
    (split; [simpl; apply lookup_insert_eq |]);
    (split; [lookup_rows |]); (split; [lookup_rows |]);
    unfold standing, standing_after; simpl;
    repeat split; try reflexivity; rewrite (Z.mul_comm _ 2); reflexivity.
Qed.

(** *** What one statement changes *)

Lemma update_agent_frame (id : uuid) (set : Agent.row → res Agent.row)
    (s s' : db) :
  update_agent id set s = Ok s' →
  matches s' = matches s ∧ challenges s' = challenges s
  ∧ transactions s' = transactions s
  ∧ (∀ a, is_Some (agents s' !! a) ↔ is_Some (agents s !! a))
  ∧ (∀ a, a ≠ id → agents s' !! a = agents s !! a).
Proof.
  intros Hu. apply update_agent_inv in Hu as [[Hn ->] | (r & r' & Hr & Hs & ->)].
  - repeat split; auto.
  - simpl. repeat split; auto.
    + destruct (decide (a = id)) as [-> |].
      * rewrite lookup_insert_eq, Hr. eauto.
      * by rewrite lookup_insert_ne.
    + destruct (decide (a = id)) as [-> |].
      * rewrite lookup_insert_eq, Hr. eauto.
      * by rewrite lookup_insert_ne.
    + intros a Ha. by rewrite lookup_insert_ne.
Qed.

(** An UPDATE of a column other than the balance moves no chips. *)
Lemma update_agent_keeps_balance (id : uuid) (set : Agent.row → res Agent.row)
    (s s' : db) :
  (∀ r r', set r = Ok r' → Agent.balance r' = Agent.balance r) →
  update_agent id set s = Ok s' →
  ∀ a, balance_of s' a = balance_of s a.
Proof.
  intros Hset Hu a.
  apply update_agent_inv in Hu as [[Hn ->] | (r & r' & Hr & Hs & ->)]; [done |].
  unfold balance_of. simpl. destruct (decide (a = id)) as [-> |].
  - rewrite lookup_insert_eq, Hr. eauto.
  - by rewrite lookup_insert_ne.
Qed.

(** [SET balance = balance + d] on an existing row moves exactly [d]. *)
Lemma update_agent_credits (id : uuid) (d : Z) (s s' : db) :
  is_Some (agents s !! id) →
  update_agent id (add_balance d) s = Ok s' →
  ∀ a, balance_of s' a = balance_of s a + (if decide (a = id) then d else 0).
Proof.
  intros [r0 Hr0] Hu a.
  apply update_agent_inv in Hu as [[Hn ->] | (r & r' & Hr & Hs & ->)];
    [congruence |].
  apply add_balance_inv in Hs as [-> _].
  unfold balance_of. simpl. destruct (decide (a = id)) as [-> |].
  - rewrite lookup_insert_eq, Hr. reflexivity.
  - rewrite lookup_insert_ne by done. lia.
Qed.

Lemma incr_wins_balance (r r' : Agent.row) :
  incr_wins r = Ok r' → Agent.balance r' = Agent.balance r.
Proof.
  unfold incr_wins. intros H. apply bind_Ok_inv in H as (n & _ & H).
  by inversion H.
Qed.

Lemma incr_losses_balance (r r' : Agent.row) :
  incr_losses r = Ok r' → Agent.balance r' = Agent.balance r.
Proof.
  unfold incr_losses. intros H. apply bind_Ok_inv in H as (n & _ & H).
  by inversion H.
Qed.

Lemma incr_draws_balance (r r' : Agent.row) :
  incr_draws r = Ok r' → Agent.balance r' = Agent.balance r.
Proof.
  unfold incr_draws. intros H. apply bind_Ok_inv in H as (n & _ & H).
  by inversion H.
Qed.

Lemma set_strategy_state_balance (st : gmap string jsval) (r r' : Agent.row) :
  set_strategy_state st r = Ok r' → Agent.balance r' = Agent.balance r.
Proof. unfold set_strategy_state. intros H. by inversion H. Qed.

Lemma insert_transaction_inv (t : Tx.row) (s s' : db) :
  insert_transaction t s = Ok s' →
  s' = with_transactions (transactions s ++ [t]) s
  ∧ 0 < Tx.amount t
  ∧ is_Some (agents s !! Tx.to_agent_id t).
Proof.
  unfold insert_transaction. intros Hi.
  destruct (Z.ltb_spec 0 (Tx.amount t)) as [Hpos | _]; simpl in Hi;
    [| discriminate].
  destruct (references (matches s) (Tx.match_id t)); simpl in Hi;
    [| discriminate].
  destruct (references (agents s) (Tx.from_agent_id t)); simpl in Hi;
    [| discriminate].
  destruct (bool_decide (is_Some (agents s !! Tx.to_agent_id t))) eqn:Hto;
    simpl in Hi; [| discriminate].
  inversion Hi. apply bool_decide_eq_true in Hto. done.
Qed.

Lemma update_match_frame (id : uuid) (set : Match.row → Match.row) (s : db) :
  agents (update_match id set s) = agents s
  ∧ challenges (update_match id set s) = challenges s
  ∧ transactions (update_match id set s) = transactions s.
Proof. unfold update_match. destruct (matches s !! id); done. Qed.

Lemma update_match_balance (id : uuid) (set : Match.row → Match.row) (s : db)
    (a : uuid) :
  balance_of (update_match id set s) a = balance_of s a.
Proof.
  unfold balance_of. by rewrite (proj1 (update_match_frame id set s)).
Qed.

Lemma rpc_Err {A} (f : db → res (db * A)) (s : db) (e : string) :
  f s = Err e → rpc f s = (s, Err e).
Proof. intros H. unfold rpc. rewrite H. reflexivity. Qed.

Lemma rpc_Ok {A} (f : db → res (db * A)) (s s' : db) (a : A) :
  f s = Ok (s', a) → rpc f s = (s', Ok a).
Proof. intros H. unfold rpc. rewrite H. reflexivity. Qed.

Lemma ledger_matched_refl (s : db) : ledger_matched s s.
Proof. exists []. split; [by rewrite app_nil_r | intros a; simpl; lia]. Qed.

(** *** resolve_match, read backwards from a successful return *)

Lemma resolve_match_inv (now : timestamptz) (id : uuid) (p1 p2 : string)
    (f1 f2 : bool) (st1 st2 : gmap string jsval) (s s' : db) (m' : Match.row) :
  resolve_match now id p1 p2 f1 f2 st1 st2 s = Ok (s', m') →
  ∃ m, matches s !! id = Some m
       ∧ Match.is_complete m = false
       ∧ matches s' !! id = Some m'
       ∧ Match.status m' = Match.complete
       ∧ (Match.agent1_id m ≠ Match.agent2_id m → ledger_matched s s').
Proof.
  unfold resolve_match. intros Hr.
  destruct (matches s !! id) as [m |] eqn:Hm; [| discriminate].
  destruct (Match.is_complete m) eqn:Hnc; [discriminate |].
  destruct (move_of_text p1) as [m1 |]; [| discriminate].
  destruct (move_of_text p2) as [m2 |]; [| discriminate].
  exists m. split; [reflexivity |]. split; [exact Hnc |].
  set (a1 := Match.agent1_id m) in *. set (a2 := Match.agent2_id m) in *.
  set (w := Match.wager_amount m) in *.
  set (s1 := update_match id (Match.set_final_moves m1 m2 f1 f2) s) in *.
  destruct (determine_winner m m1 m2) as [v_winner_id v_loser_id] eqn:Hdw.
  apply bind_Ok_inv in Hr as (s2 & Hs2 & Hr).
  apply bind_Ok_inv in Hr as (s4 & Hs4 & Hr).
  apply bind_Ok_inv in Hr as (s5 & Hs5 & Hr).
  set (s3 := update_match id (Match.set_complete v_winner_id now) s2) in *.
  destruct (matches s5 !! id) as [v |] eqn:Hv; inversion Hr; subst s5 v; clear Hr.
  pose proof (update_agent_frame _ _ _ _ Hs4) as (Hm4 & _ & Ht4 & _ & _).
  pose proof (update_agent_frame _ _ _ _ Hs5) as (Hm5 & _ & Ht5 & _ & _).
  pose proof (update_agent_keeps_balance _ _ _ _
                (set_strategy_state_balance st1) Hs4) as Hb4.
  pose proof (update_agent_keeps_balance _ _ _ _
                (set_strategy_state_balance st2) Hs5) as Hb5.
  pose proof (update_match_frame id (Match.set_complete v_winner_id now) s2)
    as (_ & _ & Ht3).
  pose proof (update_match_frame id (Match.set_final_moves m1 m2 f1 f2) s)
    as (Hag1 & _ & Ht1).
  fold s3 in Ht3. fold s1 in Hag1, Ht1.
  assert (Hledger : matches s2 = matches s1
                    ∧ (a1 ≠ a2 → ledger_matched s s2)).
  { destruct (bool_decide (m1 = m2)).
    - (* draw *)
      apply bind_Ok_inv in Hs2 as (sa & Hsa & Hs2).
      apply bind_Ok_inv in Hs2 as (sb & Hsb & Hs2).
      apply bind_Ok_inv in Hs2 as (sc & Hsc & Hs2).
      unfold update_agents_in in Hsa, Hs2.
      apply bind_Ok_inv in Hsa as (sx & Hsx & Hsa).
      apply bind_Ok_inv in Hs2 as (sy & Hsy & Hs2).
      apply insert_transaction_inv in Hsb as (-> & _ & Hto1).
      apply insert_transaction_inv in Hsc as (-> & _ & Hto2).
      simpl in Hto1, Hto2, Hsy.
      pose proof (update_agent_frame _ _ _ _ Hsx) as (Hmx & _ & Htx & Hdx & _).
      pose proof (update_agent_frame _ _ _ _ Hsy) as (Hmy & _ & Hty & _ & _).
      pose proof (update_agent_keeps_balance _ _ _ _ incr_draws_balance Hsy)
        as Hby.
      destruct (decide (a1 = a2)) as [Heq | Hne].
      { inversion Hsa; inversion Hs2; subst sa s2.
        split; [| done]. rewrite Hmy. simpl. exact Hmx. }
      pose proof (update_agent_frame _ _ _ _ Hsa) as (Hma & _ & Hta & Hda & _).
      pose proof (update_agent_frame _ _ _ _ Hs2) as (Hm2 & _ & Ht2 & _ & _).
      pose proof (update_agent_keeps_balance _ _ _ _ incr_draws_balance Hs2)
        as Hb2.
      assert (Hx1 : is_Some (agents s1 !! a1)) by (apply Hdx, Hda, Hto1).
      assert (Hx2 : is_Some (agents sx !! a2)) by (apply Hda, Hto2).
      pose proof (update_agent_credits _ _ _ _ Hx1 Hsx) as Hcx.
      pose proof (update_agent_credits _ _ _ _ Hx2 Hsa) as Hca.
      split.
      + rewrite Hm2, Hmy. simpl. rewrite Hma, Hmx. reflexivity.
      + intros _. eexists. split.
        * rewrite Ht2, Hty. simpl. rewrite Hta, Htx, Ht1.
          rewrite <- !app_assoc. reflexivity.
        * intros a. rewrite Hb2, Hby. unfold balance_of at 1. simpl.
          fold (balance_of sa a). rewrite Hca, Hcx.
          subst s1. rewrite update_match_balance. simpl.
          destruct (decide (a = a1)); destruct (decide (a = a2));
            repeat match goal with
                   | |- context [N.eqb ?x ?y] => destruct (N.eqb_spec x y)
                   end; try congruence; lia.
    - (* a winner *)
      apply bind_Ok_inv in Hs2 as (w2 & Hw2 & Hs2).
      apply bind_Ok_inv in Hs2 as (sa & Hsa & Hs2).
      apply bind_Ok_inv in Hs2 as (sb & Hsb & Hs2).
      apply bind_Ok_inv in Hs2 as (sc & Hsc & Hs2).
      destruct v_winner_id as [wid |]; [| discriminate].
      simpl in Hsa, Hsc.
      apply insert_transaction_inv in Hsb as (-> & _ & Hto).
      simpl in Hto, Hsc.
      pose proof (update_agent_frame _ _ _ _ Hsa) as (Hma & _ & Hta & Hda & _).
      pose proof (update_agent_frame _ _ _ _ Hsc) as (Hmc & _ & Htc & _ & _).
      pose proof (update_agent_keeps_balance _ _ _ _ incr_wins_balance Hsc)
        as Hbc.
      assert (Hx : is_Some (agents s1 !! wid)) by (apply Hda, Hto).
      pose proof (update_agent_credits _ _ _ _ Hx Hsa) as Hca.
      assert (Hfin : transactions s2 = transactions sc
                     ∧ matches s2 = matches sc
                     ∧ ∀ a, balance_of s2 a = balance_of sc a).
      { destruct v_loser_id as [lid |]; simpl in Hs2.
        - pose proof (update_agent_frame _ _ _ _ Hs2) as (Hm2 & _ & Ht2 & _ & _).
          pose proof (update_agent_keeps_balance _ _ _ _
                        incr_losses_balance Hs2) as Hb2.
          done.
        - inversion Hs2. done. }
      destruct Hfin as (Ht2 & Hm2 & Hb2).
      split.
      + rewrite Hm2, Hmc. simpl. exact Hma.
      + intros _. eexists. split.
        * rewrite Ht2, Htc. simpl. rewrite Hta, Ht1. reflexivity.
        * intros a. rewrite Hb2, Hbc. unfold balance_of at 1. simpl.
          fold (balance_of sa a). rewrite Hca.
          subst s1. rewrite update_match_balance. simpl.
          destruct (decide (a = wid));
            repeat match goal with
                   | |- context [N.eqb ?x ?y] => destruct (N.eqb_spec x y)
                   end; try congruence; lia. }
  destruct Hledger as (Hm2 & Hledger).
  assert (Hrow : matches s' !! id
                 = Some (sync_match_phase
                           (Match.set_complete v_winner_id now
                              (sync_match_phase
                                 (Match.set_final_moves m1 m2 f1 f2 m))))).
  { rewrite Hm5, Hm4. subst s3. unfold update_match at 1. rewrite Hm2.
    subst s1. unfold update_match. rewrite Hm. simpl.
    rewrite lookup_insert_eq. simpl. apply lookup_insert_eq. }
  split; [exact Hv |]. split.
  - rewrite Hrow in Hv. inversion Hv. reflexivity.
  - intros Hne. destruct (Hledger Hne) as (new & Hnew & Hbal).
    exists new. split.
    + rewrite Ht5, Ht4, Ht3. exact Hnew.
    + intros a. rewrite Hb5, Hb4. subst s3. rewrite update_match_balance.
      apply Hbal.
Qed.

(** ** Resolution *)

(** C1.  A match that is not yet complete, resolved with final moves [m1]
    and [m2], is settled by the standard cycle: the winner's balance grows
    by twice the wager and the wins counter by one, the loser's losses
    counter by one, and on a draw each side gets its own wager back and a
    draw; the match row is stamped complete with the two moves and the
    winner (NULL on a draw). *)
Theorem resolve_match_settles (now : timestamptz) (id : uuid) (m1 m2 : Move)
    (f1 f2 : bool) (st1 st2 : gmap string jsval) (s : db) (m : Match.row)
    (ag1 ag2 : Agent.row) :
  matches s !! id = Some m →
  Match.status m ≠ Match.complete →
  agents s !! Match.agent1_id m = Some ag1 →
  agents s !! Match.agent2_id m = Some ag2 →
  Match.agent1_id m ≠ Match.agent2_id m →
  0 < Match.wager_amount m →
  settles_in_range (Match.wager_amount m) ag1 →
  settles_in_range (Match.wager_amount m) ag2 →
  ∃ s' m' ag1' ag2',
    resolve_match now id (move_text m1) (move_text m2) f1 f2 st1 st2 s
      = Ok (s', m')
    ∧ matches s' !! id = Some m'
    ∧ agents s' !! Match.agent1_id m = Some ag1'
    ∧ agents s' !! Match.agent2_id m = Some ag2'
    ∧ Match.status m' = Match.complete
    ∧ Match.agent1_move m' = Some m1
    ∧ Match.agent2_move m' = Some m2
    ∧ Match.winner_id m'
      = match outcome_of m1 m2 with
        | Won => Some (Match.agent1_id m)
        | Lost => Some (Match.agent2_id m)
        | Drew => None
        end
    ∧ standing ag1'
      = standing_after (Match.wager_amount m) (outcome_of m1 m2) ag1
    ∧ standing ag2'
      = standing_after (Match.wager_amount m) (outcome_of m2 m1) ag2.
Proof.
  intros Hm Hst Ha1 Ha2 Hne Hw Hr1 Hr2.
  destruct (resolve_match_effect now id m1 m2 f1 f2 st1 st2 s m ag1 ag2
              Hm Hst Ha1 Ha2 Hne Hw Hr1 Hr2)
    as (s' & ag1' & ag2' & Hres & Hrow & Hg1 & Hg2 & Hs1 & Hs2 & _).
  exists s', (resolved_row now m1 m2 f1 f2 m), ag1', ag2'.
  repeat split; assumption || reflexivity.
Qed.

(** The scenario of the spec: wager 50, balances 1000 and 1000 before the
    challenge, rock against scissors. *)
Lemma resolve_match_settles_witness :
  ∃ s' m',
    invoke_resolve 20 rock_beats_scissors arena_accepted = (s', Ok m')
    ∧ balance_of arena agent_A = 1000
    ∧ balance_of arena agent_B = 1000
    ∧ balance_of s' agent_A = 1050
    ∧ balance_of s' agent_B = 950
    ∧ Agent.wins <$> agents s' !! agent_A = Some 1
    ∧ Agent.losses <$> agents s' !! agent_B = Some 1
    ∧ Match.status m' = Match.complete
    ∧ Match.winner_id m' = Some agent_A.
Proof.
  edestruct (resolve_match_settles 130000000 20 rock scissors false false ∅ ∅
               arena_accepted)
    as (s' & m' & ag1' & ag2' & Hres & _ & Hg1 & Hg2 & Hst & _ & _ & Hwin
        & Hs1 & Hs2).
  - vm_compute. reflexivity.
  - vm_compute. discriminate.
  - vm_compute. reflexivity.
  - vm_compute. reflexivity.
  - vm_compute. discriminate.
  - vm_compute. reflexivity.
  - unfold settles_in_range, INT4_MAX. simpl. lia.
  - unfold settles_in_range, INT4_MAX. simpl. lia.
  - exists s', m'.
    split; [exact (rpc_Ok _ _ _ _ Hres) |].
    split; [vm_compute; reflexivity |]. split; [vm_compute; reflexivity |].
    unfold standing, standing_after in Hs1, Hs2.
    simpl in Hg1, Hg2, Hs1, Hs2.
    injection Hs1 as Eb1 Ew1 El1 Ed1. injection Hs2 as Eb2 Ew2 El2 Ed2.
    unfold balance_of.
    change agent_A with 1%N. change agent_B with 2%N.
    rewrite Hg1, Hg2. simpl.
    split; [lia |]. split; [lia |].
    split; [f_equal; lia |]. split; [f_equal; lia |].
    split; [exact Hst | exact Hwin].
Defined.

Lemma resolve_match_complete_rejected (now : timestamptz) (id : uuid)
    (p1 p2 : string) (f1 f2 : bool) (st1 st2 : gmap string jsval) (s : db)
    (m : Match.row) :
  matches s !! id = Some m →
  Match.status m = Match.complete →
  resolve_match now id p1 p2 f1 f2 st1 st2 s
  = Err "Match is already complete or does not exist".
Proof.
  intros Hm Hst. unfold resolve_match. rewrite Hm.
  unfold Match.is_complete. rewrite Hst. reflexivity.
Qed.

(** C2.  Once a match is complete, whether it was found so or one
    invocation of resolve_match has just completed it, every further
    invocation for that match id is rejected and leaves the whole store
    (balances, counters, transactions, strategy states, match rows) as it
    was, however many invocations follow. *)
Theorem resolve_match_exactly_once (id : uuid) (s0 s : db) (c0 : resolve_call)
    (r0 : Match.row) :
  invoke_resolve id c0 s0 = (s, Ok r0)
  ∨ (∃ m, matches s !! id = Some m ∧ Match.status m = Match.complete) →
  (∀ c, invoke_resolve id c s
        = (s, Err "Match is already complete or does not exist"))
  ∧ (∀ calls, foldl (fun st c => fst (invoke_resolve id c st)) s calls = s).
Proof.
  intros Hdone.
  assert (Hc : ∃ m, matches s !! id = Some m ∧ Match.status m = Match.complete).
  { destruct Hdone as [Hfirst | Hc]; [| exact Hc].
    unfold invoke_resolve, rpc in Hfirst.
    destruct (resolve_match _ _ _ _ _ _ _ _ s0) as [[s1 r1] | e] eqn:Hr;
      inversion Hfirst; subst s1 r1.
    apply resolve_match_inv in Hr as (m & _ & _ & Hrow & Hst & _).
    eauto. }
  destruct Hc as (m & Hm & Hst).
  assert (Hrej : ∀ c, invoke_resolve id c s
                      = (s, Err "Match is already complete or does not exist")).
  { intros c. unfold invoke_resolve. apply rpc_Err.
    by eapply resolve_match_complete_rejected. }
  split; [exact Hrej |].
  induction calls as [| c calls IH]; [reflexivity |].
  simpl. rewrite Hrej. simpl. exact IH.
Qed.

Lemma resolve_match_exactly_once_witness :
  fst (invoke_resolve 20 rock_beats_scissors
         (fst (invoke_resolve 20 rock_beats_scissors arena_accepted)))
  = fst (invoke_resolve 20 rock_beats_scissors arena_accepted)
  ∧ is_ok (snd (invoke_resolve 20 rock_beats_scissors arena_accepted)) = true
  ∧ is_ok (snd (invoke_resolve 20 rock_beats_scissors
                  (fst (invoke_resolve 20 rock_beats_scissors arena_accepted))))
    = false.
Proof.
  destruct (invoke_resolve 20 rock_beats_scissors arena_accepted)
    as [s [r | e]] eqn:Hfirst.
  - destruct (resolve_match_exactly_once 20 arena_accepted s
                rock_beats_scissors r (or_introl Hfirst)) as [Hrej _].
    simpl. rewrite Hrej. simpl. repeat split; reflexivity.
  - vm_compute in Hfirst. discriminate.
Defined.

(** ** The escrow ledger *)

Lemma update_challenge_status_frame (id : uuid)
    (st : Challenge.challenge_status) (s : db) :
  agents (update_challenge_status id st s) = agents s
  ∧ matches (update_challenge_status id st s) = matches s
  ∧ transactions (update_challenge_status id st s) = transactions s.
Proof. unfold update_challenge_status. destruct (challenges s !! id); done. Qed.

Lemma cancel_challenge_ledger (p_challenge_id p_agent_id : uuid) (s : db) :
  ledger_matched s (fst (rpc (cancel_challenge p_challenge_id p_agent_id) s)).
Proof.
  unfold rpc.
  destruct (cancel_challenge p_challenge_id p_agent_id s) as [[s' r] | e] eqn:Hc;
    simpl; [| apply ledger_matched_refl].
  unfold cancel_challenge in Hc.
  destruct (challenges s !! p_challenge_id) as [c |];
    [| inversion Hc; apply ledger_matched_refl].
  destruct (negb (bool_decide (Challenge.challenger_id c = p_agent_id)));
    [inversion Hc; apply ledger_matched_refl |].
  destruct (negb (Challenge.is_open c));
    [inversion Hc; apply ledger_matched_refl |].
  apply bind_Ok_inv in Hc as (s2 & Hs2 & Hc).
  apply bind_Ok_inv in Hc as (s3 & Hs3 & Hc).
  inversion Hc; subst s' r; clear Hc.
  apply insert_transaction_inv in Hs3 as (-> & _ & Hto). simpl in Hto.
  pose proof (update_challenge_status_frame p_challenge_id Challenge.cancelled s)
    as (Hag1 & _ & Ht1).
  pose proof (update_agent_frame _ _ _ _ Hs2) as (_ & _ & Ht2 & Hd2 & _).
  assert (Hx : is_Some (agents (update_challenge_status p_challenge_id
                                  Challenge.cancelled s) !! p_agent_id))
    by apply Hd2, Hto.
  pose proof (update_agent_credits _ _ _ _ Hx Hs2) as Hcr.
  eexists. split.
  - simpl. rewrite Ht2, Ht1. reflexivity.
  - intros a. unfold balance_of at 1. simpl. fold (balance_of s2 a).
    rewrite Hcr. unfold balance_of at 1. rewrite Hag1. fold (balance_of s a).
    destruct (decide (a = p_agent_id)); destruct (N.eqb_spec p_agent_id a);
      try congruence; lia.
Qed.

Lemma resolve_match_ledger (now : timestamptz) (id : uuid) (p1 p2 : string)
    (f1 f2 : bool) (st1 st2 : gmap string jsval) (s : db) :
  (∀ m, matches s !! id = Some m → Match.agent1_id m ≠ Match.agent2_id m) →
  ledger_matched s (fst (rpc (resolve_match now id p1 p2 f1 f2 st1 st2) s)).
Proof.
  intros Hdiff. unfold rpc.
  destruct (resolve_match now id p1 p2 f1 f2 st1 st2 s) as [[s' r] | e] eqn:Hr;
    simpl; [| apply ledger_matched_refl].
  apply resolve_match_inv in Hr as (m & Hm & _ & _ & _ & Hl).
  apply Hl, Hdiff, Hm.
Qed.

Lemma escrow_wager_inv (p_agent_id : uuid) (p_amount : Z) (s s' : db)
    (escrowed : bool) :
  escrow_wager p_agent_id p_amount s = Ok (s', escrowed) →
  transactions s' = transactions s
  ∧ (escrowed = false → s' = s)
  ∧ (escrowed = true → is_Some (agents s !! p_agent_id) →
     p_amount <= balance_of s p_agent_id
     ∧ balance_of s' p_agent_id = balance_of s p_agent_id - p_amount).
Proof.
  unfold escrow_wager. intros He.
  destruct (agents s !! p_agent_id) as [a |] eqn:Ha.
  - destruct (Z.ltb_spec (Agent.balance a) p_amount) as [Hlt | Hge].
    + inversion He; subst. repeat split; done.
    + apply bind_Ok_inv in He as (s1 & Hs1 & He). inversion He; subst s1 escrowed.
      pose proof (update_agent_frame _ _ _ _ Hs1) as (_ & _ & Ht & _ & _).
      assert (Hx : is_Some (agents s !! p_agent_id)) by eauto.
      pose proof (update_agent_credits _ _ _ _ Hx Hs1 p_agent_id) as Hcr.
      split; [exact Ht |]. split; [done |]. intros _ _.
      rewrite Hcr. destruct (decide (p_agent_id = p_agent_id)); [| done].
      unfold balance_of. rewrite Ha. lia.
  - inversion He; subst. split; [done |]. split; [done |].
    intros _ [x Hx]. discriminate.
Qed.

Lemma refund_wager_inv (p_agent_id : uuid) (p_amount : Z) (s s' : db) (u : unit) :
  refund_wager p_agent_id p_amount s = Ok (s', u) →
  transactions s' = transactions s
  ∧ (is_Some (agents s !! p_agent_id) →
     balance_of s' p_agent_id = balance_of s p_agent_id + p_amount).
Proof.
  unfold refund_wager. intros Hr.
  apply bind_Ok_inv in Hr as (s1 & Hs1 & Hr). inversion Hr; subst s1.
  pose proof (update_agent_frame _ _ _ _ Hs1) as (_ & _ & Ht & _ & _).
  split; [exact Ht |]. intros Hx.
  rewrite (update_agent_credits _ _ _ _ Hx Hs1 p_agent_id).
  destruct (decide (p_agent_id = p_agent_id)); [lia | done].
Qed.

Lemma create_match_inv (now : timestamptz) (new_id p_challenge_id p_accepter_id : uuid)
    (p_strategy_seconds p_commit_seconds : Z) (s s' : db) (m : Match.row) :
  create_match now new_id p_challenge_id p_accepter_id
    p_strategy_seconds p_commit_seconds s = Ok (s', m) →
  ∃ c challenger accepter,
    challenges s !! p_challenge_id = Some c
    ∧ Challenge.status c = Challenge.open
    ∧ Challenge.challenger_id c ≠ p_accepter_id
    ∧ agents s !! Challenge.challenger_id c = Some challenger
    ∧ agents s !! p_accepter_id = Some accepter
    ∧ m = Match.mk p_challenge_id (Challenge.challenger_id c) p_accepter_id
            (Challenge.wager_amount c) Match.pending Match.strategy
            (Some (now + seconds p_strategy_seconds))
            (now + seconds p_strategy_seconds + seconds p_commit_seconds)
            None None None None None None None false false
            (Agent.strategy challenger) (Agent.strategy accepter)
            None now None
    ∧ matches s' !! new_id = Some m
    ∧ transactions s' = transactions s
    ∧ Challenge.wager_amount c <= balance_of s p_accepter_id
    ∧ balance_of s' p_accepter_id
      = balance_of s p_accepter_id - Challenge.wager_amount c.
Proof.
  unfold create_match. intros Hc.
  destruct (challenges s !! p_challenge_id) as [c |] eqn:Hch; [| discriminate].
  destruct (Challenge.is_open c) eqn:Hopen; simpl in Hc; [| discriminate].
  destruct (bool_decide (Challenge.challenger_id c = p_accepter_id)) eqn:Hself;
    [discriminate |].
  apply bool_decide_eq_false in Hself.
  destruct (agents s !! p_accepter_id) as [accepter |] eqn:Hacc.
  2: { apply bind_Ok_inv in Hc as (s1 & _ & Hc).
       destruct (agents s !! Challenge.challenger_id c); discriminate. }
  destruct (Z.ltb_spec (Agent.balance accepter) (Challenge.wager_amount c))
    as [Hlt | Hge]; [discriminate |].
  apply bind_Ok_inv in Hc as (s1 & Hs1 & Hc).
  destruct (agents s !! Challenge.challenger_id c) as [challenger |] eqn:Hcha;
    [| discriminate].
  destruct (matches s1 !! new_id) eqn:Hfresh; [discriminate |].
  inversion Hc; subst s' m; clear Hc.
  pose proof (update_agent_frame _ _ _ _ Hs1) as (_ & _ & Ht & _ & _).
  assert (Hx : is_Some (agents s !! p_accepter_id)) by eauto.
  pose proof (update_agent_credits _ _ _ _ Hx Hs1 p_accepter_id) as Hcr.
  exists c, challenger, accepter.
  split; [first [reflexivity | exact Hch] |].
  split; [unfold Challenge.is_open in Hopen; destruct (Challenge.status c); done |].
  split; [exact Hself |].
  split; [first [reflexivity | exact Hcha] |].
  split; [first [reflexivity | exact Hacc] |].
  split; [reflexivity |].
  pose proof (update_challenge_status_frame p_challenge_id Challenge.matched
                (with_matches
                   (<[new_id := Match.mk p_challenge_id (Challenge.challenger_id c)
                        p_accepter_id (Challenge.wager_amount c) Match.pending
                        Match.strategy (Some (now + seconds p_strategy_seconds))
                        (now + seconds p_strategy_seconds + seconds p_commit_seconds)
                        None None None None None None None false false
                        (Agent.strategy challenger) (Agent.strategy accepter)
                        None now None]> (matches s1)) s1))
    as (Hag & Hma & Htr).
  split; [rewrite Hma; simpl; apply lookup_insert_eq |].
  split; [rewrite Htr; simpl; exact Ht |].
  split; [unfold balance_of; rewrite Hacc; lia |].
  unfold balance_of at 1. rewrite Hag. simpl. fold (balance_of s1 p_accepter_id).
  rewrite Hcr. destruct (decide (p_accepter_id = p_accepter_id)); [lia | done].
Qed.

(** C3 as stated fails at the first escrow: posting A's challenge of 50
    takes A's balance from 1000 to 950 and appends no transaction row. *)
Lemma escrow_appends_no_transaction :
  snd (rpc (escrow_wager agent_A 50) arena) = Ok true
  ∧ balance_of arena agent_A = 1000
  ∧ balance_of (fst (rpc (escrow_wager agent_A 50) arena)) agent_A = 950
  ∧ transactions (fst (rpc (escrow_wager agent_A 50) arena))
    = transactions arena
  ∧ ¬ ledger_matched arena (fst (rpc (escrow_wager agent_A 50) arena)).
Proof.
  split; [vm_compute; reflexivity |]. split; [vm_compute; reflexivity |].
  split; [vm_compute; reflexivity |]. split; [vm_compute; reflexivity |].
  intros (new & Hnew & Hbal).
  assert (Hnil : new = []).
  { change (transactions (fst (rpc (escrow_wager agent_A 50) arena)))
      with (transactions arena) in Hnew.
    rewrite <- (app_nil_r (transactions arena)) in Hnew at 1.
    apply app_inv_head in Hnew. congruence. }
  specialize (Hbal agent_A). rewrite Hnil in Hbal. vm_compute in Hbal.
  discriminate.
Qed.

(** C3, amended.  The credits are logged and the debits are not.
    cancel_challenge (refund) and resolve_match (draw return, winner
    settlement) append their transaction rows in the same SQL function as
    the balance change, and for every agent the amounts paid to that agent
    sum to the change of that agent's balance; a rejected call changes
    neither.  escrow_wager (escrow at challenge post), create_match (escrow
    at accept) and refund_wager move a balance and leave the transactions
    table as it was. *)
Theorem credits_are_logged :
  (∀ p_challenge_id p_agent_id s,
      ledger_matched s (fst (rpc (cancel_challenge p_challenge_id p_agent_id) s)))
  ∧ (∀ now id p1 p2 f1 f2 st1 st2 s,
        (∀ m, matches s !! id = Some m →
              Match.agent1_id m ≠ Match.agent2_id m) →
        ledger_matched s
          (fst (rpc (resolve_match now id p1 p2 f1 f2 st1 st2) s)))
  ∧ (∀ p_agent_id p_amount s s',
        escrow_wager p_agent_id p_amount s = Ok (s', true) →
        is_Some (agents s !! p_agent_id) →
        transactions s' = transactions s
        ∧ balance_of s' p_agent_id = balance_of s p_agent_id - p_amount)
  ∧ (∀ now new_id p_challenge_id p_accepter_id ss cs s s' m,
        create_match now new_id p_challenge_id p_accepter_id ss cs s
          = Ok (s', m) →
        transactions s' = transactions s
        ∧ balance_of s' p_accepter_id
          = balance_of s p_accepter_id - Match.wager_amount m)
  ∧ (∀ p_agent_id p_amount s s' u,
        refund_wager p_agent_id p_amount s = Ok (s', u) →
        is_Some (agents s !! p_agent_id) →
        transactions s' = transactions s
        ∧ balance_of s' p_agent_id = balance_of s p_agent_id + p_amount).
Proof.
  split; [exact cancel_challenge_ledger |].
  split; [exact resolve_match_ledger |].
  split; [| split].
  - intros p_agent_id p_amount s s' He Hx.
    apply escrow_wager_inv in He as (Ht & _ & Hb).
    destruct (Hb eq_refl Hx) as [_ Hb']. done.
  - intros now new_id p_challenge_id p_accepter_id ss cs s s' m Hc.
    apply create_match_inv in Hc
      as (c & ch & ac & _ & _ & _ & _ & _ & -> & _ & Ht & _ & Hb).
    done.
  - intros p_agent_id p_amount s s' u Hr Hx.
    apply refund_wager_inv in Hr as (Ht & Hb). auto.
Qed.

(** In the scenario: the settlement of the accepted match is logged, the
    cancellation of a posted challenge is logged, and the two escrows are
    not. *)
Lemma credits_are_logged_witness :
  ledger_matched arena_accepted
    (fst (invoke_resolve 20 rock_beats_scissors arena_accepted))
  ∧ ledger_matched arena_posted
      (fst (rpc (cancel_challenge 10 agent_A) arena_posted))
  ∧ transactions (fst (rpc (escrow_wager agent_A 50) arena))
    = transactions arena
  ∧ balance_of (fst (rpc (escrow_wager agent_A 50) arena)) agent_A
    = balance_of arena agent_A - 50
  ∧ transactions arena_accepted = transactions arena_posted
  ∧ balance_of arena_accepted agent_B = balance_of arena_posted agent_B - 50.
Proof.
  destruct credits_are_logged as (Hcancel & Hresolve & Hescrow & Hcreate & _).
  split.
  { apply Hresolve. intros m Hm. vm_compute in Hm. inversion Hm. discriminate. }
  split; [apply Hcancel |].
  destruct (Hescrow agent_A 50 arena (fst (rpc (escrow_wager agent_A 50) arena)))
    as [Ht1 Hb1].
  { vm_compute. reflexivity. }
  { vm_compute. eauto. }
  edestruct (Hcreate 0 20%N 10%N agent_B 60 60 arena_posted arena_accepted)
    as [Ht2 Hb2].
  { vm_compute. reflexivity. }
  split; [exact Ht1 |]. split; [exact Hb1 |].
  split; [exact Ht2 |]. exact Hb2.
Defined.

(** ** The stale match reaper *)

(** The pending branch of processMatch, run forwards. *)
Lemma processMatch_pending (now : timestamptz) (rand1 rand2 : float)
    (id : uuid) (m : Match.row) (s : db) (ag1 ag2 : Agent.row) (mv1 mv2 : Move) :
  matches s !! id = Some m →
  Match.status m = Match.pending →
  agents s !! Match.agent1_id m = Some ag1 →
  agents s !! Match.agent2_id m = Some ag2 →
  Match.agent1_id m ≠ Match.agent2_id m →
  0 < Match.wager_amount m →
  settles_in_range (Match.wager_amount m) ag1 →
  settles_in_range (Match.wager_amount m) ag2 →
  move (computeMove s rand1 (Agent.strategy ag1) (Agent.strategy_state ag1)
          (Some (Match.agent1_id m))) = Some mv1 →
  move (computeMove s rand2 (Agent.strategy ag2) (Agent.strategy_state ag2)
          (Some (Match.agent2_id m))) = Some mv2 →
  let f1 := negb (is_some (Match.agent1_move_hash m)) in
  let f2 := negb (is_some (Match.agent2_move_hash m)) in
  ∃ s',
    processMatch now rand1 rand2 id m s
    = (s', Ok (mkProcessResult
                 (Match.winner_id (resolved_row now mv1 mv2 f1 f2 m))
                 mv1 mv2 f1 f2))
    ∧ matches s' !! id = Some (resolved_row now mv1 mv2 f1 f2 m).
Proof.
  intros Hm Hst Ha1 Ha2 Hne Hw Hr1 Hr2 Hmv1 Hmv2 f1 f2.
  assert (Hnc : Match.status m ≠ Match.complete) by (rewrite Hst; discriminate).
  destruct (resolve_match_effect now id mv1 mv2 f1 f2
              (jsonb_of_state
                 (newState (computeMove s rand1 (Agent.strategy ag1)
                              (Agent.strategy_state ag1)
                              (Some (Match.agent1_id m)))))
              (jsonb_of_state
                 (newState (computeMove s rand2 (Agent.strategy ag2)
                              (Agent.strategy_state ag2)
                              (Some (Match.agent2_id m)))))
              s m ag1 ag2 Hm Hnc Ha1 Ha2 Hne Hw Hr1 Hr2)
    as (s' & ag1' & ag2' & Hres & Hrow & _).
  exists s'. split; [| exact Hrow].
  unfold processMatch. rewrite Ha1, Ha2.
  unfold Match.is_pending. rewrite Hst. cbv iota beta zeta.
  rewrite Hmv1, Hmv2. fold f1 f2.
  rewrite (rpc_Ok _ _ _ _ Hres). reflexivity.
Qed.

Lemma stale_pending_listed (now : timestamptz) (id : uuid) (m : Match.row)
    (s : db) :
  matches s !! id = Some m →
  Match.status m = Match.pending →
  Match.commit_deadline m < now →
  In (id, m) (stale_matches now s).
Proof.
  intros Hm Hst Hdl. unfold stale_matches. apply filter_In. split.
  - apply list_elem_of_In, elem_of_map_to_list, Hm.
  - simpl. unfold is_stale, Match.is_pending. rewrite Hst. simpl.
    destruct (Z.ltb_spec (Match.commit_deadline m) now); [reflexivity | lia].
Qed.

(** C4 as stated fails on "snapshotted": in the timeout scenario the
    snapshot taken at match creation says always rock, A has since switched
    to always paper, and the reaper plays paper for A (and B's scissors
    win). *)
Lemma reaper_ignores_snapshot :
  matches duel_committed !! 20%N = Some duel_row
  ∧ In (20%N, duel_row) (stale_matches 130000000 duel_committed)
  ∧ Match.agent1_strategy duel_row = Always rock
  ∧ move (computeMove duel_committed 0 (Match.agent1_strategy duel_row) ∅
            (Some agent_A)) = Some rock
  ∧ r_agent1_move
      <$> ok_value (snd (processMatch 130000000 0 0 20 duel_row duel_committed))
    = Some paper
  ∧ r_winner_id
      <$> ok_value (snd (processMatch 130000000 0 0 20 duel_row duel_committed))
    = Some (Some agent_B).
Proof.
  split; [vm_compute; reflexivity |].
  split; [apply stale_pending_listed; vm_compute; reflexivity |].
  repeat split; vm_compute; reflexivity.
Qed.

(** C4, amended.  For a pending match whose commit deadline has passed, the
    reaper takes both final moves from the Strategy Executor run on the
    strategy and strategy state stored on each agent's row at sweep time;
    the commit hashes of the match are no input to either move. *)
Theorem pending_timeout_plays_current_strategies (now : timestamptz)
    (rand1 rand2 : float) (id : uuid) (m : Match.row) (s : db)
    (ag1 ag2 : Agent.row) (mv1 mv2 : Move) :
  matches s !! id = Some m →
  Match.status m = Match.pending →
  Match.commit_deadline m < now →
  agents s !! Match.agent1_id m = Some ag1 →
  agents s !! Match.agent2_id m = Some ag2 →
  Match.agent1_id m ≠ Match.agent2_id m →
  0 < Match.wager_amount m →
  settles_in_range (Match.wager_amount m) ag1 →
  settles_in_range (Match.wager_amount m) ag2 →
  move (computeMove s rand1 (Agent.strategy ag1) (Agent.strategy_state ag1)
          (Some (Match.agent1_id m))) = Some mv1 →
  move (computeMove s rand2 (Agent.strategy ag2) (Agent.strategy_state ag2)
          (Some (Match.agent2_id m))) = Some mv2 →
  In (id, m) (stale_matches now s)
  ∧ ∃ s' out m',
      processMatch now rand1 rand2 id m s = (s', Ok out)
      ∧ matches s' !! id = Some m'
      ∧ Match.status m' = Match.complete
      ∧ Match.agent1_move m' = Some mv1
      ∧ Match.agent2_move m' = Some mv2
      ∧ r_agent1_move out = mv1
      ∧ r_agent2_move out = mv2.
Proof.
  intros Hm Hst Hdl Ha1 Ha2 Hne Hw Hr1 Hr2 Hmv1 Hmv2.
  split; [by apply stale_pending_listed |].
  destruct (processMatch_pending now rand1 rand2 id m s ag1 ag2 mv1 mv2
              Hm Hst Ha1 Ha2 Hne Hw Hr1 Hr2 Hmv1 Hmv2) as (s' & Hp & Hrow).
  eexists s', _, _. split; [exact Hp |]. split; [exact Hrow |].
  repeat split; reflexivity.
Qed.

Lemma pending_timeout_plays_current_strategies_witness :
  ∃ s' out m',
    processMatch 130000000 0 0 20 duel_row duel_committed = (s', Ok out)
    ∧ matches s' !! 20%N = Some m'
    ∧ Match.agent1_move m' = Some paper
    ∧ Match.agent2_move m' = Some scissors
    ∧ Match.agent1_move_hash m' = Some lone_hash.
Proof.
  edestruct (pending_timeout_plays_current_strategies 130000000 0 0 20
               duel_row duel_committed)
    as (_ & s' & out & m' & Hp & Hrow & _ & Hm1 & Hm2 & _).
  - vm_compute. reflexivity.
  - reflexivity.
  - vm_compute. reflexivity.
  - vm_compute. reflexivity.
  - vm_compute. reflexivity.
  - vm_compute. discriminate.
  - vm_compute. reflexivity.
  - unfold settles_in_range, INT4_MAX. simpl. lia.
  - unfold settles_in_range, INT4_MAX. simpl. lia.
  - vm_compute. reflexivity.
  - vm_compute. reflexivity.
  - exists s', out, m'. split; [exact Hp |]. split; [exact Hrow |].
    split; [exact Hm1 |]. split; [exact Hm2 |].
    assert (Hp' : snd (processMatch 130000000 0 0 20 duel_row duel_committed)
                  = Ok out) by (rewrite Hp; reflexivity).
    assert (Hs' : fst (processMatch 130000000 0 0 20 duel_row duel_committed)
                  = s') by (rewrite Hp; reflexivity).
    rewrite <- Hs' in Hrow. vm_compute in Hrow. inversion Hrow. reflexivity.
Defined.

(** C10.  In the pending-timeout path each side's used_fallback flag is the
    negation of "this side had committed a hash", while each side's final
    move is the executor's: a side that committed is stamped
    used_fallback = false although its move came from its strategy. *)
Theorem pending_timeout_fallback_flags (now : timestamptz)
    (rand1 rand2 : float) (id : uuid) (m : Match.row) (s : db)
    (ag1 ag2 : Agent.row) (mv1 mv2 : Move) :
  matches s !! id = Some m →
  Match.status m = Match.pending →
  Match.commit_deadline m < now →
  agents s !! Match.agent1_id m = Some ag1 →
  agents s !! Match.agent2_id m = Some ag2 →
  Match.agent1_id m ≠ Match.agent2_id m →
  0 < Match.wager_amount m →
  settles_in_range (Match.wager_amount m) ag1 →
  settles_in_range (Match.wager_amount m) ag2 →
  move (computeMove s rand1 (Agent.strategy ag1) (Agent.strategy_state ag1)
          (Some (Match.agent1_id m))) = Some mv1 →
  move (computeMove s rand2 (Agent.strategy ag2) (Agent.strategy_state ag2)
          (Some (Match.agent2_id m))) = Some mv2 →
  ∃ s' out m',
    processMatch now rand1 rand2 id m s = (s', Ok out)
    ∧ matches s' !! id = Some m'
    ∧ (Match.agent1_used_fallback m' = true ↔ Match.agent1_move_hash m = None)
    ∧ (Match.agent2_used_fallback m' = true ↔ Match.agent2_move_hash m = None)
    ∧ r_agent1_fallback out = Match.agent1_used_fallback m'
    ∧ r_agent2_fallback out = Match.agent2_used_fallback m'
    ∧ Match.agent1_move m' = Some mv1
    ∧ Match.agent2_move m' = Some mv2.
Proof.
  intros Hm Hst Hdl Ha1 Ha2 Hne Hw Hr1 Hr2 Hmv1 Hmv2.
  destruct (processMatch_pending now rand1 rand2 id m s ag1 ag2 mv1 mv2
              Hm Hst Ha1 Ha2 Hne Hw Hr1 Hr2 Hmv1 Hmv2) as (s' & Hp & Hrow).
  eexists s', _, _. split; [exact Hp |]. split; [exact Hrow |]. simpl.
  split; [destruct (Match.agent1_move_hash m); simpl; split; congruence |].
  split; [destruct (Match.agent2_move_hash m); simpl; split; congruence |].
  repeat split; reflexivity.
Qed.

Lemma pending_timeout_fallback_flags_witness :
  ∃ s' out m',
    processMatch 130000000 0 0 20 duel_row duel_committed = (s', Ok out)
    ∧ matches s' !! 20%N = Some m'
    ∧ Match.agent1_move_hash duel_row = Some lone_hash
    ∧ Match.agent1_used_fallback m' = false
    ∧ Match.agent1_move m' = Some paper
    ∧ Match.agent2_move_hash duel_row = None
    ∧ Match.agent2_used_fallback m' = true
    ∧ Match.agent2_move m' = Some scissors.
Proof.
  edestruct (pending_timeout_fallback_flags 130000000 0 0 20
               duel_row duel_committed)
    as (s' & out & m' & Hp & Hrow & Hf1 & Hf2 & _ & _ & Hm1 & Hm2).
  - vm_compute. reflexivity.
  - reflexivity.
  - vm_compute. reflexivity.
  - vm_compute. reflexivity.
  - vm_compute. reflexivity.
  - vm_compute. discriminate.
  - vm_compute. reflexivity.
  - unfold settles_in_range, INT4_MAX. simpl. lia.
  - unfold settles_in_range, INT4_MAX. simpl. lia.
  - vm_compute. reflexivity.
  - vm_compute. reflexivity.
  - exists s', out, m'. split; [exact Hp |]. split; [exact Hrow |].
    split; [reflexivity |].
    split; [destruct (Match.agent1_used_fallback m'); [| reflexivity];
            destruct Hf1 as [Hf1 _]; specialize (Hf1 eq_refl); discriminate |].
    split; [exact Hm1 |]. split; [reflexivity |].
    split; [apply Hf2; reflexivity |]. exact Hm2.
Defined.

(** ** Commit and reveal *)

Section CommitReveal.

Variable sha256_hex : string → string.

(** The accepting half of commit-reveal soundness: a reveal of the committed
    move with the committed salt is stored.  The rejecting half of the
    spec's statement (another move with the same salt never verifies) says
    that SHA-256 has no collision among the three moves followed by one
    salt, for every salt; the code compares digests, and rejects exactly
    when they differ. *)
Lemma submit_reveal_accepts_commit (now : timestamptz) (id agent : uuid)
    (mv : Move) (salt : string) (s : db) (m : Match.row) (d : timestamptz) :
  matches s !! id = Some m →
  Match.status m = Match.waiting_reveals →
  Match.reveal_deadline m = Some d →
  now <= d →
  agent = Match.agent1_id m ∨ agent = Match.agent2_id m →
  participant_move m agent = None →
  participant_hash m agent
  = Some (fst (createCommit sha256_hex (move_text mv) salt)) →
  ∃ s' m',
    submit_reveal sha256_hex now id agent (move_text mv) salt s = Ok (s', m')
    ∧ matches s' !! id = Some m'
    ∧ participant_move m' agent = Some mv
    ∧ Match.status m' = Match.waiting_reveals.
Proof.
  intros Hm Hst Hd Hnow Hpart Hmove Hhash.
  unfold submit_reveal. rewrite Hm.
  unfold Match.is_waiting_reveals. rewrite Hst, Hd. simpl negb. cbv iota.
  destruct (Z.ltb_spec d now) as [Hlate | _]; [lia |].
  assert (Hp : N.eqb agent (Match.agent1_id m) || N.eqb agent (Match.agent2_id m)
               = true).
  { apply orb_true_iff. destruct Hpart as [-> | ->];
      [left | right]; apply N.eqb_refl. }
  rewrite Hp, move_of_text_text. simpl negb. cbv iota.
  unfold participant_move, participant_hash, createCommit in *. simpl in Hhash.
  assert (Hnc : ∀ r, Match.status r = Match.waiting_reveals →
                     sync_match_phase r = r).
  { intros r Hr. apply sync_match_phase_incomplete.
    unfold Match.is_complete. rewrite Hr. reflexivity. }
  destruct (N.eqb agent (Match.agent1_id m)) eqn:H1.
  - rewrite Hmove, Hhash. unfold hash_mismatch. rewrite String.eqb_refl.
    simpl. rewrite (update_match_Some _ _ _ _ Hm). simpl.
    rewrite lookup_insert_eq, Hnc by exact Hst.
    do 2 eexists. split; [reflexivity |].
    split; [simpl; rewrite lookup_insert_eq; reflexivity |].
    simpl. rewrite H1. split; [reflexivity | exact Hst].
  - rewrite Hmove, Hhash. unfold hash_mismatch. rewrite String.eqb_refl.
    simpl. rewrite (update_match_Some _ _ _ _ Hm). simpl.
    rewrite lookup_insert_eq, Hnc by exact Hst.
    do 2 eexists. split; [reflexivity |].
    split; [simpl; rewrite lookup_insert_eq; reflexivity |].
    simpl. rewrite H1. split; [reflexivity | exact Hst].
Qed.

(** C5.  submit_reveal rejects the reveal, and the call leaves the whole
    store as it was (the match row with its status, both balances, the
    transaction log), whenever the match is not in waiting_reveals (or does
    not exist), the reveal deadline has passed, the caller is not a
    participant, the participant has already revealed, or the digest of
    move || salt differs from the participant's stored commit hash; so a
    mismatching reveal stores no move at all. *)
Theorem submit_reveal_rejects (now : timestamptz) (id agent : uuid)
    (p_move p_salt : string) (s : db) :
  (∀ m, matches s !! id = Some m →
        Match.status m ≠ Match.waiting_reveals
        ∨ (∃ d, Match.reveal_deadline m = Some d ∧ d < now)
        ∨ (agent ≠ Match.agent1_id m ∧ agent ≠ Match.agent2_id m)
        ∨ is_Some (participant_move m agent)
        ∨ (∃ h, participant_hash m agent = Some h
                ∧ sha256_hex (p_move ++ p_salt)%string ≠ h)) →
  ∃ e, rpc (submit_reveal sha256_hex now id agent p_move p_salt) s = (s, Err e).
Proof.
  intros Hcond.
  assert (Herr : ∃ e, submit_reveal sha256_hex now id agent p_move p_salt s
                      = Err e).
  { unfold submit_reveal.
    destruct (matches s !! id) as [m |] eqn:Hm; [| eauto].
    specialize (Hcond m eq_refl).
    destruct (Match.is_waiting_reveals m) eqn:Hwr; simpl; [| eauto].
    destruct Hcond as [Hs | Hcond].
    { unfold Match.is_waiting_reveals in Hwr. destruct (Match.status m); done. }
    destruct (match Match.reveal_deadline m with
              | Some d => d <? now
              | None => false
              end) eqn:Hlate; [eauto |].
    destruct Hcond as [(d & Hd & Hl) | Hcond].
    { rewrite Hd in Hlate. destruct (Z.ltb_spec d now); [discriminate | lia]. }
    destruct (N.eqb agent (Match.agent1_id m) || N.eqb agent (Match.agent2_id m))
      eqn:Hpart; simpl; [| eauto].
    destruct Hcond as [[Hn1 Hn2] | Hcond].
    { apply orb_true_iff in Hpart as [Hp | Hp]; apply N.eqb_eq in Hp; congruence. }
    destruct (move_of_text p_move) as [mv |]; [| eauto].
    unfold participant_move, participant_hash in Hcond.
    destruct (N.eqb agent (Match.agent1_id m)).
    - destruct Hcond as [[x Hx] | (h & Hh & Hneq)].
      + rewrite Hx. simpl. eauto.
      + destruct (Match.agent1_move m); [simpl; eauto |].
        rewrite Hh. unfold hash_mismatch.
        destruct (String.eqb_spec (sha256_hex (p_move ++ p_salt)%string) h);
          [congruence | simpl; eauto].
    - destruct Hcond as [[x Hx] | (h & Hh & Hneq)].
      + rewrite Hx. simpl. eauto.
      + destruct (Match.agent2_move m); [simpl; eauto |].
        rewrite Hh. unfold hash_mismatch.
        destruct (String.eqb_spec (sha256_hex (p_move ++ p_salt)%string) h);
          [congruence | simpl; eauto]. }
  destruct Herr as [e He]. exists e. by apply rpc_Err.
Qed.

End CommitReveal.

(** The spec's hash-mismatch scenario: A, committed to rock, reveals paper
    with the same salt; the reveal is rejected and nothing changes. *)
Lemma submit_reveal_rejects_witness :
  Match.status <$> matches (reveal_stage plain_digest) !! 20%N
  = Some Match.waiting_reveals
  ∧ ∃ e, rpc (submit_reveal plain_digest 90000000 20 agent_A "paper" salt_A)
             (reveal_stage plain_digest)
         = (reveal_stage plain_digest, Err e).
Proof.
  split; [vm_compute; reflexivity |].
  apply submit_reveal_rejects.
  intros m Hm. vm_compute in Hm. inversion Hm; subst m; clear Hm.
  right. right. right. right.
  eexists. split; [vm_compute; reflexivity |].
  vm_compute. discriminate.
Defined.

(** ** Binary64 comparisons *)

Lemma SFcompare_antisym (x y : spec_float) :
  SFcompare y x = option_map CompOpp (SFcompare x y).
Proof.
  assert (Hpos : ∀ p q, Pos.compare_cont Eq p q
                        = CompOpp (Pos.compare_cont Eq q p))
    by (intros p q; apply (Pos.compare_antisym q p)).
  destruct x as [sx | sx | | sx mx ex], y as [sy | sy | | sy my ey];
    try destruct sx; try destruct sy; simpl; try reflexivity.
  all: rewrite (Z.compare_antisym ey ex), (Hpos my mx);
    destruct (ey ?= ex); simpl; try reflexivity;
    destruct (Pos.compare_cont Eq mx my); reflexivity.
Qed.

Lemma SFcompare_refl (x : spec_float) :
  x ≠ S754_nan → SFcompare x x = Some Eq.
Proof.
  destruct x as [sx | sx | | sx mx ex]; try destruct sx; simpl; try done;
    intros _; rewrite Z.compare_refl, Pos.compare_cont_refl; reflexivity.
Qed.

Lemma is_nan_Prim2SF (x : float) :
  PrimFloat.is_nan x = true ↔ Prim2SF x = S754_nan.
Proof.
  unfold PrimFloat.is_nan. rewrite FloatAxioms.eqb_spec. unfold SFeqb. split.
  - intros H. destruct (Prim2SF x) eqn:E; try reflexivity;
      rewrite SFcompare_refl in H by discriminate; discriminate.
  - intros ->. reflexivity.
Qed.

Lemma digits2_pos_bounds (m : positive) :
  2 ^ (Z.pos (digits2_pos m) - 1) <= Z.pos m < 2 ^ Z.pos (digits2_pos m).
Proof.
  induction m as [m IH | m IH |]; simpl digits2_pos.
  - rewrite Pos2Z.inj_succ.
    replace (Z.succ (Z.pos (digits2_pos m)) - 1) with (Z.pos (digits2_pos m)) by lia.
    rewrite Z.pow_succ_r by lia.
    replace (Z.pos (digits2_pos m)) with (Z.succ (Z.pos (digits2_pos m) - 1)) at 1 by lia.
    rewrite Z.pow_succ_r by lia. lia.
  - rewrite Pos2Z.inj_succ.
    replace (Z.succ (Z.pos (digits2_pos m)) - 1) with (Z.pos (digits2_pos m)) by lia.
    rewrite Z.pow_succ_r by lia.
    replace (Z.pos (digits2_pos m)) with (Z.succ (Z.pos (digits2_pos m) - 1)) at 1 by lia.
    rewrite Z.pow_succ_r by lia. lia.
  - simpl. lia.
Qed.

(** A valid binary64 mantissa has at most 53 bits, and exactly 53 above the
    subnormal exponent. *)
Lemma valid_mantissa (s : bool) (m : positive) (e : Z) :
  valid_binary (S754_finite s m e) = true →
  Z.pos m < 2 ^ 53 ∧ (-1074 < e → 2 ^ 52 <= Z.pos m).
Proof.
  simpl. unfold bounded, canonical_mantissa, fexp, SpecFloat.emin, prec, emax.
  intros H. apply andb_true_iff in H as [Hc _]. apply Z.eqb_eq in Hc.
  pose proof (digits2_pos_bounds m) as [Hlo Hhi].
  set (dg := Z.pos (digits2_pos m)) in *.
  assert (Hdg : dg <= 53) by lia.
  split.
  - eapply Z.lt_le_trans; [exact Hhi |]. apply Z.pow_le_mono_r; lia.
  - intros He. assert (dg = 53) by lia. subst dg. rewrite H in Hlo. exact Hlo.
Qed.

Lemma exact_quotient (m p : Z) :
  0 < p → (m mod p =? 0) = true → m = p * (m / p).
Proof.
  intros Hp Hm. apply Z.eqb_eq in Hm.
  pose proof (Z.div_mod m p ltac:(lia)). lia.
Qed.

(** Comparing a valid binary64 value that denotes the integer [k] with the
    normal number c = mc * 2^(-n) compares [k] with [c]. *)
Lemma compare_integer_constant (c n : Z) (mc : positive) (x : spec_float) (k : Z) :
  0 < n < 53 →
  Z.pos mc = c * 2 ^ n →
  2 ^ (52 - n) <= c < 2 ^ (53 - n) →
  valid_binary x = true →
  sf_integer x = Some k →
  SFcompare x (S754_finite false mc (- n)) = Some (k ?= c).
Proof.
  intros Hn Hmc Hc Hvalid Hk.
  assert (H0 : 0 < 2 ^ (52 - n)) by (apply Z.pow_pos_nonneg; lia).
  assert (Hlt : ∀ a, a < c → Some Lt = Some (a ?= c))
    by (intros a Ha; f_equal; symmetry; by apply Z.compare_lt_iff).
  assert (Hgt : ∀ a, c < a → Some Gt = Some (a ?= c))
    by (intros a Ha; f_equal; symmetry; by apply Z.compare_gt_iff).
  destruct x as [s | s | | s m e]; simpl in Hk; try discriminate.
  - inversion Hk; subst k. apply Hlt. lia.
  - pose proof (valid_mantissa s m e Hvalid) as [Hhi Hlo].
    assert (Hk0 : ∃ q, 0 <= q ∧ k = cond_Zopp s q ∧
                       ((0 <= e ∧ q = Z.pos m * 2 ^ e)
                        ∨ (e < 0 ∧ Z.pos m = 2 ^ (- e) * q))).
    { destruct (Z.leb_spec 0 e) as [He | He].
      - inversion Hk. eexists. split; [| split; [reflexivity | left; done]].
        apply Z.mul_nonneg_nonneg; [lia |]. apply Z.pow_nonneg. lia.
      - assert (Hp : 0 < 2 ^ (- e)) by (apply Z.pow_pos_nonneg; lia).
        destruct (Z.pos m mod 2 ^ (- e) =? 0) eqn:Hmod; [| discriminate].
        inversion Hk. eexists. split; [| split; [reflexivity | right]].
        + apply Z.div_pos; lia.
        + split; [lia |]. by apply exact_quotient. }
    destruct Hk0 as (q & Hq0 & -> & Hq).
    destruct s.
    + apply Hlt. simpl. lia.
    + change (Some match e ?= - n with
                   | Eq => Pos.compare_cont Eq m mc
                   | Lt => Lt
                   | Gt => Gt
                   end = Some (q ?= c)).
      destruct (Z.compare_spec e (- n)) as [He | He | He].
      * (* same exponent: the mantissas decide *)
        destruct Hq as [[He' _] | [_ Hm]]; [lia |].
        change (Pos.compare_cont Eq m mc) with (Z.pos m ?= Z.pos mc).
        rewrite Hm, Hmc, He, Z.opp_involutive, (Z.mul_comm (2 ^ n) q).
        rewrite <- Zmult_compare_compat_r
          by (apply Z.lt_gt, Z.pow_pos_nonneg; lia).
        reflexivity.
      * (* a smaller exponent: below 2^(52-n) *)
        destruct Hq as [[He' _] | [_ Hm]]; [lia |].
        assert (Hp : 2 ^ (n + 1) <= 2 ^ (- e)) by (apply Z.pow_le_mono_r; lia).
        assert (Hs : 2 ^ 53 = 2 ^ (52 - n) * 2 ^ (n + 1)).
        { rewrite <- Z.pow_add_r by lia. f_equal. lia. }
        assert (Ha : 0 < 2 ^ (n + 1)) by (apply Z.pow_pos_nonneg; lia).
        apply Hlt. nia.
      * (* a larger exponent: at least 2^(53-n) *)
        assert (Hm52 : 2 ^ 52 <= Z.pos m) by (apply Hlo; lia).
        assert (Hb : 0 < 2 ^ (53 - n)) by (apply Z.pow_pos_nonneg; lia).
        apply Hgt.
        destruct Hq as [[He' ->] | [He' Hm]].
        -- assert (Hp : 1 <= 2 ^ e)
             by (change 1 with (2 ^ 0); apply Z.pow_le_mono_r; lia).
           assert (Hs : 2 ^ (53 - n) <= 2 ^ 52) by (apply Z.pow_le_mono_r; lia).
           nia.
        -- assert (Hp : 2 ^ (- e) <= 2 ^ (n - 1)) by (apply Z.pow_le_mono_r; lia).
           assert (Hs : 2 ^ 52 = 2 ^ (53 - n) * 2 ^ (n - 1)).
           { rewrite <- Z.pow_add_r by lia. f_equal. lia. }
           assert (Ha : 0 < 2 ^ (- e)) by (apply Z.pow_pos_nonneg; lia).
           nia.
Qed.

(** ** Accepting a challenge *)

Lemma compare_with_10 (x : spec_float) (k : Z) :
  valid_binary x = true → sf_integer x = Some k →
  SFcompare x sf10 = Some (k ?= 10).
Proof.
  intros Hv Hk.
  apply (compare_integer_constant 10 49 5629499534213120 x k);
    first [assumption | reflexivity | lia].
Qed.

Lemma compare_with_120 (x : spec_float) (k : Z) :
  valid_binary x = true → sf_integer x = Some k →
  SFcompare x sf120 = Some (k ?= 120).
Proof.
  intros Hv Hk.
  apply (compare_integer_constant 120 46 8444249301319680 x k);
    first [assumption | reflexivity | lia].
Qed.

(** The clamp, by the position of the request relative to 10 and 120. *)
Lemma window_seconds_cases (req : float) :
  PrimFloat.is_nan req = false →
  ∃ o10 o120,
    SFcompare (Prim2SF req) sf10 = Some o10
    ∧ SFcompare (Prim2SF req) sf120 = Some o120
    ∧ window_seconds req
      = match o120 with
        | Gt => 120%float
        | _ => match o10 with
               | Gt => req
               | _ => 10%float
               end
        end.
Proof.
  intros Hnan. unfold window_seconds. rewrite Hnan. simpl negb. cbv iota.
  assert (Hx : Prim2SF req ≠ S754_nan).
  { intros E. apply is_nan_Prim2SF in E. congruence. }
  assert (H10 : ∃ o, SFcompare (Prim2SF req) sf10 = Some o).
  { destruct (Prim2SF req) as [s | s | | s m e]; [| | done |];
      eexists; reflexivity. }
  assert (H120 : ∃ o, SFcompare (Prim2SF req) sf120 = Some o).
  { destruct (Prim2SF req) as [s | s | | s m e]; [| | done |];
      eexists; reflexivity. }
  destruct H10 as [o10 H10], H120 as [o120 H120].
  exists o10, o120. split; [exact H10 |]. split; [exact H120 |].
  assert (Hmin : Math_min 120 req
                 = match o120 with Gt => 120%float | _ => req end).
  { unfold Math_min. rewrite Hnan.
    change (PrimFloat.is_nan 120) with false.
    change (PrimFloat.get_sign 120) with false. simpl orb. cbv iota.
    rewrite !ltb_spec. unfold SFltb.
    change (Prim2SF 120) with sf120.
    rewrite (SFcompare_antisym (Prim2SF req) sf120), H120. simpl.
    destruct o120; reflexivity. }
  rewrite Hmin. destruct o120; try reflexivity.
  all: unfold Math_max; rewrite Hnan;
    change (PrimFloat.is_nan 10) with false;
    change (PrimFloat.get_sign 10) with false; simpl orb; cbv iota;
    rewrite !ltb_spec; unfold SFltb;
    change (Prim2SF 10) with sf10;
    rewrite (SFcompare_antisym (Prim2SF req) sf10), H10; simpl;
    destruct o10; reflexivity.
Qed.

(** The window bound to the INTEGER parameter: a clamp of the request into
    [10, 120], and 60 for a request that is not a number. *)
Lemma window_seconds_integer (req : float) (ss : Z) :
  integer_value (window_seconds req) = Some ss →
  10 <= ss <= 120
  ∧ (PrimFloat.is_nan req = true → ss = 60)
  ∧ (∀ k, integer_value req = Some k → ss = Z.max 10 (Z.min 120 k)).
Proof.
  intros Hss. destruct (PrimFloat.is_nan req) eqn:Hnan.
  - unfold window_seconds in Hss. rewrite Hnan in Hss. simpl negb in Hss.
    cbv iota in Hss. vm_compute in Hss. inversion Hss; subst ss.
    split; [lia |]. split; [done |].
    intros k Hk. apply is_nan_Prim2SF in Hnan.
    unfold integer_value in Hk. rewrite Hnan in Hk. discriminate.
  - destruct (window_seconds_cases req Hnan) as (o10 & o120 & H10 & H120 & Hw).
    pose proof (Prim2SF_valid req) as Hvalid.
    assert (Hreq : ∀ k, integer_value req = Some k →
                        o10 = (k ?= 10) ∧ o120 = (k ?= 120)).
    { intros k Hk. unfold integer_value in Hk.
      pose proof (compare_with_10 _ _ Hvalid Hk) as E10.
      pose proof (compare_with_120 _ _ Hvalid Hk) as E120.
      split; congruence. }
    rewrite Hw in Hss.
    assert (Hcmp : ∀ a b, (a ?= b) = Gt ↔ b < a)
      by (intros a b; apply Z.compare_gt_iff).
    destruct o120.
    + (* the request is 120 *)
      destruct o10.
      * vm_compute in Hss. inversion Hss; subst ss.
        split; [lia |]. split; [done |]. intros k Hk.
        destruct (Hreq k Hk) as [E10 E120].
        symmetry in E10, E120. apply Z.compare_eq in E10, E120. lia.
      * vm_compute in Hss. inversion Hss; subst ss.
        split; [lia |]. split; [done |]. intros k Hk.
        destruct (Hreq k Hk) as [E10 E120].
        symmetry in E10, E120. apply Z.compare_eq in E120.
        rewrite Z.compare_lt_iff in E10. lia.
      * destruct (Hreq ss Hss) as [E10 E120].
        symmetry in E10, E120. apply Z.compare_eq in E120.
        rewrite Z.compare_gt_iff in E10.
        split; [lia |]. split; [done |]. intros k Hk.
        assert (k = ss) by congruence. lia.
    + (* the request is below 120 *)
      destruct o10.
      * vm_compute in Hss. inversion Hss; subst ss.
        split; [lia |]. split; [done |]. intros k Hk.
        destruct (Hreq k Hk) as [E10 E120].
        symmetry in E10, E120. apply Z.compare_eq in E10. lia.
      * vm_compute in Hss. inversion Hss; subst ss.
        split; [lia |]. split; [done |]. intros k Hk.
        destruct (Hreq k Hk) as [E10 E120].
        symmetry in E10, E120. rewrite Z.compare_lt_iff in E10. lia.
      * destruct (Hreq ss Hss) as [E10 E120].
        symmetry in E10, E120. rewrite Z.compare_lt_iff in E120.
        rewrite Z.compare_gt_iff in E10.
        split; [lia |]. split; [done |]. intros k Hk.
        assert (k = ss) by congruence. lia.
    + (* the request is above 120 *)
      vm_compute in Hss. inversion Hss; subst ss.
      split; [lia |]. split; [done |]. intros k Hk.
      destruct (Hreq k Hk) as [E10 E120].
      symmetry in E120. rewrite Z.compare_gt_iff in E120. lia.
Qed.


(** An integer request, like a request that is not a number, always gives
    a whole window. *)
Lemma window_seconds_whole (req : float) :
  PrimFloat.is_nan req = true ∨ is_Some (integer_value req) →
  is_Some (integer_value (window_seconds req)).
Proof.
  intros Hreq. destruct (PrimFloat.is_nan req) eqn:Hnan.
  - unfold window_seconds. rewrite Hnan. simpl negb. cbv iota.
    exists 60. vm_compute. reflexivity.
  - destruct Hreq as [Hn | Hk]; [discriminate |].
    destruct (window_seconds_cases req Hnan) as (o10 & o120 & _ & _ & Hw).
    rewrite Hw. destruct o120, o10; try exact Hk;
      first [by exists 10; vm_compute | by exists 120; vm_compute].
Qed.

(** A well-formed acceptance creates the match. *)
Lemma accept_challenge_succeeds (now : timestamptz)
    (new_id challengeId agent_id : uuid)
    (reqStrategySeconds reqCommitSeconds : float) (s : db)
    (c : Challenge.row) (challenger accepter : Agent.row) :
  challenges s !! challengeId = Some c →
  Challenge.status c = Challenge.open →
  Challenge.challenger_id c ≠ agent_id →
  agents s !! Challenge.challenger_id c = Some challenger →
  agents s !! agent_id = Some accepter →
  0 < Challenge.wager_amount c <= Agent.balance accepter →
  Agent.balance accepter <= INT4_MAX →
  matches s !! new_id = None →
  is_Some (integer_value (window_seconds reqStrategySeconds)) →
  is_Some (integer_value (window_seconds reqCommitSeconds)) →
  ∃ s' m,
    accept_challenge now new_id challengeId agent_id
      reqStrategySeconds reqCommitSeconds s = (s', Ok m).
Proof.
  intros Hc Hopen Hself Hch Hac Hbal Hmax Hfresh [ss Hss] [cs Hcs].
  destruct (window_seconds_integer _ _ Hss) as (Hs1 & _).
  destruct (window_seconds_integer _ _ Hcs) as (Hc1 & _).
  unfold accept_challenge, rpc, integer_param. rewrite Hss, Hcs.
  rewrite !int4_Ok by (unfold INT4_MIN, INT4_MAX; lia). simpl.
  unfold create_match. rewrite Hc. unfold Challenge.is_open. rewrite Hopen.
  simpl negb. cbv iota.
  rewrite bool_decide_eq_false_2 by exact Hself.
  rewrite Hch, Hac. cbv zeta beta iota.
  destruct (Z.ltb_spec (Agent.balance accepter) (Challenge.wager_amount c));
    [lia |].
  erewrite update_agent_Some; [| exact Hac | apply add_balance_Ok; lia].
  simpl. rewrite Hfresh.
  do 2 eexists. reflexivity.
Qed.



Section RequestWindows.

Variable StringToNumber : string → float.
Variable NumberToString : float → string.



End RequestWindows.



(** ** Chips in play *)

Lemma sum_of_insert_None {A} (f : A → Z) (t : gmap N A) (k : N) (x : A) :
  t !! k = None → sum_of f (<[k := x]> t) = f x + sum_of f t.
Proof.
  intros Hk. unfold sum_of. rewrite map_fold_insert_L; [reflexivity | | exact Hk].
  intros. lia.
Qed.

Lemma sum_of_insert_Some {A} (f : A → Z) (t : gmap N A) (k : N) (x y : A) :
  t !! k = Some y → sum_of f (<[k := x]> t) = sum_of f t - f y + f x.
Proof.
  intros Hk.
  rewrite <- (insert_delete_eq t k x).
  rewrite sum_of_insert_None by apply lookup_delete_eq.
  rewrite <- (insert_delete_id t k y Hk) at 2.
  rewrite sum_of_insert_None by apply lookup_delete_eq. lia.
Qed.

Lemma update_agent_chips (id : uuid) (set : Agent.row → res Agent.row) (d : Z)
    (s s' : db) :
  (∀ r r', set r = Ok r' → Agent.balance r' = Agent.balance r + d) →
  update_agent id set s = Ok s' →
  chips s' = chips s + match agents s !! id with Some _ => d | None => 0 end.
Proof.
  intros Hset Hu.
  apply update_agent_inv in Hu as [[Hn ->] | (r & r' & Hr & Hs & ->)].
  - rewrite Hn. lia.
  - rewrite Hr. unfold chips, total_balance. simpl.
    rewrite (sum_of_insert_Some _ _ _ _ _ Hr), (Hset _ _ Hs). lia.
Qed.

Lemma update_agent_constraints (id : uuid) (set : Agent.row → res Agent.row)
    (s s' : db) :
  (∀ r r', set r = Ok r' → 0 <= Agent.balance r <= INT4_MAX →
           0 <= Agent.balance r' <= INT4_MAX) →
  update_agent id set s = Ok s' → constraints_hold s → constraints_hold s'.
Proof.
  intros Hset Hu [Hbal Hpar].
  pose proof (update_agent_frame _ _ _ _ Hu) as (Hm & _ & _ & Hdom & _).
  split.
  - apply update_agent_inv in Hu as [[Hn ->] | (r & r' & Hr & Hs & ->)];
      [exact Hbal |].
    intros a x. simpl. destruct (decide (a = id)) as [-> |].
    + rewrite lookup_insert_eq. intros Hx. inversion Hx; subst x.
      eapply Hset; eauto.
    + rewrite lookup_insert_ne by done. apply Hbal.
  - intros mid m. rewrite Hm. intros Hmid.
    destruct (Hpar _ _ Hmid) as (Hne & H1 & H2).
    split; [exact Hne |]. split; apply Hdom; assumption.
Qed.

Lemma add_balance_in_range (d : Z) (r r' : Agent.row) :
  add_balance d r = Ok r' → 0 <= Agent.balance r <= INT4_MAX →
  0 <= Agent.balance r' <= INT4_MAX.
Proof. intros H _. apply add_balance_inv in H as [-> Hr]. exact Hr. Qed.

Lemma add_balance_moves (d : Z) (r r' : Agent.row) :
  add_balance d r = Ok r' → Agent.balance r' = Agent.balance r + d.
Proof. intros H. apply add_balance_inv in H as [-> _]. reflexivity. Qed.

Lemma keeps_balance_in_range (set : Agent.row → res Agent.row) :
  (∀ r r', set r = Ok r' → Agent.balance r' = Agent.balance r) →
  ∀ r r', set r = Ok r' → 0 <= Agent.balance r <= INT4_MAX →
          0 <= Agent.balance r' <= INT4_MAX.
Proof. intros Hset r r' Hs Hr. rewrite (Hset _ _ Hs). exact Hr. Qed.

Lemma keeps_balance_moves (set : Agent.row → res Agent.row) :
  (∀ r r', set r = Ok r' → Agent.balance r' = Agent.balance r) →
  ∀ r r', set r = Ok r' → Agent.balance r' = Agent.balance r + 0.
Proof. intros Hset r r' Hs. rewrite (Hset _ _ Hs). lia. Qed.

Lemma match_escrow_sync (m : Match.row) :
  match_escrow (sync_match_phase m) = match_escrow m.
Proof.
  unfold sync_match_phase, match_escrow.
  destruct (Match.is_complete m) eqn:Hc; [| by rewrite Hc].
  unfold Match.is_complete in *. simpl. by rewrite Hc.
Qed.

Lemma sync_match_phase_parties : keeps_parties sync_match_phase.
Proof.
  intros m. unfold sync_match_phase. destruct (Match.is_complete m); done.
Qed.

Lemma update_match_chips (id : uuid) (set : Match.row → Match.row) (s : db) :
  chips (update_match id set s)
  = chips s + match matches s !! id with
              | Some m => match_escrow (set m) - match_escrow m
              | None => 0
              end.
Proof.
  unfold update_match. destruct (matches s !! id) as [m |] eqn:Hm; [| lia].
  unfold chips, total_balance. simpl.
  rewrite (sum_of_insert_Some _ _ _ _ _ Hm), match_escrow_sync. lia.
Qed.

Lemma update_match_constraints (id : uuid) (set : Match.row → Match.row)
    (s : db) :
  keeps_parties set → constraints_hold s → constraints_hold (update_match id set s).
Proof.
  intros Hk [Hbal Hpar]. unfold update_match.
  destruct (matches s !! id) as [m |] eqn:Hm; [| done].
  split; [exact Hbal |]. simpl. intros mid x.
  destruct (decide (mid = id)) as [-> |].
  - rewrite lookup_insert_eq. intros Hx. inversion Hx; subst x.
    destruct (sync_match_phase_parties (set m)) as (-> & -> & _).
    destruct (Hk m) as (-> & -> & _). eauto.
  - rewrite lookup_insert_ne by done. apply Hpar.
Qed.

Lemma update_challenge_status_chips (id : uuid)
    (st : Challenge.challenge_status) (s : db) :
  chips (update_challenge_status id st s)
  = chips s + match challenges s !! id with
              | Some c => challenge_escrow (Challenge.with_status st c)
                          - challenge_escrow c
              | None => 0
              end.
Proof.
  unfold update_challenge_status.
  destruct (challenges s !! id) as [c |] eqn:Hc; [| lia].
  unfold chips, total_balance. simpl.
  rewrite (sum_of_insert_Some _ _ _ _ _ Hc). lia.
Qed.

Lemma update_challenge_status_constraints (id : uuid)
    (st : Challenge.challenge_status) (s : db) :
  constraints_hold s → constraints_hold (update_challenge_status id st s).
Proof.
  unfold update_challenge_status. destruct (challenges s !! id); done.
Qed.

Lemma insert_transaction_chips (t : Tx.row) (s s' : db) :
  insert_transaction t s = Ok s' →
  chips s' = chips s ∧ (constraints_hold s → constraints_hold s')
  ∧ agents s' = agents s ∧ matches s' = matches s.
Proof. intros H. apply insert_transaction_inv in H as (-> & _ & _). done. Qed.

Lemma insert_match_chips (id : uuid) (v : Match.row) (s : db) :
  matches s !! id = None →
  chips (with_matches (<[id := v]> (matches s)) s) = chips s + match_escrow v.
Proof.
  intros Hid. unfold chips, total_balance. simpl.
  rewrite (sum_of_insert_None _ _ _ _ Hid). lia.
Qed.

Lemma insert_match_constraints (id : uuid) (v : Match.row) (s : db) :
  Match.agent1_id v ≠ Match.agent2_id v →
  is_Some (agents s !! Match.agent1_id v) →
  is_Some (agents s !! Match.agent2_id v) →
  constraints_hold s →
  constraints_hold (with_matches (<[id := v]> (matches s)) s).
Proof.
  intros Hne H1 H2 [Hbal Hpar]. split; [exact Hbal |]. simpl. intros mid x.
  destruct (decide (mid = id)) as [-> |].
  - rewrite lookup_insert_eq. intros Hx. inversion Hx; subst x. done.
  - rewrite lookup_insert_ne by done. apply Hpar.
Qed.

Lemma insert_challenge_inv (id challenger : uuid) (wager : Z) (s s' : db)
    (c : Challenge.row) :
  insert_challenge id challenger wager s = Ok (s', c) →
  0 < wager ∧ is_Some (agents s !! challenger) ∧ challenges s !! id = None
  ∧ c = Challenge.mk challenger wager Challenge.open
  ∧ s' = with_challenges (<[id := c]> (challenges s)) s.
Proof.
  unfold insert_challenge. intros Hi.
  destruct (Z.ltb_spec 0 wager) as [Hpos | _]; simpl in Hi; [| discriminate].
  destruct (bool_decide (is_Some (agents s !! challenger))) eqn:Hfk;
    simpl in Hi; [| discriminate].
  apply bool_decide_eq_true in Hfk.
  destruct (challenges s !! id) eqn:Hid; [discriminate |].
  inversion Hi. done.
Qed.

Lemma escrow_wager_chips (a : uuid) (w : Z) (s s' : db) (b : bool) :
  constraints_hold s → escrow_wager a w s = Ok (s', b) →
  constraints_hold s'
  ∧ chips s' = chips s - (if b then match agents s !! a with
                                    | Some _ => w
                                    | None => 0
                                    end
                          else 0)
  ∧ challenges s' = challenges s
  ∧ (∀ x, is_Some (agents s' !! x) ↔ is_Some (agents s !! x)).
Proof.
  intros Hc He. unfold escrow_wager in He.
  destruct (agents s !! a) as [r |] eqn:Ha.
  - destruct (Agent.balance r <? w).
    + inversion He; subst. split; [exact Hc |]. split; [lia |]. done.
    + apply bind_Ok_inv in He as (s1 & Hs1 & He). inversion He; subst s1 b.
      pose proof (update_agent_frame _ _ _ _ Hs1) as (_ & Hch & _ & Hdom & _).
      split; [eapply update_agent_constraints;
              [apply add_balance_in_range | exact Hs1 | exact Hc] |].
      split; [| done].
      rewrite (update_agent_chips _ _ _ _ _ (add_balance_moves (- w)) Hs1), Ha.
      lia.
  - inversion He; subst. split; [exact Hc |]. split; [lia |]. done.
Qed.

Lemma refund_wager_chips (a : uuid) (w : Z) (s : db) :
  constraints_hold s →
  (∀ r, agents s !! a = Some r → 0 <= Agent.balance r + w <= INT4_MAX) →
  ∃ s', rpc (refund_wager a w) s = (s', Ok tt)
        ∧ constraints_hold s'
        ∧ chips s' = chips s + match agents s !! a with
                               | Some _ => w
                               | None => 0
                               end.
Proof.
  intros Hc Hr. unfold rpc, refund_wager.
  destruct (agents s !! a) as [r |] eqn:Ha.
  - erewrite update_agent_Some; [| exact Ha | apply add_balance_Ok, Hr; reflexivity].
    simpl. eexists. split; [reflexivity |].
    assert (Hu : update_agent a (add_balance w) s
                 = Ok (with_agents
                         (<[a := Agent.with_balance (Agent.balance r + w) r]>
                            (agents s)) s)).
    { erewrite update_agent_Some;
        [reflexivity | exact Ha | apply add_balance_Ok, Hr; reflexivity]. }
    split; [eapply update_agent_constraints;
            [apply add_balance_in_range | exact Hu | exact Hc] |].
    rewrite (update_agent_chips _ _ _ _ _ (add_balance_moves w) Hu), Ha.
    reflexivity.
  - unfold update_agent. rewrite Ha. simpl. eexists. split; [reflexivity |].
    split; [exact Hc | lia].
Qed.

Lemma insert_challenge_chips (id challenger : uuid) (wager : Z) (s s' : db)
    (c : Challenge.row) :
  constraints_hold s → insert_challenge id challenger wager s = Ok (s', c) →
  constraints_hold s' ∧ chips s' = chips s + wager.
Proof.
  intros Hc Hi. apply insert_challenge_inv in Hi as (_ & _ & Hid & -> & ->).
  split; [exact Hc |]. unfold chips, total_balance. simpl.
  rewrite (sum_of_insert_None _ _ _ _ Hid). unfold challenge_escrow. simpl. lia.
Qed.

Lemma post_challenge_chips (agent_id : uuid) (wager : Z) (new_id : uuid)
    (s : db) :
  constraints_hold s →
  constraints_hold (fst (post_challenge agent_id wager new_id s))
  ∧ chips (fst (post_challenge agent_id wager new_id s)) = chips s.
Proof.
  intros Hc.
  destruct (post_challenge agent_id wager new_id s) as [s' res'] eqn:Hp. simpl.
  unfold post_challenge in Hp.
  destruct (wager <=? 0); [inversion Hp; subst; split; [assumption | reflexivity] |].
  destruct (negb (is_ok (int4 wager))); [inversion Hp; subst; split; [assumption | reflexivity] |].
  unfold rpc at 1 in Hp.
  destruct (escrow_wager agent_id wager s) as [[s1 b] | e] eqn:He;
    [| inversion Hp; subst; split; [assumption | reflexivity]].
  pose proof (escrow_wager_inv _ _ _ _ _ He) as (_ & Hfalse & Htrue).
  destruct (escrow_wager_chips _ _ _ _ _ Hc He) as (Hc1 & Hch1 & _ & Hdom).
  destruct b; [| rewrite (Hfalse eq_refl) in Hp; inversion Hp; subst; split; [assumption | reflexivity]].
  unfold rpc at 1 in Hp.
  destruct (insert_challenge new_id agent_id wager s1) as [[s2 c] | e] eqn:Hi.
  - inversion Hp; subst s' res'.
    destruct (insert_challenge_chips _ _ _ _ _ _ Hc1 Hi) as (Hc2 & Hch2).
    split; [exact Hc2 |]. rewrite Hch2, Hch1.
    apply insert_challenge_inv in Hi as (_ & Hx & _).
    apply Hdom in Hx. destruct Hx as [r Hx]. rewrite Hx. lia.
  - destruct (refund_wager_chips agent_id wager s1 Hc1) as (s3 & Hs3 & Hc3 & Hch3).
    { intros r1 Hr1.
      assert (Hx : is_Some (agents s !! agent_id)) by (apply Hdom; eauto).
      destruct (Htrue eq_refl Hx) as (_ & Hb).
      destruct Hx as [r Hr]. unfold balance_of in Hb. rewrite Hr1, Hr in Hb.
      destruct Hc as [Hbal _]. specialize (Hbal _ _ Hr). lia. }
    rewrite Hs3 in Hp. inversion Hp; subst s' res'.
    split; [exact Hc3 |]. rewrite Hch3, Hch1.
    destruct (agents s !! agent_id) as [r |] eqn:Hr.
    + assert (Hx : is_Some (agents s1 !! agent_id)) by (apply Hdom; eauto).
      destruct Hx as [r1 Hr1]. rewrite Hr1. lia.
    + destruct (agents s1 !! agent_id) as [r1 |] eqn:Hr1; [| lia].
      assert (Hx : is_Some (agents s !! agent_id)) by (apply Hdom; eauto).
      destruct Hx as [r Hx]. congruence.
Qed.

Lemma cancel_challenge_chips (p_challenge_id p_agent_id : uuid) (s s' : db)
    (r : bool * Z * string) :
  constraints_hold s → cancel_challenge p_challenge_id p_agent_id s = Ok (s', r) →
  constraints_hold s' ∧ chips s' = chips s.
Proof.
  intros Hc Hcc. unfold cancel_challenge in Hcc.
  destruct (challenges s !! p_challenge_id) as [c |] eqn:Hch;
    [| inversion Hcc; subst; done].
  destruct (negb (bool_decide (Challenge.challenger_id c = p_agent_id)));
    [inversion Hcc; subst; done |].
  destruct (Challenge.is_open c) eqn:Hopen; simpl in Hcc;
    [| inversion Hcc; subst; done].
  apply bind_Ok_inv in Hcc as (s2 & Hs2 & Hcc).
  apply bind_Ok_inv in Hcc as (s3 & Hs3 & Hcc).
  inversion Hcc; subst s' r; clear Hcc.
  pose proof (update_challenge_status_chips p_challenge_id Challenge.cancelled s)
    as Hch1.
  pose proof (update_challenge_status_constraints p_challenge_id
                Challenge.cancelled s Hc) as Hc1.
  rewrite Hch in Hch1.
  pose proof (update_agent_constraints _ _ _ _
                (add_balance_in_range _) Hs2 Hc1) as Hc2.
  pose proof (update_agent_chips _ _ _ _ _ (add_balance_moves _) Hs2) as Hch2.
  pose proof (update_agent_frame _ _ _ _ Hs2) as (_ & _ & _ & Hdom & _).
  pose proof (insert_transaction_inv _ _ _ Hs3) as (_ & _ & Hto).
  destruct (insert_transaction_chips _ _ _ Hs3) as (Hch3 & Hc3 & _).
  simpl in Hto. apply Hdom in Hto. destruct Hto as [x Hx]. rewrite Hx in Hch2.
  split; [apply Hc3, Hc2 |].
  rewrite Hch3, Hch2, Hch1. unfold challenge_escrow. simpl. rewrite Hopen. lia.
Qed.

Lemma create_match_chips (now : timestamptz)
    (new_id p_challenge_id p_accepter_id : uuid)
    (p_strategy_seconds p_commit_seconds : Z) (s s' : db) (m : Match.row) :
  constraints_hold s →
  create_match now new_id p_challenge_id p_accepter_id
    p_strategy_seconds p_commit_seconds s = Ok (s', m) →
  constraints_hold s' ∧ chips s' = chips s.
Proof.
  intros Hc Hcm. unfold create_match in Hcm.
  destruct (challenges s !! p_challenge_id) as [c |] eqn:Hch; [| discriminate].
  destruct (Challenge.is_open c) eqn:Hopen; simpl in Hcm; [| discriminate].
  destruct (bool_decide (Challenge.challenger_id c = p_accepter_id)) eqn:Hself;
    [discriminate |].
  apply bool_decide_eq_false in Hself.
  destruct (agents s !! p_accepter_id) as [accepter |] eqn:Hacc.
  2: { apply bind_Ok_inv in Hcm as (s1 & _ & Hcm).
       destruct (agents s !! Challenge.challenger_id c); discriminate. }
  destruct (Agent.balance accepter <? Challenge.wager_amount c); [discriminate |].
  apply bind_Ok_inv in Hcm as (s1 & Hs1 & Hcm).
  destruct (agents s !! Challenge.challenger_id c) as [challenger |] eqn:Hcha;
    [| discriminate].
  destruct (matches s1 !! new_id) eqn:Hfresh; [discriminate |].
  inversion Hcm; subst s' m; clear Hcm.
  pose proof (update_agent_constraints _ _ _ _
                (add_balance_in_range _) Hs1 Hc) as Hc1.
  pose proof (update_agent_chips _ _ _ _ _ (add_balance_moves _) Hs1) as Hch1.
  pose proof (update_agent_frame _ _ _ _ Hs1) as (_ & Hcs1 & _ & Hdom & _).
  rewrite Hacc in Hch1.
  match goal with
  | |- context [update_challenge_status _ _ ?s2] => set (s2' := s2)
  end.
  assert (Hc2 : constraints_hold s2').
  { apply insert_match_constraints; simpl; [exact Hself | | | exact Hc1];
      apply Hdom; eauto. }
  assert (Hch2 : chips s2' = chips s1 + 2 * Challenge.wager_amount c).
  { subst s2'. rewrite (insert_match_chips _ _ _ Hfresh). reflexivity. }
  split; [apply update_challenge_status_constraints, Hc2 |].
  assert (Hcs2 : challenges s2' = challenges s1) by reflexivity.
  rewrite update_challenge_status_chips, Hcs2, Hcs1, Hch, Hch2, Hch1.
  unfold challenge_escrow. simpl. rewrite Hopen. lia.
Qed.

Lemma set_strategy_chips (agent_id : uuid) (body_strategy : option json)
    (s : db) :
  constraints_hold s →
  constraints_hold (fst (set_strategy agent_id body_strategy s))
  ∧ chips (fst (set_strategy agent_id body_strategy s)) = chips s.
Proof.
  intros Hc. unfold set_strategy.
  destruct body_strategy as [strategy |]; [| done].
  destruct (negb (js_truthy strategy)); [done |].
  destruct (negb (validateStrategy strategy)); [done |].
  destruct (as_Strategy strategy) as [st |]; [| done].
  destruct (agents s !! agent_id) as [a |] eqn:Ha; [| done].
  simpl. split.
  - destruct Hc as [Hbal Hpar]. split.
    + intros x r. simpl. destruct (decide (x = agent_id)) as [-> |].
      * rewrite lookup_insert_eq. intros Hr. inversion Hr. simpl. eauto.
      * rewrite lookup_insert_ne by done. apply Hbal.
    + intros id m Hm. destruct (Hpar _ _ Hm) as (Hne & H1 & H2).
      split; [exact Hne |]. simpl.
      split; [destruct (decide (Match.agent1_id m = agent_id)) as [-> |]
             | destruct (decide (Match.agent2_id m = agent_id)) as [-> |]];
        first [by rewrite lookup_insert_eq | by rewrite lookup_insert_ne].
  - unfold chips, total_balance. simpl.
    rewrite (sum_of_insert_Some _ _ _ _ _ Ha). simpl. lia.
Qed.

Lemma set_move_hash_parties (h : string) :
  keeps_parties (Match.set_agent1_move_hash h)
  ∧ keeps_parties (Match.set_agent2_move_hash h).
Proof. split; intros m; done. Qed.

Lemma set_reveal_parties (mv : Move) (salt : string) :
  keeps_parties (Match.set_agent1_reveal mv salt)
  ∧ keeps_parties (Match.set_agent2_reveal mv salt).
Proof. split; intros m; done. Qed.

Lemma set_waiting_reveals_parties (d : timestamptz) :
  keeps_parties (Match.set_waiting_reveals d).
Proof. intros m; done. Qed.

Lemma set_final_moves_parties (m1 m2 : Move) (f1 f2 : bool) :
  keeps_parties (Match.set_final_moves m1 m2 f1 f2).
Proof. intros m; done. Qed.

Lemma set_complete_parties (w : option uuid) (now : timestamptz) :
  keeps_parties (Match.set_complete w now).
Proof. intros m; done. Qed.

(** An update of one match row that leaves its escrow alone changes
    neither the chips in play nor the constraints. *)
Lemma update_match_neutral (id : uuid) (set : Match.row → Match.row) (s : db) :
  keeps_parties set →
  (∀ m, matches s !! id = Some m → match_escrow (set m) = match_escrow m) →
  constraints_hold s →
  constraints_hold (update_match id set s)
  ∧ chips (update_match id set s) = chips s.
Proof.
  intros Hk He Hc. split; [by apply update_match_constraints |].
  rewrite update_match_chips.
  destruct (matches s !! id) as [m |] eqn:Hm; [| lia].
  rewrite (He m eq_refl). lia.
Qed.

Lemma submit_commit_chips (now : timestamptz) (id agent : uuid) (h : string)
    (rs : Z) (s s' : db) (m' : Match.row) :
  constraints_hold s → submit_commit now id agent h rs s = Ok (s', m') →
  constraints_hold s' ∧ chips s' = chips s.
Proof.
  intros Hc Hs. unfold submit_commit in Hs.
  destruct (matches s !! id) as [m |] eqn:Hm; [| discriminate].
  destruct (Match.is_pending m) eqn:Hp; simpl in Hs; [| discriminate].
  destruct (match Match.strategy_deadline m with
            | Some d => now <? d
            | None => false
            end); [discriminate |].
  destruct (Match.commit_deadline m <? now); [discriminate |].
  destruct (negb (N.eqb agent (Match.agent1_id m)
                  || N.eqb agent (Match.agent2_id m))); [discriminate |].
  apply bind_Ok_inv in Hs as (s1 & Hs1 & Hs).
  assert (H1 : constraints_hold s1 ∧ chips s1 = chips s
               ∧ ∀ v, matches s1 !! id = Some v → Match.is_complete v = false).
  { assert (Hnc : ∀ set, (∀ x, Match.status (set x) = Match.status x) →
                    ∀ v, matches (update_match id set s) !! id = Some v →
                         Match.is_complete v = false).
    { intros set Hst v. rewrite (update_match_Some _ _ _ _ Hm). simpl.
      rewrite lookup_insert_eq. intros Hv. inversion Hv.
      unfold sync_match_phase, Match.is_complete, Match.is_pending in *.
      specialize (Hst m). destruct (Match.status (set m)) eqn:Hx;
        simpl; rewrite ?Hx; try reflexivity.
      rewrite <- Hst in Hp. discriminate. }
    destruct (N.eqb agent (Match.agent1_id m)).
    - destruct (Match.agent1_move_hash m); [discriminate |].
      inversion Hs1; subst s1.
      destruct (update_match_neutral id (Match.set_agent1_move_hash h) s)
        as (Hc1 & Hch1);
        [apply set_move_hash_parties | done | exact Hc |].
      split; [exact Hc1 |]. split; [exact Hch1 |]. by apply Hnc.
    - destruct (Match.agent2_move_hash m); [discriminate |].
      inversion Hs1; subst s1.
      destruct (update_match_neutral id (Match.set_agent2_move_hash h) s)
        as (Hc1 & Hch1);
        [apply set_move_hash_parties | done | exact Hc |].
      split; [exact Hc1 |]. split; [exact Hch1 |]. by apply Hnc. }
  destruct H1 as (Hc1 & Hch1 & Hnc1).
  match type of Hs with
  | match matches ?s2 !! _ with _ => _ end = _ => set (s2' := s2) in *
  end.
  destruct (matches s2' !! id) as [v |]; inversion Hs; subst s' m'; clear Hs.
  subst s2'. destruct (matches s1 !! id) as [v1 |] eqn:Hv1; [| done].
  destruct (Match.agent1_move_hash v1); [| done].
  destruct (Match.agent2_move_hash v1); [| done].
  rewrite <- Hch1. apply update_match_neutral;
    [apply set_waiting_reveals_parties | | exact Hc1].
  intros x Hx. rewrite Hv1 in Hx. inversion Hx; subst x.
  unfold match_escrow. rewrite (Hnc1 _ eq_refl). reflexivity.
Qed.

Lemma submit_reveal_chips (sha256_hex : string → string) (now : timestamptz)
    (id agent : uuid) (p_move p_salt : string) (s s' : db) (m' : Match.row) :
  constraints_hold s →
  submit_reveal sha256_hex now id agent p_move p_salt s = Ok (s', m') →
  constraints_hold s' ∧ chips s' = chips s.
Proof.
  intros Hc Hs. unfold submit_reveal in Hs.
  destruct (matches s !! id) as [m |] eqn:Hm; [| discriminate].
  destruct (negb (Match.is_waiting_reveals m)); [discriminate |].
  destruct (match Match.reveal_deadline m with
            | Some d => d <? now
            | None => false
            end); [discriminate |].
  destruct (negb (N.eqb agent (Match.agent1_id m)
                  || N.eqb agent (Match.agent2_id m))); [discriminate |].
  destruct (move_of_text p_move) as [mv |]; [| discriminate].
  apply bind_Ok_inv in Hs as (s1 & Hs1 & Hs).
  destruct (matches s1 !! id) as [v |]; inversion Hs; subst s' m'; clear Hs.
  destruct (N.eqb agent (Match.agent1_id m)).
  - destruct (Match.agent1_move m); [discriminate |].
    destruct (hash_mismatch _ _); [discriminate |].
    inversion Hs1. apply update_match_neutral;
      [apply set_reveal_parties | done | exact Hc].
  - destruct (Match.agent2_move m); [discriminate |].
    destruct (hash_mismatch _ _); [discriminate |].
    inversion Hs1. apply update_match_neutral;
      [apply set_reveal_parties | done | exact Hc].
Qed.

Lemma update_agents_in_chips (a1 a2 : uuid) (set : Agent.row → res Agent.row)
    (d : Z) (s s' : db) :
  a1 ≠ a2 → is_Some (agents s !! a1) → is_Some (agents s !! a2) →
  (∀ r r', set r = Ok r' → Agent.balance r' = Agent.balance r + d) →
  (∀ r r', set r = Ok r' → 0 <= Agent.balance r <= INT4_MAX →
           0 <= Agent.balance r' <= INT4_MAX) →
  constraints_hold s →
  update_agents_in a1 a2 set s = Ok s' →
  constraints_hold s' ∧ chips s' = chips s + 2 * d
  ∧ matches s' = matches s
  ∧ (∀ a, is_Some (agents s' !! a) ↔ is_Some (agents s !! a)).
Proof.
  intros Hne [r1 H1] [r2 H2] Hmove Hrange Hc Hu. unfold update_agents_in in Hu.
  apply bind_Ok_inv in Hu as (sx & Hsx & Hu).
  destruct (decide (a1 = a2)); [done |].
  pose proof (update_agent_frame _ _ _ _ Hsx) as (Hmx & _ & _ & Hdx & Hox).
  pose proof (update_agent_frame _ _ _ _ Hu) as (Hmu & _ & _ & Hdu & _).
  pose proof (update_agent_chips _ _ _ _ _ Hmove Hsx) as Hcx.
  pose proof (update_agent_chips _ _ _ _ _ Hmove Hu) as Hcu.
  rewrite H1 in Hcx. rewrite (Hox a2) in Hcu by congruence. rewrite H2 in Hcu.
  split; [eapply update_agent_constraints; [exact Hrange | exact Hu |];
          eapply update_agent_constraints; [exact Hrange | exact Hsx | exact Hc] |].
  split; [lia |]. split; [congruence |].
  intros a. rewrite Hdu. apply Hdx.
Qed.

Lemma determine_winner_cases (v : Match.row) (m1 m2 : Move) :
  (m1 = m2 ∧ determine_winner v m1 m2 = (None, None))
  ∨ (m1 ≠ m2
     ∧ (determine_winner v m1 m2
        = (Some (Match.agent1_id v), Some (Match.agent2_id v))
        ∨ determine_winner v m1 m2
          = (Some (Match.agent2_id v), Some (Match.agent1_id v)))).
Proof.
  destruct m1, m2; unfold determine_winner; simpl;
    first [left; split; [reflexivity | reflexivity]
          | right; split; [discriminate | auto]].
Qed.

Lemma resolve_match_chips (now : timestamptz) (id : uuid) (p1 p2 : string)
    (f1 f2 : bool) (st1 st2 : gmap string jsval) (s s' : db) (m' : Match.row) :
  constraints_hold s →
  resolve_match now id p1 p2 f1 f2 st1 st2 s = Ok (s', m') →
  constraints_hold s' ∧ chips s' = chips s.
Proof.
  intros Hc Hr. unfold resolve_match in Hr.
  destruct (matches s !! id) as [m |] eqn:Hm; [| discriminate].
  destruct (Match.is_complete m) eqn:Hnc; [discriminate |].
  destruct (move_of_text p1) as [m1 |]; [| discriminate].
  destruct (move_of_text p2) as [m2 |]; [| discriminate].
  destruct (proj2 Hc _ _ Hm) as (Hne & Hx1 & Hx2).
  set (a1 := Match.agent1_id m) in *. set (a2 := Match.agent2_id m) in *.
  set (w := Match.wager_amount m) in *.
  set (s1 := update_match id (Match.set_final_moves m1 m2 f1 f2) s) in *.
  destruct (update_match_neutral id (Match.set_final_moves m1 m2 f1 f2) s)
    as (Hc1 & Hch1); [apply set_final_moves_parties | done | exact Hc |].
  fold s1 in Hc1, Hch1.
  pose proof (update_match_frame id (Match.set_final_moves m1 m2 f1 f2) s)
    as (Hag1 & _ & _). fold s1 in Hag1.
  assert (Hrow1 : matches s1 !! id = Some (Match.set_final_moves m1 m2 f1 f2 m)).
  { subst s1. rewrite (update_match_Some _ _ _ _ Hm). simpl.
    rewrite lookup_insert_eq, sync_match_phase_incomplete; done. }
  destruct (determine_winner m m1 m2) as [v_winner_id v_loser_id] eqn:Hdw.
  apply bind_Ok_inv in Hr as (s2 & Hs2 & Hr).
  apply bind_Ok_inv in Hr as (s4 & Hs4 & Hr).
  apply bind_Ok_inv in Hr as (s5 & Hs5 & Hr).
  set (s3 := update_match id (Match.set_complete v_winner_id now) s2) in *.
  destruct (matches s5 !! id) as [v |]; inversion Hr; subst s5 v; clear Hr.
  assert (H2 : constraints_hold s2 ∧ chips s2 = chips s1 + 2 * w
               ∧ matches s2 = matches s1).
  { rewrite <- Hag1 in Hx1, Hx2.
    destruct (determine_winner_cases m m1 m2) as [[-> Hd] | [Hdiff Hd]].
    - rewrite bool_decide_eq_true_2 in Hs2 by reflexivity.
      apply bind_Ok_inv in Hs2 as (sa & Hsa & Hs2).
      apply bind_Ok_inv in Hs2 as (sb & Hsb & Hs2).
      apply bind_Ok_inv in Hs2 as (sc & Hsc & Hs2).
      destruct (update_agents_in_chips _ _ _ _ _ _ Hne Hx1 Hx2
                  (add_balance_moves w) (add_balance_in_range w) Hc1 Hsa)
        as (Hca & Hcha & Hma & Hda).
      destruct (insert_transaction_chips _ _ _ Hsb) as (Hchb & Hcb & Hab & Hmb).
      destruct (insert_transaction_chips _ _ _ Hsc) as (Hchc & Hcc & Hac & Hmc).
      destruct (update_agents_in_chips a1 a2 incr_draws 0 sc s2) as
        (Hc2 & Hch2 & Hm2 & _);
        [exact Hne | rewrite Hac, Hab; apply Hda, Hx1
         | rewrite Hac, Hab; apply Hda, Hx2
         | apply keeps_balance_moves, incr_draws_balance
         | apply keeps_balance_in_range, incr_draws_balance
         | apply Hcc, Hcb, Hca | exact Hs2 |].
      split; [exact Hc2 |]. split; [lia | congruence].
    - rewrite bool_decide_eq_false_2 in Hs2 by exact Hdiff.
      apply bind_Ok_inv in Hs2 as (w2 & Hw2 & Hs2).
      apply int4_inv in Hw2 as [-> _].
      apply bind_Ok_inv in Hs2 as (sa & Hsa & Hs2).
      apply bind_Ok_inv in Hs2 as (sb & Hsb & Hs2).
      apply bind_Ok_inv in Hs2 as (sc & Hsc & Hs2).
      assert (Hwl : ∃ wid lid, v_winner_id = Some wid ∧ v_loser_id = Some lid
                               ∧ is_Some (agents s1 !! wid)).
      { rewrite Hdw in Hd. destruct Hd as [Hd | Hd]; inversion Hd; eauto. }
      destruct Hwl as (wid & lid & -> & -> & Hxw). simpl in Hsa, Hsc, Hs2.
      destruct Hxw as [rw Hrw].
      pose proof (update_agent_constraints _ _ _ _
                    (add_balance_in_range _) Hsa Hc1) as Hca.
      pose proof (update_agent_chips _ _ _ _ _ (add_balance_moves _) Hsa) as Hcha.
      rewrite Hrw in Hcha.
      pose proof (update_agent_frame _ _ _ _ Hsa) as (Hma & _ & _ & _ & _).
      destruct (insert_transaction_chips _ _ _ Hsb) as (Hchb & Hcb & Hab & Hmb).
      pose proof (update_agent_constraints _ _ _ _
                    (keeps_balance_in_range _ incr_wins_balance) Hsc
                    (Hcb Hca)) as Hcc.
      pose proof (update_agent_chips _ _ _ _ _
                    (keeps_balance_moves _ incr_wins_balance) Hsc) as Hchc.
      pose proof (update_agent_frame _ _ _ _ Hsc) as (Hmc & _ & _ & _ & _).
      pose proof (update_agent_constraints _ _ _ _
                    (keeps_balance_in_range _ incr_losses_balance) Hs2
                    Hcc) as Hc2.
      pose proof (update_agent_chips _ _ _ _ _
                    (keeps_balance_moves _ incr_losses_balance) Hs2) as Hch2.
      pose proof (update_agent_frame _ _ _ _ Hs2) as (Hm2 & _ & _ & _ & _).
      split; [exact Hc2 |]. split; [| congruence].
      rewrite Hch2, Hchc, Hchb, Hcha.
      destruct (agents sc !! lid), (agents sb !! wid); lia. }
  destruct H2 as (Hc2 & Hch2 & Hm2).
  assert (H3 : constraints_hold s3 ∧ chips s3 = chips s2 - 2 * w).
  { subst s3. split; [apply update_match_constraints;
                      [apply set_complete_parties | exact Hc2] |].
    rewrite update_match_chips, Hm2, Hrow1. unfold match_escrow.
    simpl. fold w. unfold Match.is_complete in Hnc |- *. simpl.
    rewrite Hnc. lia. }
  destruct H3 as (Hc3 & Hch3).
  pose proof (update_agent_constraints _ _ _ _
                (keeps_balance_in_range _ (set_strategy_state_balance st1))
                Hs4 Hc3) as Hc4.
  pose proof (update_agent_chips _ _ _ _ _
                (keeps_balance_moves _ (set_strategy_state_balance st1))
                Hs4) as Hch4.
  pose proof (update_agent_constraints _ _ _ _
                (keeps_balance_in_range _ (set_strategy_state_balance st2))
                Hs5 Hc4) as Hc5.
  pose proof (update_agent_chips _ _ _ _ _
                (keeps_balance_moves _ (set_strategy_state_balance st2))
                Hs5) as Hch5.
  split; [exact Hc5 |].
  rewrite Hch5, Hch4, Hch3, Hch2, Hch1.
  destruct (agents s4 !! a2), (agents s3 !! a1); lia.
Qed.

Lemma rpc_fst {A} (f : db → res (db * A)) (s : db) (P : db → Prop) :
  P s → (∀ s' a, f s = Ok (s', a) → P s') → P (fst (rpc f s)).
Proof.
  intros Hs Hok. unfold rpc. destruct (f s) as [[s' a] | e] eqn:Hf; simpl;
    [eapply Hok; reflexivity | exact Hs].
Qed.

Lemma rpc_inv {A} (f : db → res (db * A)) (s s' : db) (r : res A) :
  rpc f s = (s', r) →
  (∃ a, f s = Ok (s', a) ∧ r = Ok a) ∨ (∃ e, s' = s ∧ r = Err e).
Proof.
  unfold rpc. destruct (f s) as [[s1 a] | e]; intros H; inversion H; eauto.
Qed.

Section ChipsInPlay.

Variable sha256_hex : string → string.

Lemma accept_challenge_chips (now : timestamptz)
    (new_id challengeId agent_id : uuid) (ss cs : float) (s : db) :
  constraints_hold s →
  constraints_hold (fst (accept_challenge now new_id challengeId agent_id ss cs s))
  ∧ chips (fst (accept_challenge now new_id challengeId agent_id ss cs s))
    = chips s.
Proof.
  intros Hc. unfold accept_challenge.
  apply (rpc_fst _ s (fun s' => constraints_hold s' ∧ chips s' = chips s));
    [done |].
  intros s' m Hm.
  apply bind_Ok_inv in Hm as (p1 & _ & Hm).
  apply bind_Ok_inv in Hm as (p2 & _ & Hm).
  eapply create_match_chips; eassumption.
Qed.

Lemma commit_move_chips (now : timestamptz) (agent_id : uuid)
    (match_id : option uuid) (move_hash : option json) (s : db) :
  constraints_hold s →
  constraints_hold (fst (commit_move now agent_id match_id move_hash s))
  ∧ chips (fst (commit_move now agent_id match_id move_hash s)) = chips s.
Proof.
  intros Hc.
  destruct (commit_move now agent_id match_id move_hash s) as [s' r] eqn:Hcm.
  simpl. unfold commit_move in Hcm.
  destruct match_id as [id |]; [| inversion Hcm; subst; done].
  destruct move_hash as [[| | | h | |] |]; try (inversion Hcm; subst; done).
  destruct (negb (js_length h =? 64)%nat); [inversion Hcm; subst; done |].
  destruct (rpc (submit_commit now id agent_id h 60) s) as [s1 r1] eqn:Hrpc.
  apply rpc_inv in Hrpc as [(m & Hs & ->) | (e & -> & ->)];
    inversion Hcm; subst; [| done].
  eapply submit_commit_chips; eassumption.
Qed.

Lemma processMatch_chips (now : timestamptz) (rand1 rand2 : float) (id : uuid)
    (row : Match.row) (s : db) :
  constraints_hold s →
  constraints_hold (fst (processMatch now rand1 rand2 id row s))
  ∧ chips (fst (processMatch now rand1 rand2 id row s)) = chips s.
Proof.
  intros Hc.
  destruct (processMatch now rand1 rand2 id row s) as [s' r] eqn:Hp. simpl.
  unfold processMatch in Hp.
  repeat case_match; inversion Hp; subst; try done;
    match goal with
    | H : rpc _ _ = _ |- _ =>
        apply rpc_inv in H as [(? & Hs & ?) | (? & -> & ?)]
    end;
    first [discriminate | done | eapply resolve_match_chips; eassumption].
Qed.

Lemma resolveMatch_chips (now : timestamptz) (rand1 rand2 : float) (id : uuid)
    (row : Match.row) (m1 m2 : Move) (agent : uuid) (s : db) :
  constraints_hold s →
  constraints_hold (fst (resolveMatch now rand1 rand2 id row m1 m2 agent s))
  ∧ chips (fst (resolveMatch now rand1 rand2 id row m1 m2 agent s)) = chips s.
Proof.
  intros Hc.
  destruct (resolveMatch now rand1 rand2 id row m1 m2 agent s) as [s' r] eqn:Hp.
  simpl. unfold resolveMatch in Hp.
  destruct (agents s !! Match.agent1_id row) as [agent1 |];
    [| inversion Hp; subst; done].
  destruct (agents s !! Match.agent2_id row) as [agent2 |];
    [| inversion Hp; subst; done].
  match type of Hp with
  | (let (_, _) := ?t in _) = _ => destruct t as [s1 r1] eqn:Hrpc
  end.
  apply rpc_inv in Hrpc as [(m & Hs & ->) | (e & -> & ->)];
    inversion Hp; subst; [| done].
  eapply resolve_match_chips; eassumption.
Qed.

Lemma reveal_move_chips (now now' : timestamptz) (rand1 rand2 : float)
    (agent_id : uuid) (match_id : option uuid) (move salt : option json)
    (s : db) :
  constraints_hold s →
  constraints_hold
    (fst (reveal_move sha256_hex now now' rand1 rand2 agent_id match_id
            move salt s))
  ∧ chips (fst (reveal_move sha256_hex now now' rand1 rand2 agent_id match_id
                  move salt s)) = chips s.
Proof.
  intros Hc.
  destruct (reveal_move sha256_hex now now' rand1 rand2 agent_id match_id
              move salt s) as [s' r] eqn:Hp.
  simpl. unfold reveal_move in Hp.
  destruct match_id as [id |]; [| inversion Hp; subst; done].
  destruct (as_move move) as [mv |]; [| inversion Hp; subst; done].
  destruct salt as [[| | | sl | |] |]; try (inversion Hp; subst; done).
  destruct (js_length sl <? 16)%nat; [inversion Hp; subst; done |].
  destruct (rpc (submit_reveal sha256_hex now id agent_id (move_text mv) sl) s)
    as [s1 r1] eqn:Hrpc.
  apply rpc_inv in Hrpc as [(m & Hs & ->) | (e & -> & ->)];
    [| inversion Hp; subst; done].
  destruct (submit_reveal_chips _ _ _ _ _ _ _ _ _ Hc Hs) as (Hc1 & Hch1).
  destruct (Match.agent1_move m) as [m1 |];
    [| inversion Hp; subst; done].
  destruct (Match.agent2_move m) as [m2 |];
    [| inversion Hp; subst; done].
  pose proof (resolveMatch_chips now' rand1 rand2 id m m1 m2 agent_id s1 Hc1)
    as Hres.
  rewrite Hp in Hres. simpl in Hres. destruct Hres as (Hc2 & Hch2).
  split; [exact Hc2 | congruence].
Qed.

Lemma run_chips (a : action) (s : db) :
  constraints_hold s →
  constraints_hold (run sha256_hex a s) ∧ chips (run sha256_hex a s) = chips s.
Proof.
  intros Hc. destruct a; simpl.
  - by apply post_challenge_chips.
  - apply (rpc_fst _ s (fun s' => constraints_hold s' ∧ chips s' = chips s));
      [done |].
    intros s' r Hr. eapply cancel_challenge_chips; eassumption.
  - by apply accept_challenge_chips.
  - by apply set_strategy_chips.
  - by apply commit_move_chips.
  - by apply reveal_move_chips.
  - by apply processMatch_chips.
Qed.

End ChipsInPlay.

Lemma constraints_hold_arena : constraints_hold arena.
Proof.
  split.
  - intros a r Ha. unfold arena in Ha. simpl in Ha.
    apply lookup_insert_Some in Ha as [[_ <-] | [_ Ha]];
      [vm_compute; split; discriminate |].
    apply lookup_insert_Some in Ha as [[_ <-] | [_ Ha]];
      [vm_compute; split; discriminate |].
    rewrite lookup_empty in Ha. discriminate.
  - intros id m Hm. unfold arena in Hm. simpl in Hm.
    rewrite lookup_empty in Hm. discriminate.
Qed.

(** X1.  No call creates or destroys chips.  Counting every balance, the
    wager of every open challenge and both wagers of every match that is
    not complete, the total is the same after any sequence of calls
    (posting, cancelling and accepting challenges, changing strategy,
    committing, revealing, reaping), whether each call succeeded or failed:
    escrow, refund and settlement always balance out. *)
Theorem chips_are_conserved (sha256_hex : string → string)
    (acts : list action) (s : db) :
  constraints_hold s → chips (run_all sha256_hex acts s) = chips s.
Proof.
  revert s. induction acts as [| a acts IH]; intros s Hc; [reflexivity |].
  simpl. destruct (run_chips sha256_hex a s Hc) as (Hc1 & Hch1).
  rewrite (IH _ Hc1). exact Hch1.
Qed.

Lemma chips_are_conserved_witness :
  chips arena = 2000
  ∧ chips (run_all padded_digest live_match arena) = 2000
  ∧ balance_of (run_all padded_digest live_match arena) agent_A = 1050
  ∧ balance_of (run_all padded_digest live_match arena) agent_B = 950.
Proof.
  split; [vm_compute; reflexivity |].
  split; [| split; vm_compute; reflexivity].
  rewrite (chips_are_conserved padded_digest live_match arena constraints_hold_arena).
  vm_compute; reflexivity.
Defined.

(** X2.  The schema's constraints survive every sequence of calls: no
    balance ever leaves the range of a non-negative INTEGER, and the two
    sides of every match remain two different registered agents. *)
Theorem constraints_are_kept (sha256_hex : string → string)
    (acts : list action) (s : db) :
  constraints_hold s →
  (∀ a r, agents (run_all sha256_hex acts s) !! a = Some r →
          0 <= Agent.balance r <= INT4_MAX)
  ∧ (∀ id m, matches (run_all sha256_hex acts s) !! id = Some m →
             Match.agent1_id m ≠ Match.agent2_id m
             ∧ is_Some (agents (run_all sha256_hex acts s) !! Match.agent1_id m)
             ∧ is_Some (agents (run_all sha256_hex acts s) !! Match.agent2_id m)).
Proof.
  revert s. induction acts as [| a acts IH]; intros s Hc; [exact Hc |].
  simpl. apply IH. apply run_chips. exact Hc.
Qed.

Lemma constraints_are_kept_witness :
  (∀ a r, agents (run_all padded_digest live_match arena) !! a = Some r →
          0 <= Agent.balance r <= INT4_MAX)
  ∧ (∀ id m, matches (run_all padded_digest live_match arena) !! id = Some m →
             Match.agent1_id m ≠ Match.agent2_id m
             ∧ is_Some (agents (run_all padded_digest live_match arena)
                          !! Match.agent1_id m)
             ∧ is_Some (agents (run_all padded_digest live_match arena)
                          !! Match.agent2_id m)).
Proof.
  exact (constraints_are_kept padded_digest live_match arena constraints_hold_arena).
Defined.

(** ** The commit phase *)

(** X3.  submit_commit refuses, and the call leaves the whole store as it
    was, whenever the match is not pending (or does not exist), the strategy
    window is still open, the commit deadline has passed, the caller is not
    a participant, or the caller has already committed: a stored commit hash
    cannot be replaced. *)
Theorem submit_commit_rejects (now : timestamptz) (id agent : uuid)
    (p_move_hash : string) (p_reveal_seconds : Z) (s : db) :
  (∀ m, matches s !! id = Some m →
        Match.status m ≠ Match.pending
        ∨ (∃ d, Match.strategy_deadline m = Some d ∧ now < d)
        ∨ Match.commit_deadline m < now
        ∨ (agent ≠ Match.agent1_id m ∧ agent ≠ Match.agent2_id m)
        ∨ is_Some (participant_hash m agent)) →
  ∃ e, rpc (submit_commit now id agent p_move_hash p_reveal_seconds) s
       = (s, Err e).
Proof.
  intros Hcond.
  assert (Herr : ∃ e, submit_commit now id agent p_move_hash p_reveal_seconds s
                      = Err e).
  { unfold submit_commit.
    destruct (matches s !! id) as [m |] eqn:Hm; [| eauto].
    specialize (Hcond m eq_refl).
    destruct (Match.is_pending m) eqn:Hp; simpl; [| eauto].
    destruct Hcond as [Hs | Hcond].
    { unfold Match.is_pending in Hp. destruct (Match.status m); done. }
    destruct (match Match.strategy_deadline m with
              | Some d => now <? d
              | None => false
              end) eqn:Hearly; [eauto |].
    destruct Hcond as [(d & Hd & Hl) | Hcond].
    { rewrite Hd in Hearly. destruct (Z.ltb_spec now d); [discriminate | lia]. }
    destruct (Z.ltb_spec (Match.commit_deadline m) now) as [_ | Hin]; [eauto |].
    destruct Hcond as [Hlate | Hcond]; [lia |].
    destruct (N.eqb agent (Match.agent1_id m) || N.eqb agent (Match.agent2_id m))
      eqn:Hpart; simpl; [| eauto].
    destruct Hcond as [[Hn1 Hn2] | [h Hh]].
    { apply orb_true_iff in Hpart as [Hx | Hx]; apply N.eqb_eq in Hx; congruence. }
    unfold participant_hash in Hh.
    destruct (N.eqb agent (Match.agent1_id m)); rewrite Hh; simpl; eauto. }
  destruct Herr as [e He]. exists e. by apply rpc_Err.
Qed.

Lemma submit_commit_rejects_witness :
  participant_hash duel_row agent_A = Some lone_hash
  ∧ ∃ e, rpc (submit_commit 80000000 20 agent_A
                "0000000000000000000000000000000000000000000000000000000000000000"
                60) duel_committed
         = (duel_committed, Err e).
Proof.
  split; [reflexivity |].
  apply submit_commit_rejects.
  intros m Hm. vm_compute in Hm. inversion Hm; subst m; clear Hm.
  right. right. right. right. eexists. vm_compute. reflexivity.
Defined.

Lemma is_pending_status (m : Match.row) :
  Match.status m = Match.pending → Match.is_pending m = true.
Proof. unfold Match.is_pending. by intros ->. Qed.

(** The length of a text in UTF-16 code units against its length in UTF-8
    bytes: one unit for a code point of the basic plane, whatever its bytes,
    and two for a code point beyond. *)
Example js_length_units :
  js_length "abc" = 3%nat
  ∧ (js_length "é" = 1%nat ∧ String.length "é" = 2%nat)
  ∧ (js_length "€" = 1%nat ∧ String.length "€" = 3%nat)
  ∧ (js_length "😀" = 2%nat ∧ String.length "😀" = 4%nat).
Proof. repeat split. Qed.

(** X4.  A commit that passes the guards of the handler and of
    submit_commit (a hash whose length, counted in UTF-16 code units as
    move_hash.length counts it, is 64; a pending match whose strategy
    window has closed and whose commit deadline has not passed; a
    participant who has not committed yet) is stored as given and touches
    nothing else: the opponent's hash, every other match, the agents, the
    challenges and the transaction log stay as they were.  If the opponent
    had already committed, the match moves to waiting_reveals with a reveal
    deadline 60 seconds after the commit, and the response reports it;
    otherwise the match stays pending and the response carries no
    deadline. *)
Theorem commit_move_accepted (now : timestamptz) (agent id : uuid)
    (h : string) (s : db) (m : Match.row) :
  matches s !! id = Some m →
  Match.status m = Match.pending →
  (∀ d, Match.strategy_deadline m = Some d → d <= now) →
  now <= Match.commit_deadline m →
  agent = Match.agent1_id m ∨ agent = Match.agent2_id m →
  participant_hash m agent = None →
  js_length h = 64%nat →
  ∃ s' m',
    commit_move now agent (Some id) (Some (Jstring h)) s
    = (s', Ok (mkCommitResponse (Match.status m') true
                 (is_some (opponent_hash m agent))
                 (if is_some (opponent_hash m agent)
                  then Some (Some (now + seconds 60)) else None)))
    ∧ matches s' !! id = Some m'
    ∧ participant_hash m' agent = Some h
    ∧ opponent_hash m' agent = opponent_hash m agent
    ∧ Match.status m'
      = (if is_some (opponent_hash m agent) then Match.waiting_reveals
         else Match.pending)
    ∧ Match.reveal_deadline m'
      = (if is_some (opponent_hash m agent) then Some (now + seconds 60)
         else Match.reveal_deadline m)
    ∧ (∀ other, other ≠ id → matches s' !! other = matches s !! other)
    ∧ agents s' = agents s
    ∧ challenges s' = challenges s
    ∧ transactions s' = transactions s.
Proof.
  intros Hm Hst Hsd Hcd Hpart Hnone Hlen.
  unfold commit_move. rewrite Hlen. simpl negb. cbv iota.
  unfold rpc, submit_commit. rewrite Hm, (is_pending_status _ Hst).
  simpl negb. cbv iota.
  assert (Hearly : match Match.strategy_deadline m with
                   | Some d => now <? d
                   | None => false
                   end = false).
  { destruct (Match.strategy_deadline m) as [d |]; [| reflexivity].
    specialize (Hsd d eq_refl). destruct (Z.ltb_spec now d); [lia | done]. }
  rewrite Hearly.
  destruct (Z.ltb_spec (Match.commit_deadline m) now) as [Hlate | _]; [lia |].
  assert (Hp : N.eqb agent (Match.agent1_id m) || N.eqb agent (Match.agent2_id m)
               = true).
  { apply orb_true_iff. destruct Hpart as [-> | ->];
      [left | right]; apply N.eqb_refl. }
  rewrite Hp. simpl negb. cbv iota.
  assert (Hnc : ∀ r, Match.status r ≠ Match.complete → sync_match_phase r = r).
  { intros r Hr. apply sync_match_phase_incomplete.
    unfold Match.is_complete. destruct (Match.status r); done. }
  unfold participant_hash, opponent_hash in *.
  destruct (N.eqb agent (Match.agent1_id m)) eqn:H1.
  - apply N.eqb_eq in H1. subst agent. rewrite Hnone. simpl.
    rewrite (update_match_Some _ _ _ _ Hm). simpl.
    rewrite lookup_insert_eq, Hnc by (simpl; rewrite Hst; discriminate).
    simpl. destruct (Match.agent2_move_hash m) as [h2 |] eqn:H2; simpl.
    + erewrite update_match_Some by (simpl; apply lookup_insert_eq). simpl.
      rewrite lookup_insert_eq, Hnc by (simpl; discriminate). simpl.
      rewrite N.eqb_refl, H2. simpl.
      eexists.
      exists (Match.set_waiting_reveals (now + seconds 60)
                (Match.set_agent1_move_hash h m)).
      split; [reflexivity |].
      split; [simpl; by rewrite lookup_insert_eq |].
      simpl. rewrite ?N.eqb_refl, ?H1, ?H2, ?H1h. simpl.
      repeat split; try reflexivity.
      intros other Ho. by rewrite !lookup_insert_ne.
    + rewrite lookup_insert_eq. simpl. rewrite N.eqb_refl, H2, Hst. simpl.
      eexists. exists (Match.set_agent1_move_hash h m).
      split; [unfold Match.is_waiting_reveals; simpl; rewrite Hst; reflexivity |].
      split; [simpl; by rewrite lookup_insert_eq |].
      simpl. rewrite ?N.eqb_refl, ?H1, ?H2, ?H1h. simpl.
      repeat split; try reflexivity; try exact Hst.
      intros other Ho. by rewrite !lookup_insert_ne.
  - assert (Ha2 : agent = Match.agent2_id m).
    { destruct Hpart as [-> | ->]; [by rewrite N.eqb_refl in H1 | done]. }
    assert (H1' : N.eqb (Match.agent1_id m) agent = false)
      by (rewrite N.eqb_sym; exact H1).
    rewrite Hnone. simpl.
    rewrite (update_match_Some _ _ _ _ Hm). simpl.
    rewrite lookup_insert_eq, Hnc by (simpl; rewrite Hst; discriminate).
    simpl. destruct (Match.agent1_move_hash m) as [h1 |] eqn:H1h; simpl.
    + erewrite update_match_Some by (simpl; apply lookup_insert_eq). simpl.
      rewrite lookup_insert_eq, Hnc by (simpl; discriminate). simpl.
      rewrite H1', H1h. simpl.
      eexists.
      exists (Match.set_waiting_reveals (now + seconds 60)
                (Match.set_agent2_move_hash h m)).
      split; [reflexivity |].
      split; [simpl; by rewrite lookup_insert_eq |].
      simpl. rewrite ?N.eqb_refl, ?H1, ?H2, ?H1h. simpl.
      repeat split; try reflexivity.
      intros other Ho. by rewrite !lookup_insert_ne.
    + rewrite lookup_insert_eq. simpl. rewrite H1', H1h, Hst. simpl.
      eexists. exists (Match.set_agent2_move_hash h m).
      split; [unfold Match.is_waiting_reveals; simpl; rewrite Hst; reflexivity |].
      split; [simpl; by rewrite lookup_insert_eq |].
      simpl. rewrite ?N.eqb_refl, ?H1, ?H2, ?H1h. simpl.
      repeat split; try reflexivity; try exact Hst.
      intros other Ho. by rewrite !lookup_insert_ne.
Qed.

Lemma commit_move_accepted_witness :
  ∃ s' m',
    commit_move 70000000 agent_A (Some 20%N) (Some (Jstring lone_hash))
      duel_restrategized
    = (s', Ok (mkCommitResponse Match.pending true false None))
    ∧ matches s' !! 20%N = Some m'
    ∧ participant_hash m' agent_A = Some lone_hash
    ∧ opponent_hash m' agent_A = None.
Proof.
  destruct (commit_move_accepted 70000000 agent_A 20 lone_hash
              duel_restrategized
              (Match.mk 10 agent_A agent_B 50 Match.pending Match.strategy
                 (Some 60000000) 120000000 None None None
                 None None None None false false
                 (Always rock) (Always scissors) None 0 None))
    as (s' & m' & Hr & Hm & Hh & Ho & Hs & _).
  - vm_compute. reflexivity.
  - reflexivity.
  - intros d Hd. inversion Hd. lia.
  - simpl. lia.
  - left. reflexivity.
  - reflexivity.
  - reflexivity.
  - exists s', m'. rewrite Hs in Hr.
    split; [exact Hr |]. split; [exact Hm |]. split; [exact Hh | exact Ho].
Defined.

(** ** The reveal phase *)

Section LiveMatch.

Variable sha256_hex : string → string.

Lemma submit_reveal_effect (now : timestamptz) (id agent : uuid)
    (mv : Move) (salt : string) (s : db) (m : Match.row) (d : timestamptz) :
  matches s !! id = Some m →
  Match.status m = Match.waiting_reveals →
  Match.reveal_deadline m = Some d →
  now <= d →
  agent = Match.agent1_id m ∨ agent = Match.agent2_id m →
  participant_move m agent = None →
  participant_hash m agent
  = Some (fst (createCommit sha256_hex (move_text mv) salt)) →
  let m' := if N.eqb agent (Match.agent1_id m)
            then Match.set_agent1_reveal mv salt m
            else Match.set_agent2_reveal mv salt m in
  submit_reveal sha256_hex now id agent (move_text mv) salt s
  = Ok (with_matches (<[id := m']> (matches s)) s, m').
Proof.
  intros Hm Hst Hd Hnow Hpart Hmove Hhash.
  unfold submit_reveal. rewrite Hm.
  unfold Match.is_waiting_reveals. rewrite Hst, Hd. simpl negb. cbv iota.
  destruct (Z.ltb_spec d now) as [Hlate | _]; [lia |].
  assert (Hp : N.eqb agent (Match.agent1_id m) || N.eqb agent (Match.agent2_id m)
               = true).
  { apply orb_true_iff. destruct Hpart as [-> | ->];
      [left | right]; apply N.eqb_refl. }
  rewrite Hp, move_of_text_text. simpl negb. cbv iota.
  unfold participant_move, participant_hash, createCommit in *. simpl in Hhash.
  assert (Hnc : ∀ r, Match.status r = Match.waiting_reveals →
                     sync_match_phase r = r).
  { intros r Hr. apply sync_match_phase_incomplete.
    unfold Match.is_complete. rewrite Hr. reflexivity. }
  destruct (N.eqb agent (Match.agent1_id m)) eqn:H1.
  - rewrite Hmove, Hhash. unfold hash_mismatch. rewrite String.eqb_refl.
    simpl. rewrite (update_match_Some _ _ _ _ Hm). simpl.
    rewrite lookup_insert_eq, Hnc by exact Hst. reflexivity.
  - rewrite Hmove, Hhash. unfold hash_mismatch. rewrite String.eqb_refl.
    simpl. rewrite (update_match_Some _ _ _ _ Hm). simpl.
    rewrite lookup_insert_eq, Hnc by exact Hst. reflexivity.
Qed.

Lemma as_move_text (mv : Move) :
  as_move (Some (Jstring (move_text mv))) = Some mv.
Proof. apply move_of_text_text. Qed.

Lemma salt_long_enough (salt : string) :
  (16 <= js_length salt)%nat → (js_length salt <? 16)%nat = false.
Proof. intros H. apply Nat.ltb_ge. exact H. Qed.

(** X5.  The first reveal of a match does not resolve it.  A reveal that
    matches the caller's stored commit, with a salt of at least 16 UTF-16
    code units (salt.length), sent in time while the opponent has not
    revealed yet, stores the caller's move, leaves the match in
    waiting_reveals, answers that the opponent is awaited, and moves no
    chips: agents, challenges and the transaction log stay as they were. *)
Theorem first_reveal_waits (now now' : timestamptz) (rand1 rand2 : float)
    (id agent : uuid) (mv : Move) (salt : string) (s : db) (m : Match.row)
    (d : timestamptz) :
  matches s !! id = Some m →
  Match.status m = Match.waiting_reveals →
  Match.reveal_deadline m = Some d →
  now <= d →
  agent = Match.agent1_id m ∨ agent = Match.agent2_id m →
  participant_move m agent = None →
  opponent_move m agent = None →
  participant_hash m agent
  = Some (fst (createCommit sha256_hex (move_text mv) salt)) →
  (16 <= js_length salt)%nat →
  ∃ s' m',
    reveal_move sha256_hex now now' rand1 rand2 agent (Some id)
      (Some (Jstring (move_text mv))) (Some (Jstring salt)) s
    = (s', Ok (WaitingForOpponent Match.waiting_reveals mv))
    ∧ matches s' !! id = Some m'
    ∧ participant_move m' agent = Some mv
    ∧ opponent_move m' agent = None
    ∧ Match.status m' = Match.waiting_reveals
    ∧ agents s' = agents s
    ∧ challenges s' = challenges s
    ∧ transactions s' = transactions s.
Proof.
  intros Hm Hst Hd Hnow Hpart Hmove Hopp Hhash Hlen.
  unfold reveal_move. rewrite as_move_text, (salt_long_enough _ Hlen).
  unfold rpc.
  rewrite (submit_reveal_effect now id agent mv salt s m d
             Hm Hst Hd Hnow Hpart Hmove Hhash).
  unfold participant_move, opponent_move in *.
  destruct (N.eqb agent (Match.agent1_id m)) eqn:H1; simpl.
  - rewrite Hopp. do 2 eexists. split; [by rewrite Hst |].
    split; [apply lookup_insert_eq |]. simpl. rewrite H1. done.
  - rewrite Hopp. do 2 eexists. split; [by rewrite Hst |].
    split; [apply lookup_insert_eq |]. simpl. rewrite H1. done.
Qed.


Lemma outcome_of_swap (a b : Move) :
  outcome_of b a = match outcome_of a b with
                   | Won => Lost
                   | Lost => Won
                   | Drew => Drew
                   end.
Proof. destruct a, b; reflexivity. Qed.

(** X6.  The second reveal resolves the match at once.  When the opponent
    has already revealed, a reveal that matches the caller's stored commit,
    has a salt of at least 16 UTF-16 code units (salt.length) and arrives in
    time completes the match with the two revealed moves and
    both fallback flags false; the winner is decided by the standard cycle,
    the response tells the caller win, loss or draw accordingly, and the
    two balances receive exactly the payout of their outcome (both wagers
    to the winner, its own wager to each side on a draw). *)
Theorem second_reveal_resolves (now now' : timestamptz) (rand1 rand2 : float)
    (id agent : uuid) (mv mo : Move) (salt : string) (s : db) (m : Match.row)
    (d : timestamptz) (ag1 ag2 : Agent.row) :
  matches s !! id = Some m →
  Match.status m = Match.waiting_reveals →
  Match.reveal_deadline m = Some d →
  now <= d →
  agent = Match.agent1_id m ∨ agent = Match.agent2_id m →
  Match.agent1_id m ≠ Match.agent2_id m →
  participant_move m agent = None →
  opponent_move m agent = Some mo →
  participant_hash m agent
  = Some (fst (createCommit sha256_hex (move_text mv) salt)) →
  (16 <= js_length salt)%nat →
  agents s !! Match.agent1_id m = Some ag1 →
  agents s !! Match.agent2_id m = Some ag2 →
  0 < Match.wager_amount m →
  settles_in_range (Match.wager_amount m) ag1 →
  settles_in_range (Match.wager_amount m) ag2 →
  ∃ s' m',
    reveal_move sha256_hex now now' rand1 rand2 agent (Some id)
      (Some (Jstring (move_text mv))) (Some (Jstring salt)) s
    = (s', Ok (MatchResolved (Some mv) (Some mo)
                 (outcome_text (outcome_of mv mo))
                 (Match.winner_id m') (Match.wager_amount m)))
    ∧ matches s' !! id = Some m'
    ∧ Match.status m' = Match.complete
    ∧ Match.phase m' = Match.finished
    ∧ Match.completed_at m' = Some now'
    ∧ participant_move m' agent = Some mv
    ∧ opponent_move m' agent = Some mo
    ∧ Match.agent1_used_fallback m' = false
    ∧ Match.agent2_used_fallback m' = false
    ∧ Match.winner_id m'
      = match outcome_of mv mo with
        | Won => Some agent
        | Lost => Some (opponent_of m agent)
        | Drew => None
        end
    ∧ balance_of s' agent
      = balance_of s agent + payout (Match.wager_amount m) (outcome_of mv mo)
    ∧ balance_of s' (opponent_of m agent)
      = balance_of s (opponent_of m agent)
        + payout (Match.wager_amount m) (outcome_of mo mv).
Proof.
  intros Hm Hst Hd Hnow Hpart Hne Hmove Hopp Hhash Hlen Ha1 Ha2 Hw Hr1 Hr2.
  unfold reveal_move. rewrite as_move_text, (salt_long_enough _ Hlen).
  unfold rpc at 1.
  rewrite (submit_reveal_effect now id agent mv salt s m d
             Hm Hst Hd Hnow Hpart Hmove Hhash).
  cbv zeta.
  set (m1 := if N.eqb agent (Match.agent1_id m)
             then Match.set_agent1_reveal mv salt m
             else Match.set_agent2_reveal mv salt m).
  set (s1 := with_matches (<[id := m1]> (matches s)) s).
  assert (Hid1 : Match.agent1_id m1 = Match.agent1_id m)
    by (subst m1; destruct (N.eqb agent (Match.agent1_id m)); reflexivity).
  assert (Hid2 : Match.agent2_id m1 = Match.agent2_id m)
    by (subst m1; destruct (N.eqb agent (Match.agent1_id m)); reflexivity).
  assert (Hwg : Match.wager_amount m1 = Match.wager_amount m)
    by (subst m1; destruct (N.eqb agent (Match.agent1_id m)); reflexivity).
  assert (Hst1 : Match.status m1 ≠ Match.complete).
  { subst m1; destruct (N.eqb agent (Match.agent1_id m)); simpl;
      rewrite Hst; discriminate. }
  assert (Hm1 : matches s1 !! id = Some m1) by apply lookup_insert_eq.
  assert (Hmoves : ∃ x1 x2, Match.agent1_move m1 = Some x1
                            ∧ Match.agent2_move m1 = Some x2
                            ∧ ((agent = Match.agent1_id m ∧ x1 = mv ∧ x2 = mo)
                               ∨ (agent = Match.agent2_id m ∧ x1 = mo ∧ x2 = mv))).
  { unfold participant_move, opponent_move in *. subst m1.
    destruct (N.eqb_spec agent (Match.agent1_id m)) as [He | Hn]; simpl.
    - exists mv, mo. rewrite Hopp.
      split; [reflexivity |]. split; [reflexivity |]. left. done.
    - exists mo, mv. rewrite Hopp.
      split; [reflexivity |]. split; [reflexivity |]. right.
      destruct Hpart; done. }
  destruct Hmoves as (x1 & x2 & Hx1 & Hx2 & Hwho).
  rewrite Hx1, Hx2. unfold resolveMatch.
  rewrite Hid1, Hid2.
  change (agents s1) with (agents s). rewrite Ha1, Ha2.
  match goal with
  | |- context [resolve_match now' id _ _ false false ?a ?b] =>
      set (st1 := a); set (st2 := b)
  end.
  destruct (resolve_match_effect now' id x1 x2 false false st1 st2 s1 m1 ag1 ag2)
    as (s' & ag1' & ag2' & Hres & Hrow & Hg1 & Hg2 & Hs1 & Hs2 & _);
    try assumption;
    try (rewrite ?Hid1, ?Hid2, ?Hwg; assumption).
  unfold rpc. rewrite Hres.
  exists s', (resolved_row now' x1 x2 false false m1).
  rewrite Hid1, Hid2, Hwg in *.
  assert (Hb1 : balance_of s' (Match.agent1_id m)
                = balance_of s (Match.agent1_id m)
                  + payout (Match.wager_amount m) (outcome_of x1 x2)).
  { unfold balance_of. rewrite Hg1, Ha1.
    unfold standing, standing_after in Hs1.
    destruct (outcome_of x1 x2); inversion Hs1; simpl; lia. }
  assert (Hb2 : balance_of s' (Match.agent2_id m)
                = balance_of s (Match.agent2_id m)
                  + payout (Match.wager_amount m) (outcome_of x2 x1)).
  { unfold balance_of. rewrite Hg2, Ha2.
    unfold standing, standing_after in Hs2.
    destruct (outcome_of x2 x1); inversion Hs2; simpl; lia. }
  split; [| split; [exact Hrow |]];
    unfold participant_move, opponent_move, opponent_of, resolved_row;
    simpl; rewrite ?Hid1, ?Hid2, ?Hwg.
  - destruct Hwho as [(-> & -> & ->) | (-> & -> & ->)].
    + rewrite N.eqb_refl.
      destruct (outcome_of mv mo); simpl; rewrite ?N.eqb_refl; try reflexivity.
      destruct (N.eqb_spec (Match.agent2_id m) (Match.agent1_id m));
        [congruence | reflexivity].
    + assert (Hn' : N.eqb (Match.agent1_id m) (Match.agent2_id m) = false)
        by (apply N.eqb_neq; congruence).
      rewrite Hn'. rewrite (outcome_of_swap mv mo).
      destruct (outcome_of mv mo); simpl; rewrite ?N.eqb_refl, ?Hn';
        reflexivity.
  - destruct Hwho as [(-> & -> & ->) | (-> & -> & ->)].
    + rewrite N.eqb_refl.
      repeat split; try reflexivity; try assumption.
    + assert (Hn : N.eqb (Match.agent2_id m) (Match.agent1_id m) = false)
        by (apply N.eqb_neq; congruence).
      rewrite Hn. rewrite (outcome_of_swap mv mo) in Hb1 |- *.
      repeat split; try reflexivity; try assumption.
      destruct (outcome_of mv mo); reflexivity.
Qed.

End LiveMatch.

Lemma first_reveal_waits_witness :
  ∃ s' m',
    reveal_move plain_digest 90000000 90000001 0 0 agent_A (Some 20%N)
      (Some (Jstring "rock")) (Some (Jstring salt_A)) (reveal_stage plain_digest)
    = (s', Ok (WaitingForOpponent Match.waiting_reveals rock))
    ∧ matches s' !! 20%N = Some m'
    ∧ participant_move m' agent_A = Some rock
    ∧ Match.status m' = Match.waiting_reveals
    ∧ agents s' = agents (reveal_stage plain_digest).
Proof.
  destruct (first_reveal_waits plain_digest 90000000 90000001 0 0 20 agent_A
              rock salt_A (reveal_stage plain_digest) reveal_row 140000000)
    as (s' & m' & Hr & Hm & Hp & _ & Hs & Ha & _).
  - vm_compute. reflexivity.
  - reflexivity.
  - reflexivity.
  - lia.
  - left. reflexivity.
  - reflexivity.
  - reflexivity.
  - reflexivity.
  - vm_compute. lia.
  - exists s', m'.
    split; [exact Hr |]. split; [exact Hm |]. split; [exact Hp |].
    split; [exact Hs | exact Ha].
Defined.

Lemma second_reveal_resolves_witness :
  ∃ s' m',
    reveal_move plain_digest 95000000 95000001 0 0 agent_B (Some 20%N)
      (Some (Jstring "scissors")) (Some (Jstring salt_B)) reveal_stage_A
    = (s', Ok (MatchResolved (Some scissors) (Some rock) "loss"
                 (Some agent_A) 50))
    ∧ matches s' !! 20%N = Some m'
    ∧ Match.status m' = Match.complete
    ∧ Match.winner_id m' = Some agent_A
    ∧ balance_of reveal_stage_A agent_A = 950
    ∧ balance_of reveal_stage_A agent_B = 950
    ∧ balance_of s' agent_A = 1050
    ∧ balance_of s' agent_B = 950.
Proof.
  destruct (second_reveal_resolves plain_digest 95000000 95000001 0 0 20
              agent_B scissors rock salt_B reveal_stage_A reveal_row_A
              140000000 (Agent.mk 950 0 0 0 (Always rock) ∅)
              (Agent.mk 950 0 0 0 (Always scissors) ∅))
    as (s' & m' & Hr & Hm & Hs & _ & _ & _ & _ & _ & _ & Hw & Hb & Ho).
  - vm_compute. reflexivity.
  - reflexivity.
  - reflexivity.
  - lia.
  - right. reflexivity.
  - discriminate.
  - reflexivity.
  - reflexivity.
  - reflexivity.
  - vm_compute. lia.
  - vm_compute. reflexivity.
  - vm_compute. reflexivity.
  - simpl. lia.
  - vm_compute. repeat split; discriminate.
  - vm_compute. repeat split; discriminate.
  - exists s', m'. rewrite Hw in Hr.
    split; [exact Hr |]. split; [exact Hm |]. split; [exact Hs |].
    split; [exact Hw |].
    split; [vm_compute; reflexivity |].
    split; [vm_compute; reflexivity |].
    split.
    + change agent_A with (opponent_of reveal_row_A agent_B). rewrite Ho.
      vm_compute. reflexivity.
    + rewrite Hb. vm_compute. reflexivity.
Defined.

(** ** The reaper after a reveal timeout *)




Lemma stale_matches_inv (now : timestamptz) (id : uuid) (row : Match.row)
    (s : db) :
  In (id, row) (stale_matches now s) →
  matches s !! id = Some row ∧ is_stale now row = true.
Proof.
  unfold stale_matches. intros H. apply filter_In in H as [Hin Hst].
  split; [| exact Hst]. by apply elem_of_map_to_list, list_elem_of_In.
Qed.

Lemma processMatch_inv (now : timestamptz) (rand1 rand2 : float) (id : uuid)
    (row : Match.row) (s s' : db) (out : ProcessResult) :
  processMatch now rand1 rand2 id row s = (s', Ok out) →
  ∃ p1 p2 f1 f2 st1 st2 m',
    resolve_match now id p1 p2 f1 f2 st1 st2 s = Ok (s', m').
Proof.
  intros Hp. unfold processMatch in Hp.
  repeat case_match; inversion Hp; subst;
    match goal with
    | H : rpc _ _ = _ |- _ =>
        apply rpc_inv in H as [(? & Hs & Heq) | (? & _ & Heq)];
        inversion Heq; subst
    end;
    eauto 10.
Qed.

(** X8.  A match the reaper has processed is never picked up again: once
    processMatch has returned a result, the match is complete and the
    stale_matches view does not list it at any later (or earlier) time, so
    no sweep can settle it twice. *)
Theorem processed_match_never_stale (now : timestamptz) (rand1 rand2 : float)
    (id : uuid) (row : Match.row) (s s' : db) (out : ProcessResult) :
  processMatch now rand1 rand2 id row s = (s', Ok out) →
  (∃ m', matches s' !! id = Some m' ∧ Match.status m' = Match.complete)
  ∧ ∀ now' row', ¬ In (id, row') (stale_matches now' s').
Proof.
  intros Hp.
  apply processMatch_inv in Hp as (p1 & p2 & f1 & f2 & st1 & st2 & m' & Hr).
  apply resolve_match_inv in Hr as (m & _ & _ & Hm' & Hc & _).
  split; [eauto |].
  intros now' row' Hin. apply stale_matches_inv in Hin as [Hrow Hst].
  rewrite Hm' in Hrow. inversion Hrow; subst row'.
  unfold is_stale, Match.is_pending, Match.is_waiting_reveals in Hst.
  rewrite Hc in Hst. discriminate.
Qed.

Lemma processed_match_never_stale_witness :
  In (20%N, duel_row) (stale_matches 130000000 duel_committed)
  ∧ is_ok (snd (processMatch 130000000 0 0 20 duel_row duel_committed)) = true
  ∧ ∀ now' row',
      ¬ In (20%N, row')
          (stale_matches now'
             (fst (processMatch 130000000 0 0 20 duel_row duel_committed))).
Proof.
  split; [apply stale_pending_listed; [vm_compute; reflexivity | reflexivity
                                       | simpl; lia] |].
  split; [vm_compute; reflexivity |].
  destruct (processMatch 130000000 0 0 20 duel_row duel_committed)
    as [s' [out | e]] eqn:Hp.
  - exact (proj2 (processed_match_never_stale _ _ _ _ _ _ _ _ Hp)).
  - vm_compute in Hp. discriminate.
Defined.

(** ** Posting and cancelling a challenge *)

Lemma with_balance_same (a : Agent.row) (b : Z) :
  b = Agent.balance a → Agent.with_balance b a = a.
Proof. intros ->. by destruct a. Qed.

Lemma with_balance_twice (a : Agent.row) (b b' : Z) :
  Agent.with_balance b' (Agent.with_balance b a) = Agent.with_balance b' a.
Proof. reflexivity. Qed.

Lemma db_eta (s : db) :
  mkDb (agents s) (challenges s) (matches s) (transactions s) = s.
Proof. by destruct s. Qed.

(** X10.  Posting a challenge escrows exactly the wager.  For a registered
    agent and a positive wager (with a fresh challenge key): if the balance
    covers the wager, the balance drops by the wager, an open challenge of
    that agent and wager is created, and nothing else changes, no
    transaction row included; if it does not, the call is refused with
    "Insufficient balance" and the store is left as it was. *)
Theorem post_challenge_escrows (agent_id : uuid) (wager : Z) (new_id : uuid)
    (s : db) (a : Agent.row) :
  agents s !! agent_id = Some a →
  0 <= Agent.balance a <= INT4_MAX →
  0 < wager →
  challenges s !! new_id = None →
  (wager <= Agent.balance a →
   post_challenge agent_id wager new_id s
   = (mkDb (<[agent_id := Agent.with_balance (Agent.balance a - wager) a]>
              (agents s))
           (<[new_id := Challenge.mk agent_id wager Challenge.open]>
              (challenges s))
           (matches s) (transactions s),
      Ok (Challenge.mk agent_id wager Challenge.open)))
  ∧ (Agent.balance a < wager <= INT4_MAX →
     post_challenge agent_id wager new_id s = (s, Err "Insufficient balance")).
Proof.
  intros Ha Hr Hw Hfresh. unfold post_challenge.
  destruct (Z.leb_spec wager 0) as [Hn | _]; [lia |].
  split.
  - intros Hle.
    rewrite int4_Ok by (unfold INT4_MIN; lia). simpl negb. cbv iota.
    unfold rpc, escrow_wager. rewrite Ha.
    destruct (Z.ltb_spec (Agent.balance a) wager) as [Hlt | _]; [lia |].
    erewrite update_agent_Some;
      [| exact Ha | apply add_balance_Ok; lia].
    simpl. unfold insert_challenge.
    destruct (Z.ltb_spec 0 wager) as [_ | Hn]; [| lia]. simpl.
    rewrite lookup_insert_eq. simpl.
    rewrite ?bool_decide_eq_true_2 by eauto. simpl. rewrite Hfresh.
    replace (Agent.balance a + - wager) with (Agent.balance a - wager) by lia.
    reflexivity.
  - intros [Hlt Hmax].
    rewrite int4_Ok by (unfold INT4_MIN; lia). simpl negb. cbv iota.
    unfold rpc, escrow_wager. rewrite Ha.
    destruct (Z.ltb_spec (Agent.balance a) wager) as [_ | Hge]; [| lia].
    reflexivity.
Qed.

Lemma post_challenge_escrows_witness :
  post_challenge agent_A 50 10 arena
  = (mkDb (<[agent_A := Agent.mk 950 0 0 0 Random ∅]> (agents arena))
          (<[10%N := Challenge.mk agent_A 50 Challenge.open]> ∅)
          ∅ (transactions arena),
     Ok (Challenge.mk agent_A 50 Challenge.open))
  ∧ post_challenge agent_A 1001 10 arena = (arena, Err "Insufficient balance").
Proof.
  split.
  - apply (post_challenge_escrows agent_A 50 10 arena (registered Random));
      [reflexivity | simpl; unfold INT4_MAX; lia | lia | reflexivity
       | simpl; lia].
  - apply (post_challenge_escrows agent_A 1001 10 arena (registered Random));
      [reflexivity | simpl; unfold INT4_MAX; lia | lia | reflexivity
       | simpl; unfold INT4_MAX; lia].
Defined.

Lemma update_agent_there_and_back (id : uuid) (d : Z) (s s1 : db)
    (a : Agent.row) :
  agents s !! id = Some a →
  0 <= Agent.balance a <= INT4_MAX →
  update_agent id (add_balance (- d)) s = Ok s1 →
  update_agent id (add_balance d) s1 = Ok s.
Proof.
  intros Ha Hr Hu.
  apply update_agent_inv in Hu as [[Hn _] | (r & r' & Hr0 & Hs & ->)];
    [congruence |].
  rewrite Ha in Hr0. inversion Hr0; subst r.
  apply add_balance_inv in Hs as [-> Hr1].
  erewrite update_agent_Some;
    [| simpl; apply lookup_insert_eq | apply add_balance_Ok; simpl; lia].
  simpl. rewrite insert_insert_eq. unfold with_agents. simpl.
  rewrite with_balance_twice, with_balance_same by lia.
  rewrite insert_id by exact Ha. by rewrite db_eta.
Qed.

(** X11.  A post that fails costs nothing.  Whatever makes post-challenge
    answer with an error (a wager that is not positive or not an INTEGER,
    an insufficient balance, or a failed insert of the challenge after the
    escrow was taken), the store afterwards is exactly the store before:
    in the last case the refund restores the escrowed balance. *)
Theorem post_challenge_failure_restores (agent_id : uuid) (wager : Z)
    (new_id : uuid) (s s' : db) (e : string) :
  (∀ a, agents s !! agent_id = Some a → 0 <= Agent.balance a <= INT4_MAX) →
  post_challenge agent_id wager new_id s = (s', Err e) →
  s' = s.
Proof.
  intros Hr Hp. unfold post_challenge in Hp.
  destruct (wager <=? 0); [by inversion Hp |].
  destruct (negb (is_ok (int4 wager))); [by inversion Hp |].
  unfold rpc at 1 in Hp.
  destruct (escrow_wager agent_id wager s) as [[s1 b] | e1] eqn:He;
    [| by inversion Hp].
  pose proof (escrow_wager_inv _ _ _ _ _ He) as (_ & Hfalse & _).
  destruct b; [| rewrite (Hfalse eq_refl) in Hp; by inversion Hp].
  unfold rpc at 1 in Hp.
  destruct (insert_challenge new_id agent_id wager s1) as [[s2 c] | e2] eqn:Hi;
    [discriminate |].
  inversion Hp; subst s' e; clear Hp.
  unfold escrow_wager in He.
  destruct (agents s !! agent_id) as [a |] eqn:Ha.
  - destruct (Agent.balance a <? wager); [discriminate |].
    apply bind_Ok_inv in He as (sx & Hsx & He). inversion He; subst sx.
    unfold rpc, refund_wager.
    rewrite (update_agent_there_and_back _ _ _ _ _ Ha (Hr a eq_refl) Hsx).
    reflexivity.
  - inversion He; subst s1. unfold rpc, refund_wager, update_agent.
    rewrite Ha. reflexivity.
Qed.

Lemma post_challenge_failure_restores_witness :
  (∃ e, post_challenge agent_B 30 10 arena_posted = (arena_posted, Err e))
  ∧ balance_of arena_posted agent_B = 1000
  ∧ is_Some (challenges arena_posted !! 10%N).
Proof.
  split; [| split; [reflexivity | vm_compute; eauto]].
  destruct (post_challenge agent_B 30 10 arena_posted) as [s' [c | e]] eqn:Hp.
  - vm_compute in Hp. discriminate.
  - exists e.
    rewrite (post_challenge_failure_restores agent_B 30 10 arena_posted s' e);
      [reflexivity | | exact Hp].
    intros a Ha. vm_compute in Ha. inversion Ha. vm_compute.
    split; discriminate.
Defined.

(** X12.  cancel_challenge refunds the owner of an open challenge, once.
    Called by the challenger on an open challenge, it marks the challenge
    cancelled, credits exactly the escrowed wager back, appends one
    transaction row for that credit and answers success with the refunded
    amount; nothing else changes. *)
Theorem cancel_challenge_refunds (id agent : uuid) (s : db)
    (c : Challenge.row) (a : Agent.row) :
  challenges s !! id = Some c →
  Challenge.challenger_id c = agent →
  Challenge.status c = Challenge.open →
  agents s !! agent = Some a →
  0 < Challenge.wager_amount c →
  0 <= Agent.balance a →
  Agent.balance a + Challenge.wager_amount c <= INT4_MAX →
  rpc (cancel_challenge id agent) s
  = (mkDb (<[agent := Agent.with_balance
                        (Agent.balance a + Challenge.wager_amount c) a]>
             (agents s))
          (<[id := Challenge.with_status Challenge.cancelled c]> (challenges s))
          (matches s)
          (transactions s
           ++ [Tx.mk None None agent (Challenge.wager_amount c)
                 "challenge cancelled — wager returned"]),
     Ok (true, Challenge.wager_amount c, "Challenge cancelled.")).
Proof.
  intros Hc Hown Hopen Ha Hw Hb Hmax.
  unfold rpc, cancel_challenge. rewrite Hc, Hown.
  rewrite bool_decide_eq_true_2 by reflexivity.
  unfold Challenge.is_open. rewrite Hopen. simpl negb. cbv iota.
  unfold update_challenge_status. rewrite Hc.
  erewrite update_agent_Some; [| exact Ha | apply add_balance_Ok; lia].
  simpl.
  rewrite insert_transaction_Ok;
    [reflexivity | simpl; lia | reflexivity | reflexivity
     | eapply references_Some; simpl; apply lookup_insert_eq].
Qed.

Lemma cancel_challenge_refunds_witness :
  balance_of arena_posted agent_A = 950
  ∧ ∃ s', rpc (cancel_challenge 10 agent_A) arena_posted
          = (s', Ok (true, 50, "Challenge cancelled."))
          ∧ balance_of s' agent_A = 1000
          ∧ Challenge.status <$> challenges s' !! 10%N = Some Challenge.cancelled.
Proof.
  split; [reflexivity |].
  eexists. split.
  - apply (cancel_challenge_refunds 10 agent_A arena_posted
             (Challenge.mk agent_A 50 Challenge.open)
             (Agent.mk 950 0 0 0 Random ∅));
      [vm_compute; reflexivity | reflexivity | reflexivity
       | vm_compute; reflexivity | simpl; lia | simpl; lia
       | simpl; unfold INT4_MAX; lia].
  - split; vm_compute; reflexivity.
Defined.

(** X13.  cancel_challenge refuses everything else without touching the
    store: a challenge that does not exist, that belongs to another agent,
    or that is no longer open (already matched or already cancelled) gets
    success = false and a refund of 0, and no balance, challenge or
    transaction row changes; so a wager cannot be refunded twice, nor
    refunded after the match has begun. *)
Theorem cancel_challenge_refuses (id agent : uuid) (s : db) :
  (∀ c, challenges s !! id = Some c →
        Challenge.challenger_id c ≠ agent
        ∨ Challenge.status c ≠ Challenge.open) →
  ∃ msg, rpc (cancel_challenge id agent) s = (s, Ok (false, 0, msg)).
Proof.
  intros Hcond. unfold rpc, cancel_challenge.
  destruct (challenges s !! id) as [c |] eqn:Hc; [| eauto].
  destruct (bool_decide (Challenge.challenger_id c = agent)) eqn:Hown;
    simpl; [| eauto].
  destruct (Challenge.is_open c) eqn:Hopen; simpl; [| eauto].
  apply bool_decide_eq_true in Hown.
  destruct (Hcond c eq_refl) as [Hn | Hn]; [done |].
  unfold Challenge.is_open in Hopen. destruct (Challenge.status c); done.
Qed.

Lemma cancel_challenge_refuses_witness :
  (∃ msg, rpc (cancel_challenge 10 agent_B) arena_posted
          = (arena_posted, Ok (false, 0, msg)))
  ∧ (∃ msg, rpc (cancel_challenge 10 agent_A) arena_accepted
            = (arena_accepted, Ok (false, 0, msg))).
Proof.
  split; apply cancel_challenge_refuses; intros c Hc; vm_compute in Hc;
    inversion Hc; [left | right]; discriminate.
Defined.

(** X14.  Posting a challenge and cancelling it is a round trip for the
    chips: every agent row, and so every balance, is back as it was before
    the post, no match is touched, the challenge remains on record as
    cancelled, and the only trace in the transaction log is the one row of
    the refund. *)
Theorem post_then_cancel_restores (agent_id : uuid) (wager : Z)
    (new_id : uuid) (s : db) (a : Agent.row) :
  agents s !! agent_id = Some a →
  0 <= Agent.balance a <= INT4_MAX →
  0 < wager <= Agent.balance a →
  challenges s !! new_id = None →
  fst (rpc (cancel_challenge new_id agent_id)
         (fst (post_challenge agent_id wager new_id s)))
  = mkDb (agents s)
         (<[new_id := Challenge.mk agent_id wager Challenge.cancelled]>
            (challenges s))
         (matches s)
         (transactions s
          ++ [Tx.mk None None agent_id wager
                "challenge cancelled — wager returned"]).
Proof.
  intros Ha Hr Hw Hfresh.
  destruct (post_challenge_escrows agent_id wager new_id s a Ha Hr
              (proj1 Hw) Hfresh) as [Hpost _].
  rewrite (Hpost (proj2 Hw)). simpl fst.
  erewrite cancel_challenge_refunds;
    [ | simpl; apply lookup_insert_eq | reflexivity | reflexivity
      | simpl; apply lookup_insert_eq | simpl; lia | simpl; lia
      | simpl; lia ].
  simpl. rewrite !insert_insert_eq.
  rewrite with_balance_twice, with_balance_same by lia.
  rewrite insert_id by exact Ha. reflexivity.
Qed.

Lemma post_then_cancel_restores_witness :
  fst (rpc (cancel_challenge 10 agent_A) (fst (post_challenge agent_A 50 10 arena)))
  = mkDb (agents arena)
         (<[10%N := Challenge.mk agent_A 50 Challenge.cancelled]> ∅)
         ∅
         (transactions arena
          ++ [Tx.mk None None agent_A 50 "challenge cancelled — wager returned"]).
Proof.
  apply (post_then_cancel_restores agent_A 50 10 arena (registered Random));
    [reflexivity | simpl; unfold INT4_MAX; lia | simpl; lia | reflexivity].
Defined.

(** ** Accepting a challenge *)

Lemma create_match_not_open (now : timestamptz) (new_id cid agent : uuid)
    (ss cs : Z) (s : db) :
  (∀ c, challenges s !! cid = Some c → Challenge.status c ≠ Challenge.open) →
  create_match now new_id cid agent ss cs s
  = Err "Challenge is not open or does not exist".
Proof.
  intros Hcond. unfold create_match.
  destruct (challenges s !! cid) as [c |] eqn:Hc; [| reflexivity].
  specialize (Hcond c eq_refl). unfold Challenge.is_open.
  destruct (Challenge.status c); done.
Qed.

Lemma accept_challenge_Err (now : timestamptz) (new_id cid agent : uuid)
    (ss cs : float) (s : db) :
  (∀ p q, ∃ e, create_match now new_id cid agent p q s = Err e) →
  ∃ e, accept_challenge now new_id cid agent ss cs s = (s, Err e).
Proof.
  intros Hcm. unfold accept_challenge, rpc.
  destruct (integer_param (window_seconds ss)) as [p | e1]; simpl; [| eauto].
  destruct (integer_param (window_seconds cs)) as [q | e2]; simpl; [| eauto].
  destruct (Hcm p q) as [e ->]. eauto.
Qed.

(** X15.  A challenge is accepted at most once.  After accept-challenge
    has created a match, the challenge is marked matched; every further
    attempt to accept it, by any agent with any windows, is refused and
    leaves the store as it is, and so is every attempt to cancel it: the
    challenger's escrow can neither be matched twice nor be refunded once
    the match exists. *)
Theorem accepted_challenge_is_closed (now : timestamptz)
    (new_id challengeId agent_id : uuid) (ss cs : float) (s s' : db)
    (m : Match.row) :
  accept_challenge now new_id challengeId agent_id ss cs s = (s', Ok m) →
  Challenge.status <$> challenges s' !! challengeId = Some Challenge.matched
  ∧ (∀ now2 id2 agent2 ss2 cs2,
       ∃ e, accept_challenge now2 id2 challengeId agent2 ss2 cs2 s' = (s', Err e))
  ∧ (∀ agent2,
       ∃ msg, rpc (cancel_challenge challengeId agent2) s' = (s', Ok (false, 0, msg))).
Proof.
  intros Hacc. unfold accept_challenge in Hacc.
  apply rpc_inv in Hacc as [(m0 & Hcm & Heq) | (e & _ & Heq)];
    [| discriminate].
  inversion Heq; subst m0; clear Heq.
  apply bind_Ok_inv in Hcm as (p & _ & Hcm).
  apply bind_Ok_inv in Hcm as (q & _ & Hcm).
  assert (Hst : ∃ c, challenges s' !! challengeId = Some c
                     ∧ Challenge.status c = Challenge.matched).
  { unfold create_match in Hcm.
    destruct (challenges s !! challengeId) as [c |] eqn:Hc; [| discriminate].
    destruct (negb (Challenge.is_open c)); [discriminate |].
    destruct (bool_decide (Challenge.challenger_id c = agent_id));
      [discriminate |].
    destruct (match agents s !! agent_id with
              | Some a => Agent.balance a <? Challenge.wager_amount c
              | None => false
              end); [discriminate |].
    apply bind_Ok_inv in Hcm as (s1 & Hs1 & Hcm).
    pose proof (update_agent_frame _ _ _ _ Hs1) as (_ & Hch1 & _).
    destruct (agents s !! Challenge.challenger_id c); [| discriminate].
    destruct (agents s !! agent_id); [| discriminate].
    destruct (matches s1 !! new_id); [discriminate |].
    inversion Hcm; subst s' m; clear Hcm.
    unfold update_challenge_status. simpl. rewrite Hch1, Hc. simpl.
    rewrite lookup_insert_eq. eauto. }
  destruct Hst as (c & Hc & Hmatched).
  split; [by rewrite Hc; simpl; rewrite Hmatched |].
  split.
  - intros now2 id2 agent2 ss2 cs2. apply accept_challenge_Err.
    intros p2 q2. eexists. apply create_match_not_open.
    intros c' Hc'. rewrite Hc in Hc'. inversion Hc'; subst c'.
    rewrite Hmatched. discriminate.
  - intros agent2. apply cancel_challenge_refuses.
    intros c' Hc'. rewrite Hc in Hc'. inversion Hc'; subst c'.
    right. rewrite Hmatched. discriminate.
Qed.

Lemma accepted_challenge_is_closed_witness :
  is_ok (snd (accept_challenge 0 20 10 agent_B PrimFloat.nan PrimFloat.nan
                arena_posted)) = true
  ∧ Challenge.status <$> challenges arena_accepted !! 10%N
    = Some Challenge.matched
  ∧ (∀ now2 id2 agent2 ss2 cs2,
       ∃ e, accept_challenge now2 id2 10 agent2 ss2 cs2 arena_accepted
            = (arena_accepted, Err e))
  ∧ (∀ agent2,
       ∃ msg, rpc (cancel_challenge 10 agent2) arena_accepted
              = (arena_accepted, Ok (false, 0, msg))).
Proof.
  split; [vm_compute; reflexivity |].
  unfold arena_accepted.
  destruct (accept_challenge 0 20 10 agent_B PrimFloat.nan PrimFloat.nan
              arena_posted) as [s' [m | e]] eqn:Hacc.
  - exact (accepted_challenge_is_closed _ _ _ _ _ _ _ _ _ Hacc).
  - vm_compute in Hacc. discriminate.
Defined.

(** X16.  accept-challenge refuses, and leaves the store as it was, when
    the challenge does not exist or is not open, when the accepter is the
    challenger, and when the accepter's balance does not cover the wager:
    no balance is debited and no match is created. *)
Theorem accept_challenge_refuses (now : timestamptz)
    (new_id challengeId agent_id : uuid) (ss cs : float) (s : db) :
  (∀ c, challenges s !! challengeId = Some c →
        Challenge.status c ≠ Challenge.open
        ∨ Challenge.challenger_id c = agent_id
        ∨ ∃ a, agents s !! agent_id = Some a
               ∧ Agent.balance a < Challenge.wager_amount c) →
  ∃ e, accept_challenge now new_id challengeId agent_id ss cs s = (s, Err e).
Proof.
  intros Hcond. apply accept_challenge_Err. intros p q. unfold create_match.
  destruct (challenges s !! challengeId) as [c |] eqn:Hc; [| eauto].
  destruct (Challenge.is_open c) eqn:Hopen; simpl; [| eauto].
  destruct (bool_decide (Challenge.challenger_id c = agent_id)) eqn:Hself;
    [eauto |].
  apply bool_decide_eq_false in Hself.
  destruct (Hcond c eq_refl) as [Hn | [Hown | (a & Ha & Hlt)]].
  - unfold Challenge.is_open in Hopen. destruct (Challenge.status c); done.
  - done.
  - rewrite Ha. destruct (Z.ltb_spec (Agent.balance a) (Challenge.wager_amount c));
      [eauto | lia].
Qed.

Lemma accept_challenge_refuses_witness :
  ∃ e, accept_challenge 0 20 10 agent_A 60 60 arena_posted = (arena_posted, Err e).
Proof.
  apply accept_challenge_refuses. intros c Hc. vm_compute in Hc.
  inversion Hc. right. left. reflexivity.
Defined.

(** ** What may happen to a match row *)

Lemma row_evolves_refl (m : Match.row) : row_evolves m m.
Proof. unfold row_evolves. intuition. Qed.

Lemma row_evolves_trans (a b c : Match.row) :
  row_evolves a b → row_evolves b c → row_evolves a c.
Proof.
  unfold row_evolves.
  intros (A1 & A2 & A3 & A4 & A5 & A6 & A7 & A8 & A9 & A10 & A11 & A12 & A13 & A14)
         (B1 & B2 & B3 & B4 & B5 & B6 & B7 & B8 & B9 & B10 & B11 & B12 & B13 & B14).
  split; [congruence |]. split; [congruence |]. split; [congruence |].
  split; [congruence |]. split; [congruence |]. split; [congruence |].
  split; [congruence |]. split; [congruence |]. split; [congruence |].
  split; [intros Hc; specialize (A10 Hc); subst b; auto |].
  split; [auto |]. split; [auto |]. split; [auto |]. auto.
Qed.

Ltac row_evolves_by_cases :=
  unfold row_evolves, phase_agrees; simpl;
  intuition (try congruence; try discriminate).

Lemma row_evolves_hash1 (h : string) (m : Match.row) :
  Match.status m = Match.pending → Match.agent1_move_hash m = None →
  row_evolves m (Match.set_agent1_move_hash h m).
Proof. intros Hs Hh. row_evolves_by_cases. Qed.

Lemma row_evolves_hash2 (h : string) (m : Match.row) :
  Match.status m = Match.pending → Match.agent2_move_hash m = None →
  row_evolves m (Match.set_agent2_move_hash h m).
Proof. intros Hs Hh. row_evolves_by_cases. Qed.

Lemma row_evolves_waiting (d : timestamptz) (m : Match.row) :
  Match.status m = Match.pending →
  row_evolves m (Match.set_waiting_reveals d m).
Proof. intros Hs. row_evolves_by_cases. Qed.

Lemma row_evolves_reveal (mv : Move) (salt : string) (m : Match.row) :
  Match.status m = Match.waiting_reveals →
  row_evolves m (Match.set_agent1_reveal mv salt m)
  ∧ row_evolves m (Match.set_agent2_reveal mv salt m).
Proof. intros Hs. row_evolves_by_cases. Qed.

Lemma row_evolves_resolved (w : option uuid) (now : timestamptz)
    (m1 m2 : Move) (f1 f2 : bool) (m : Match.row) :
  Match.status m ≠ Match.complete →
  row_evolves m
    (Match.with_phase Match.finished
       (Match.set_complete w now (Match.set_final_moves m1 m2 f1 f2 m))).
Proof. intros Hs. row_evolves_by_cases. Qed.

Lemma store_evolves_refl (s : db) : store_evolves s s.
Proof.
  split; [| split].
  - intros id m Hm. exists m. split; [exact Hm | apply row_evolves_refl].
  - intros id m' Hm' Hn. congruence.
  - intros cid c Hc. exists c. auto.
Qed.

Lemma store_evolves_trans (a b c : db) :
  store_evolves a b → store_evolves b c → store_evolves a c.
Proof.
  intros (A1 & A2 & A3) (B1 & B2 & B3). split; [| split].
  - intros id m Hm. destruct (A1 _ _ Hm) as (m1 & Hm1 & He1).
    destruct (B1 _ _ Hm1) as (m2 & Hm2 & He2).
    exists m2. split; [exact Hm2 | eapply row_evolves_trans; eassumption].
  - intros id m' Hm' Hn.
    destruct (matches b !! id) as [m1 |] eqn:Hb.
    + destruct (B1 _ _ Hb) as (m2 & Hm2 & He2).
      rewrite Hm' in Hm2. inversion Hm2; subst m2.
      apply He2. eapply A2; eassumption.
    + eapply B2; eassumption.
  - intros cid x Hx. destruct (A3 _ _ Hx) as (x1 & Hx1 & Ha & Hb & Hc).
    destruct (B3 _ _ Hx1) as (x2 & Hx2 & Ha2 & Hb2 & Hc2).
    exists x2. split; [exact Hx2 |]. split; [congruence |].
    split; [congruence |].
    intros Hno. specialize (Hc Hno). subst x1. auto.
Qed.

Lemma store_evolves_same_tables (s s' : db) :
  matches s' = matches s → challenges s' = challenges s → store_evolves s s'.
Proof.
  intros Hm Hc. unfold store_evolves. rewrite Hm, Hc. apply store_evolves_refl.
Qed.

Lemma update_agent_evolves (id : uuid) (set : Agent.row → res Agent.row)
    (s s' : db) :
  update_agent id set s = Ok s' → store_evolves s s'.
Proof.
  intros Hu. pose proof (update_agent_frame _ _ _ _ Hu) as (Hm & Hc & _).
  by apply store_evolves_same_tables.
Qed.

Lemma update_agent_opt_evolves (v : option uuid)
    (set : Agent.row → res Agent.row) (s s' : db) :
  update_agent_opt v set s = Ok s' → store_evolves s s'.
Proof.
  destruct v; simpl; [apply update_agent_evolves |].
  intros H. inversion H. apply store_evolves_refl.
Qed.

Lemma update_agents_in_evolves (a1 a2 : uuid)
    (set : Agent.row → res Agent.row) (s s' : db) :
  update_agents_in a1 a2 set s = Ok s' → store_evolves s s'.
Proof.
  unfold update_agents_in. intros Hu.
  apply bind_Ok_inv in Hu as (sx & Hsx & Hu).
  eapply store_evolves_trans; [eapply update_agent_evolves; exact Hsx |].
  destruct (decide (a1 = a2)).
  - inversion Hu. apply store_evolves_refl.
  - eapply update_agent_evolves; exact Hu.
Qed.

Lemma insert_transaction_evolves (t : Tx.row) (s s' : db) :
  insert_transaction t s = Ok s' → store_evolves s s'.
Proof.
  intros H. apply insert_transaction_inv in H as (-> & _).
  by apply store_evolves_same_tables.
Qed.

Lemma update_match_evolves (id : uuid) (set : Match.row → Match.row) (s : db) :
  (∀ m, matches s !! id = Some m → row_evolves m (sync_match_phase (set m))) →
  store_evolves s (update_match id set s).
Proof.
  intros Hrow. unfold update_match.
  destruct (matches s !! id) as [m |] eqn:Hm; [| apply store_evolves_refl].
  split; [| split]; simpl.
  - intros id' x Hx. destruct (decide (id' = id)) as [-> |].
    + rewrite lookup_insert_eq. rewrite Hm in Hx. inversion Hx; subst x.
      eexists. split; [reflexivity | by apply Hrow].
    + rewrite lookup_insert_ne by done. exists x.
      split; [exact Hx | apply row_evolves_refl].
  - intros id' x Hx Hn. destruct (decide (id' = id)) as [-> |]; [congruence |].
    rewrite lookup_insert_ne in Hx by done. congruence.
  - intros cid c Hc. exists c. auto.
Qed.

Lemma update_challenge_status_evolves (id : uuid)
    (st : Challenge.challenge_status) (s : db) :
  (∀ c, challenges s !! id = Some c → Challenge.status c = Challenge.open) →
  store_evolves s (update_challenge_status id st s).
Proof.
  intros Hopen. unfold update_challenge_status.
  destruct (challenges s !! id) as [c |] eqn:Hc; [| apply store_evolves_refl].
  split; [| split]; simpl.
  - intros id' m Hm. exists m. split; [exact Hm | apply row_evolves_refl].
  - intros id' m' Hm' Hn. congruence.
  - intros cid x Hx. destruct (decide (cid = id)) as [-> |].
    + rewrite lookup_insert_eq. rewrite Hc in Hx. inversion Hx; subst x.
      eexists. split; [reflexivity |]. split; [reflexivity |].
      split; [reflexivity |]. intros Hno. by specialize (Hopen c eq_refl).
    + rewrite lookup_insert_ne by done. exists x. auto.
Qed.

Lemma sync_incomplete_status (m : Match.row) :
  Match.status m ≠ Match.complete → sync_match_phase m = m.
Proof.
  intros H. apply sync_match_phase_incomplete. unfold Match.is_complete.
  destruct (Match.status m); done.
Qed.

Lemma submit_commit_evolves (now : timestamptz) (id agent : uuid) (h : string)
    (rs : Z) (s s' : db) (m' : Match.row) :
  submit_commit now id agent h rs s = Ok (s', m') → store_evolves s s'.
Proof.
  intros Hs. unfold submit_commit in Hs.
  destruct (matches s !! id) as [m |] eqn:Hm; [| discriminate].
  destruct (Match.is_pending m) eqn:Hp; simpl in Hs; [| discriminate].
  assert (Hst : Match.status m = Match.pending).
  { unfold Match.is_pending in Hp. destruct (Match.status m); done. }
  destruct (match Match.strategy_deadline m with
            | Some d => now <? d
            | None => false
            end); [discriminate |].
  destruct (Match.commit_deadline m <? now); [discriminate |].
  destruct (negb (N.eqb agent (Match.agent1_id m)
                  || N.eqb agent (Match.agent2_id m))); [discriminate |].
  apply bind_Ok_inv in Hs as (s1 & Hs1 & Hs).
  assert (H1 : store_evolves s s1
               ∧ ∀ v, matches s1 !! id = Some v → Match.status v = Match.pending).
  { destruct (N.eqb agent (Match.agent1_id m)).
    - destruct (Match.agent1_move_hash m) eqn:Hh; [discriminate |].
      inversion Hs1; subst s1. split.
      + apply update_match_evolves. intros x Hx. rewrite Hm in Hx.
        inversion Hx; subst x.
        rewrite sync_incomplete_status by (simpl; rewrite Hst; discriminate).
        by apply row_evolves_hash1.
      + intros v. rewrite (update_match_Some _ _ _ _ Hm). simpl.
        rewrite lookup_insert_eq. intros Hv. inversion Hv.
        rewrite sync_incomplete_status by (simpl; rewrite Hst; discriminate).
        exact Hst.
    - destruct (Match.agent2_move_hash m) eqn:Hh; [discriminate |].
      inversion Hs1; subst s1. split.
      + apply update_match_evolves. intros x Hx. rewrite Hm in Hx.
        inversion Hx; subst x.
        rewrite sync_incomplete_status by (simpl; rewrite Hst; discriminate).
        by apply row_evolves_hash2.
      + intros v. rewrite (update_match_Some _ _ _ _ Hm). simpl.
        rewrite lookup_insert_eq. intros Hv. inversion Hv.
        rewrite sync_incomplete_status by (simpl; rewrite Hst; discriminate).
        exact Hst. }
  destruct H1 as (He1 & Hp1).
  match type of Hs with
  | match matches ?s2 !! _ with _ => _ end = _ => set (s2' := s2) in *
  end.
  destruct (matches s2' !! id) as [v |]; inversion Hs; subst s' m'; clear Hs.
  eapply store_evolves_trans; [exact He1 |].
  subst s2'. destruct (matches s1 !! id) as [v1 |] eqn:Hv1;
    [| apply store_evolves_refl].
  destruct (Match.agent1_move_hash v1); [| apply store_evolves_refl].
  destruct (Match.agent2_move_hash v1); [| apply store_evolves_refl].
  apply update_match_evolves. intros x Hx. rewrite Hv1 in Hx.
  inversion Hx; subst x.
  rewrite sync_incomplete_status by (simpl; discriminate).
  apply row_evolves_waiting. by apply Hp1.
Qed.

Lemma submit_reveal_evolves (sha256_hex : string → string) (now : timestamptz)
    (id agent : uuid) (p_move p_salt : string) (s s' : db) (m' : Match.row) :
  submit_reveal sha256_hex now id agent p_move p_salt s = Ok (s', m') →
  store_evolves s s'.
Proof.
  intros Hs. unfold submit_reveal in Hs.
  destruct (matches s !! id) as [m |] eqn:Hm; [| discriminate].
  destruct (Match.is_waiting_reveals m) eqn:Hp; simpl in Hs; [| discriminate].
  assert (Hst : Match.status m = Match.waiting_reveals).
  { unfold Match.is_waiting_reveals in Hp. destruct (Match.status m); done. }
  destruct (match Match.reveal_deadline m with
            | Some d => d <? now
            | None => false
            end); [discriminate |].
  destruct (negb (N.eqb agent (Match.agent1_id m)
                  || N.eqb agent (Match.agent2_id m))); [discriminate |].
  destruct (move_of_text p_move) as [mv |]; [| discriminate].
  apply bind_Ok_inv in Hs as (s1 & Hs1 & Hs).
  destruct (matches s1 !! id) as [v |]; inversion Hs; subst s' m'; clear Hs.
  destruct (N.eqb agent (Match.agent1_id m)).
  - destruct (Match.agent1_move m); [discriminate |].
    destruct (hash_mismatch _ _); [discriminate |].
    inversion Hs1. apply update_match_evolves. intros x Hx.
    rewrite Hm in Hx. inversion Hx; subst x.
    rewrite sync_incomplete_status by (simpl; rewrite Hst; discriminate).
    by apply row_evolves_reveal.
  - destruct (Match.agent2_move m); [discriminate |].
    destruct (hash_mismatch _ _); [discriminate |].
    inversion Hs1. apply update_match_evolves. intros x Hx.
    rewrite Hm in Hx. inversion Hx; subst x.
    rewrite sync_incomplete_status by (simpl; rewrite Hst; discriminate).
    by apply row_evolves_reveal.
Qed.

Lemma update_agent_opt_frame (v : option uuid)
    (set : Agent.row → res Agent.row) (s s' : db) :
  update_agent_opt v set s = Ok s' →
  matches s' = matches s ∧ challenges s' = challenges s.
Proof.
  destruct v; simpl.
  - intros Hu. pose proof (update_agent_frame _ _ _ _ Hu) as (Hm & Hc & _). done.
  - intros H. by inversion H.
Qed.

Lemma update_agents_in_frame (a1 a2 : uuid)
    (set : Agent.row → res Agent.row) (s s' : db) :
  update_agents_in a1 a2 set s = Ok s' →
  matches s' = matches s ∧ challenges s' = challenges s.
Proof.
  unfold update_agents_in. intros Hu.
  apply bind_Ok_inv in Hu as (sx & Hsx & Hu).
  pose proof (update_agent_frame _ _ _ _ Hsx) as (Hm & Hc & _).
  destruct (decide (a1 = a2)).
  - inversion Hu; subst. done.
  - pose proof (update_agent_frame _ _ _ _ Hu) as (Hm' & Hc' & _).
    split; congruence.
Qed.

Lemma insert_transaction_frame (t : Tx.row) (s s' : db) :
  insert_transaction t s = Ok s' →
  matches s' = matches s ∧ challenges s' = challenges s.
Proof. intros H. apply insert_transaction_inv in H as (-> & _). done. Qed.

Lemma row_evolves_final_moves (m1 m2 : Move) (f1 f2 : bool) (m : Match.row) :
  Match.status m ≠ Match.complete →
  row_evolves m (Match.set_final_moves m1 m2 f1 f2 m).
Proof. intros Hs. row_evolves_by_cases. Qed.

Lemma row_evolves_complete (w : option uuid) (now : timestamptz)
    (m : Match.row) :
  Match.status m ≠ Match.complete →
  row_evolves m (sync_match_phase (Match.set_complete w now m)).
Proof. intros Hs. unfold sync_match_phase. simpl. row_evolves_by_cases. Qed.

Lemma resolve_match_evolves (now : timestamptz) (id : uuid) (p1 p2 : string)
    (f1 f2 : bool) (st1 st2 : gmap string jsval) (s s' : db) (m' : Match.row) :
  resolve_match now id p1 p2 f1 f2 st1 st2 s = Ok (s', m') →
  store_evolves s s'.
Proof.
  intros Hr. unfold resolve_match in Hr.
  destruct (matches s !! id) as [m |] eqn:Hm; [| discriminate].
  destruct (Match.is_complete m) eqn:Hnc; [discriminate |].
  assert (Hst : Match.status m ≠ Match.complete).
  { unfold Match.is_complete in Hnc. destruct (Match.status m); done. }
  destruct (move_of_text p1) as [m1 |]; [| discriminate].
  destruct (move_of_text p2) as [m2 |]; [| discriminate].
  set (s1 := update_match id (Match.set_final_moves m1 m2 f1 f2) s) in *.
  assert (Hrow1 : matches s1 !! id = Some (Match.set_final_moves m1 m2 f1 f2 m)).
  { subst s1. rewrite (update_match_Some _ _ _ _ Hm). simpl.
    rewrite lookup_insert_eq, sync_match_phase_incomplete; done. }
  assert (He1 : store_evolves s s1).
  { apply update_match_evolves. intros x Hx. rewrite Hm in Hx.
    inversion Hx; subst x. rewrite sync_incomplete_status by exact Hst.
    by apply row_evolves_final_moves. }
  destruct (determine_winner m m1 m2) as [v_winner_id v_loser_id].
  apply bind_Ok_inv in Hr as (s2 & Hs2 & Hr).
  apply bind_Ok_inv in Hr as (s4 & Hs4 & Hr).
  apply bind_Ok_inv in Hr as (s5 & Hs5 & Hr).
  set (s3 := update_match id (Match.set_complete v_winner_id now) s2) in *.
  destruct (matches s5 !! id) as [v |]; inversion Hr; subst s5 v; clear Hr.
  assert (H2 : matches s2 = matches s1 ∧ challenges s2 = challenges s1).
  { destruct (bool_decide (m1 = m2)).
    - apply bind_Ok_inv in Hs2 as (sa & Hsa & Hs2).
      apply bind_Ok_inv in Hs2 as (sb & Hsb & Hs2).
      apply bind_Ok_inv in Hs2 as (sc & Hsc & Hs2).
      apply update_agents_in_frame in Hsa as [? ?].
      apply insert_transaction_frame in Hsb as [? ?].
      apply insert_transaction_frame in Hsc as [? ?].
      apply update_agents_in_frame in Hs2 as [? ?].
      split; congruence.
    - apply bind_Ok_inv in Hs2 as (w2 & _ & Hs2).
      apply bind_Ok_inv in Hs2 as (sa & Hsa & Hs2).
      apply bind_Ok_inv in Hs2 as (sb & Hsb & Hs2).
      apply bind_Ok_inv in Hs2 as (sc & Hsc & Hs2).
      destruct v_winner_id as [wid |]; [| discriminate].
      apply update_agent_opt_frame in Hsa as [? ?].
      apply insert_transaction_frame in Hsb as [? ?].
      apply update_agent_opt_frame in Hsc as [? ?].
      apply update_agent_opt_frame in Hs2 as [? ?].
      split; congruence. }
  destruct H2 as (Hm2 & Hc2).
  eapply store_evolves_trans; [exact He1 |].
  eapply store_evolves_trans; [by apply store_evolves_same_tables |].
  eapply store_evolves_trans;
    [| eapply store_evolves_trans;
       [eapply update_agent_evolves; exact Hs4
       | eapply update_agent_evolves; exact Hs5]].
  subst s3. apply update_match_evolves. intros x Hx.
  rewrite Hm2, Hrow1 in Hx. inversion Hx; subst x.
  apply row_evolves_complete. simpl. exact Hst.
Qed.

Lemma create_match_evolves (now : timestamptz)
    (new_id p_challenge_id p_accepter_id : uuid)
    (p_strategy_seconds p_commit_seconds : Z) (s s' : db) (m : Match.row) :
  create_match now new_id p_challenge_id p_accepter_id
    p_strategy_seconds p_commit_seconds s = Ok (s', m) →
  store_evolves s s'.
Proof.
  intros Hcm. unfold create_match in Hcm.
  destruct (challenges s !! p_challenge_id) as [c |] eqn:Hch; [| discriminate].
  destruct (Challenge.is_open c) eqn:Hopen; simpl in Hcm; [| discriminate].
  destruct (bool_decide (Challenge.challenger_id c = p_accepter_id));
    [discriminate |].
  destruct (match agents s !! p_accepter_id with
            | Some a => Agent.balance a <? Challenge.wager_amount c
            | None => false
            end); [discriminate |].
  apply bind_Ok_inv in Hcm as (s1 & Hs1 & Hcm).
  destruct (agents s !! Challenge.challenger_id c) as [challenger |];
    [| discriminate].
  destruct (agents s !! p_accepter_id) as [accepter |]; [| discriminate].
  destruct (matches s1 !! new_id) eqn:Hfresh; [discriminate |].
  inversion Hcm; subst s' m; clear Hcm.
  pose proof (update_agent_frame _ _ _ _ Hs1) as (Hm1 & Hc1 & _).
  eapply store_evolves_trans; [eapply update_agent_evolves; exact Hs1 |].
  match goal with
  | |- store_evolves _ (update_challenge_status _ _ ?s2) => set (s2' := s2)
  end.
  eapply (store_evolves_trans _ s2').
  - split; [| split]; simpl.
    + intros id x Hx. exists x. destruct (decide (id = new_id)) as [-> |];
        [congruence |].
      rewrite lookup_insert_ne by done.
      split; [exact Hx | apply row_evolves_refl].
    + intros id x Hx Hn. destruct (decide (id = new_id)) as [-> |].
      * rewrite lookup_insert_eq in Hx. inversion Hx.
        unfold phase_agrees. simpl. split; discriminate.
      * rewrite lookup_insert_ne in Hx by done. congruence.
    + intros cid x Hx. exists x. auto.
  - apply update_challenge_status_evolves. intros x Hx.
    change (challenges s2') with (challenges s1) in Hx.
    rewrite Hc1, Hch in Hx. inversion Hx; subst x.
    unfold Challenge.is_open in Hopen. destruct (Challenge.status c); done.
Qed.

Lemma cancel_challenge_evolves (p_challenge_id p_agent_id : uuid) (s s' : db)
    (r : bool * Z * string) :
  cancel_challenge p_challenge_id p_agent_id s = Ok (s', r) →
  store_evolves s s'.
Proof.
  intros Hcc. unfold cancel_challenge in Hcc.
  destruct (challenges s !! p_challenge_id) as [c |] eqn:Hch;
    [| inversion Hcc; apply store_evolves_refl].
  destruct (negb (bool_decide (Challenge.challenger_id c = p_agent_id)));
    [inversion Hcc; apply store_evolves_refl |].
  destruct (Challenge.is_open c) eqn:Hopen; simpl in Hcc;
    [| inversion Hcc; apply store_evolves_refl].
  apply bind_Ok_inv in Hcc as (s2 & Hs2 & Hcc).
  apply bind_Ok_inv in Hcc as (s3 & Hs3 & Hcc).
  inversion Hcc; subst s' r; clear Hcc.
  eapply store_evolves_trans;
    [| eapply store_evolves_trans;
       [eapply update_agent_evolves; exact Hs2
       | eapply insert_transaction_evolves; exact Hs3]].
  apply update_challenge_status_evolves. intros x Hx.
  rewrite Hch in Hx. inversion Hx; subst x.
  unfold Challenge.is_open in Hopen. destruct (Challenge.status c); done.
Qed.

Lemma rpc_evolves {A} (f : db → res (db * A)) (s : db) :
  (∀ s' a, f s = Ok (s', a) → store_evolves s s') →
  store_evolves s (fst (rpc f s)).
Proof.
  intros H. apply (rpc_fst f s (store_evolves s));
    [apply store_evolves_refl | exact H].
Qed.

Lemma post_challenge_evolves (agent_id : uuid) (wager : Z) (new_id : uuid)
    (s : db) :
  store_evolves s (fst (post_challenge agent_id wager new_id s)).
Proof.
  destruct (post_challenge agent_id wager new_id s) as [s' res'] eqn:Hp. simpl.
  unfold post_challenge in Hp.
  destruct (wager <=? 0); [inversion Hp; apply store_evolves_refl |].
  destruct (negb (is_ok (int4 wager)));
    [inversion Hp; apply store_evolves_refl |].
  destruct (rpc (escrow_wager agent_id wager) s) as [s1 r1] eqn:He.
  assert (He1 : store_evolves s s1).
  { apply rpc_inv in He as [(b & He & _) | (e & -> & _)];
      [| apply store_evolves_refl].
    unfold escrow_wager in He. destruct (agents s !! agent_id) as [a |].
    - destruct (Agent.balance a <? wager).
      + inversion He. apply store_evolves_refl.
      + apply bind_Ok_inv in He as (sx & Hsx & He). inversion He; subst.
        eapply update_agent_evolves; exact Hsx.
    - inversion He. apply store_evolves_refl. }
  destruct r1 as [[|] | e]; try (inversion Hp; subst; exact He1).
  destruct (rpc (insert_challenge new_id agent_id wager) s1) as [s2 r2] eqn:Hi.
  assert (He2 : store_evolves s1 s2).
  { apply rpc_inv in Hi as [(c & Hi & _) | (e & -> & _)];
      [| apply store_evolves_refl].
    apply insert_challenge_inv in Hi as (_ & _ & Hfresh & _ & ->).
    split; [| split]; simpl.
    - intros id m Hm. exists m. split; [exact Hm | apply row_evolves_refl].
    - intros id m' Hm' Hn. congruence.
    - intros cid x Hx. exists x. destruct (decide (cid = new_id)) as [-> |];
        [congruence |].
      rewrite lookup_insert_ne by done. auto. }
  destruct r2 as [c | e].
  - inversion Hp; subst. eapply store_evolves_trans; eassumption.
  - inversion Hp; subst.
    eapply store_evolves_trans; [exact He1 |].
    eapply store_evolves_trans; [exact He2 |].
    apply rpc_evolves. intros s3 u Hr. unfold refund_wager in Hr.
    apply bind_Ok_inv in Hr as (sx & Hsx & Hr). inversion Hr; subst.
    eapply update_agent_evolves; exact Hsx.
Qed.

Lemma set_strategy_evolves (agent_id : uuid) (body_strategy : option json)
    (s : db) :
  store_evolves s (fst (set_strategy agent_id body_strategy s)).
Proof.
  unfold set_strategy.
  destruct body_strategy as [strategy |]; [| apply store_evolves_refl].
  destruct (negb (js_truthy strategy)); [apply store_evolves_refl |].
  destruct (negb (validateStrategy strategy)); [apply store_evolves_refl |].
  destruct (as_Strategy strategy); [| apply store_evolves_refl].
  destruct (agents s !! agent_id); [| apply store_evolves_refl].
  by apply store_evolves_same_tables.
Qed.

Section Evolution.

Variable sha256_hex : string → string.

Lemma run_evolves (a : action) (s : db) :
  store_evolves s (run sha256_hex a s).
Proof.
  destruct a as [agent_id wager new_id | challenge_id agent_id
                 | now new_id challenge_id agent_id ss cs | agent_id strategy
                 | now agent_id match_id move_hash
                 | now now' rand1 rand2 agent_id match_id mvj salt
                 | now rand1 rand2 id row]; simpl.
  - apply post_challenge_evolves.
  - apply rpc_evolves. intros s' r. apply cancel_challenge_evolves.
  - unfold accept_challenge. apply rpc_evolves. intros s' m Hm.
    apply bind_Ok_inv in Hm as (p & _ & Hm).
    apply bind_Ok_inv in Hm as (q & _ & Hm).
    eapply create_match_evolves; exact Hm.
  - apply set_strategy_evolves.
  - destruct (commit_move now agent_id match_id move_hash s) as [s' r] eqn:Hcm.
    simpl. unfold commit_move in Hcm.
    destruct match_id as [id |]; [| inversion Hcm; apply store_evolves_refl].
    destruct move_hash as [[| | | h | |] |];
      try (inversion Hcm; apply store_evolves_refl).
    destruct (negb (js_length h =? 64)%nat);
      [inversion Hcm; apply store_evolves_refl |].
    destruct (rpc (submit_commit now id agent_id h 60) s) as [s1 r1] eqn:Hrpc.
    apply rpc_inv in Hrpc as [(m & Hs & ->) | (e & -> & ->)];
      inversion Hcm; subst; [| apply store_evolves_refl].
    eapply submit_commit_evolves; exact Hs.
  - destruct (reveal_move sha256_hex now now' rand1 rand2 agent_id match_id
                mvj salt s) as [s' r] eqn:Hp.
    simpl. unfold reveal_move in Hp.
    destruct match_id as [id |]; [| inversion Hp; apply store_evolves_refl].
    destruct (as_move mvj) as [mv |];
      [| inversion Hp; apply store_evolves_refl].
    destruct salt as [[| | | sl | |] |];
      try (inversion Hp; apply store_evolves_refl).
    destruct (js_length sl <? 16)%nat;
      [inversion Hp; apply store_evolves_refl |].
    destruct (rpc (submit_reveal sha256_hex now id agent_id (move_text mv) sl) s)
      as [s1 r1] eqn:Hrpc.
    apply rpc_inv in Hrpc as [(m & Hs & ->) | (e & -> & ->)];
      [| inversion Hp; apply store_evolves_refl].
    apply submit_reveal_evolves in Hs.
    destruct (Match.agent1_move m) as [m1 |]; [| inversion Hp; subst; exact Hs].
    destruct (Match.agent2_move m) as [m2 |]; [| inversion Hp; subst; exact Hs].
    eapply store_evolves_trans; [exact Hs |].
    unfold resolveMatch in Hp.
    destruct (agents s1 !! Match.agent1_id m);
      [| inversion Hp; apply store_evolves_refl].
    destruct (agents s1 !! Match.agent2_id m);
      [| inversion Hp; apply store_evolves_refl].
    match type of Hp with
    | (let (_, _) := ?t in _) = _ => destruct t as [s2 r2] eqn:Hrpc
    end.
    apply rpc_inv in Hrpc as [(x & Hx & ->) | (e & -> & ->)];
      inversion Hp; subst; [| apply store_evolves_refl].
    eapply resolve_match_evolves; exact Hx.
  - destruct (processMatch now rand1 rand2 id row s) as [s' [out | e]] eqn:Hp;
      simpl.
    + apply processMatch_inv in Hp as (p1 & p2 & f1 & f2 & st1 & st2 & m' & Hr).
      eapply resolve_match_evolves; exact Hr.
    + unfold processMatch in Hp.
      repeat case_match; inversion Hp; subst; try apply store_evolves_refl;
        match goal with
        | H : rpc _ _ = _ |- _ =>
            apply rpc_inv in H as [(? & _ & Heq) | (? & -> & _)];
            [discriminate | apply store_evolves_refl]
        end.
Qed.

Lemma run_all_evolves (acts : list action) (s : db) :
  store_evolves s (run_all sha256_hex acts s).
Proof.
  revert s. induction acts as [| a acts IH]; intros s;
    [apply store_evolves_refl |].
  simpl. eapply store_evolves_trans; [apply run_evolves | apply IH].
Qed.

End Evolution.

(** ** The reaper and the live calls *)

Lemma same_elsewhere_refl (id' : uuid) (s : db) : same_elsewhere id' s s.
Proof. intros k _. reflexivity. Qed.

Lemma same_elsewhere_trans (id' : uuid) (a b c : db) :
  same_elsewhere id' a b → same_elsewhere id' b c → same_elsewhere id' a c.
Proof. intros H1 H2 k Hk. rewrite (H2 k Hk). by apply H1. Qed.

Lemma same_elsewhere_matches (id' : uuid) (s s' : db) :
  matches s' = matches s → same_elsewhere id' s s'.
Proof. intros H k _. by rewrite H. Qed.

Lemma update_match_elsewhere (id' : uuid) (set : Match.row → Match.row)
    (s : db) :
  same_elsewhere id' s (update_match id' set s).
Proof.
  intros k Hk. unfold update_match.
  destruct (matches s !! id'); [| reflexivity].
  simpl. by rewrite lookup_insert_ne.
Qed.

Lemma submit_commit_elsewhere (now : timestamptz) (id' agent : uuid)
    (h : string) (rs : Z) (s s' : db) (m' : Match.row) :
  submit_commit now id' agent h rs s = Ok (s', m') → same_elsewhere id' s s'.
Proof.
  intros Hs. unfold submit_commit in Hs.
  destruct (matches s !! id') as [m |]; [| discriminate].
  destruct (negb (Match.is_pending m)); [discriminate |].
  destruct (match Match.strategy_deadline m with
            | Some d => now <? d
            | None => false
            end); [discriminate |].
  destruct (Match.commit_deadline m <? now); [discriminate |].
  destruct (negb (N.eqb agent (Match.agent1_id m)
                  || N.eqb agent (Match.agent2_id m))); [discriminate |].
  apply bind_Ok_inv in Hs as (s1 & Hs1 & Hs).
  assert (H1 : same_elsewhere id' s s1).
  { destruct (N.eqb agent (Match.agent1_id m)).
    - destruct (Match.agent1_move_hash m); [discriminate |].
      inversion Hs1. apply update_match_elsewhere.
    - destruct (Match.agent2_move_hash m); [discriminate |].
      inversion Hs1. apply update_match_elsewhere. }
  match type of Hs with
  | match matches ?s2 !! _ with _ => _ end = _ => set (s2' := s2) in *
  end.
  destruct (matches s2' !! id') as [v |]; inversion Hs; subst s' m'; clear Hs.
  eapply same_elsewhere_trans; [exact H1 |].
  subst s2'. destruct (matches s1 !! id') as [v1 |];
    [| apply same_elsewhere_refl].
  destruct (Match.agent1_move_hash v1); [| apply same_elsewhere_refl].
  destruct (Match.agent2_move_hash v1); [| apply same_elsewhere_refl].
  apply update_match_elsewhere.
Qed.

Lemma submit_reveal_elsewhere (sha256_hex : string → string)
    (now : timestamptz) (id' agent : uuid) (p_move p_salt : string)
    (s s' : db) (m' : Match.row) :
  submit_reveal sha256_hex now id' agent p_move p_salt s = Ok (s', m') →
  same_elsewhere id' s s'.
Proof.
  intros Hs. unfold submit_reveal in Hs.
  destruct (matches s !! id') as [m |]; [| discriminate].
  destruct (negb (Match.is_waiting_reveals m)); [discriminate |].
  destruct (match Match.reveal_deadline m with
            | Some d => d <? now
            | None => false
            end); [discriminate |].
  destruct (negb (N.eqb agent (Match.agent1_id m)
                  || N.eqb agent (Match.agent2_id m))); [discriminate |].
  destruct (move_of_text p_move) as [mv |]; [| discriminate].
  apply bind_Ok_inv in Hs as (s1 & Hs1 & Hs).
  destruct (matches s1 !! id') as [v |]; inversion Hs; subst s' m'; clear Hs.
  destruct (N.eqb agent (Match.agent1_id m)).
  - destruct (Match.agent1_move m); [discriminate |].
    destruct (hash_mismatch _ _); [discriminate |].
    inversion Hs1. apply update_match_elsewhere.
  - destruct (Match.agent2_move m); [discriminate |].
    destruct (hash_mismatch _ _); [discriminate |].
    inversion Hs1. apply update_match_elsewhere.
Qed.

Lemma resolve_match_elsewhere (now : timestamptz) (id' : uuid)
    (p1 p2 : string) (f1 f2 : bool) (st1 st2 : gmap string jsval)
    (s s' : db) (m' : Match.row) :
  resolve_match now id' p1 p2 f1 f2 st1 st2 s = Ok (s', m') →
  same_elsewhere id' s s'.
Proof.
  intros Hr. unfold resolve_match in Hr.
  destruct (matches s !! id') as [m |]; [| discriminate].
  destruct (Match.is_complete m); [discriminate |].
  destruct (move_of_text p1) as [m1 |]; [| discriminate].
  destruct (move_of_text p2) as [m2 |]; [| discriminate].
  set (s1 := update_match id' (Match.set_final_moves m1 m2 f1 f2) s) in *.
  destruct (determine_winner m m1 m2) as [v_winner_id v_loser_id].
  apply bind_Ok_inv in Hr as (s2 & Hs2 & Hr).
  apply bind_Ok_inv in Hr as (s4 & Hs4 & Hr).
  apply bind_Ok_inv in Hr as (s5 & Hs5 & Hr).
  set (s3 := update_match id' (Match.set_complete v_winner_id now) s2) in *.
  destruct (matches s5 !! id') as [v |]; inversion Hr; subst s5 v; clear Hr.
  assert (H2 : matches s2 = matches s1).
  { destruct (bool_decide (m1 = m2)).
    - apply bind_Ok_inv in Hs2 as (sa & Hsa & Hs2).
      apply bind_Ok_inv in Hs2 as (sb & Hsb & Hs2).
      apply bind_Ok_inv in Hs2 as (sc & Hsc & Hs2).
      apply update_agents_in_frame in Hsa as [? ?].
      apply insert_transaction_frame in Hsb as [? ?].
      apply insert_transaction_frame in Hsc as [? ?].
      apply update_agents_in_frame in Hs2 as [? ?].
      congruence.
    - apply bind_Ok_inv in Hs2 as (w2 & _ & Hs2).
      apply bind_Ok_inv in Hs2 as (sa & Hsa & Hs2).
      apply bind_Ok_inv in Hs2 as (sb & Hsb & Hs2).
      apply bind_Ok_inv in Hs2 as (sc & Hsc & Hs2).
      destruct v_winner_id as [wid |]; [| discriminate].
      apply update_agent_opt_frame in Hsa as [? ?].
      apply insert_transaction_frame in Hsb as [? ?].
      apply update_agent_opt_frame in Hsc as [? ?].
      apply update_agent_opt_frame in Hs2 as [? ?].
      congruence. }
  pose proof (update_agent_frame _ _ _ _ Hs4) as (Hm4 & _).
  pose proof (update_agent_frame _ _ _ _ Hs5) as (Hm5 & _).
  apply (same_elsewhere_trans id' s s1);
    [apply (update_match_elsewhere id' (Match.set_final_moves m1 m2 f1 f2) s) |].
  apply (same_elsewhere_trans id' s1 s2);
    [apply same_elsewhere_matches; exact H2 |].
  apply (same_elsewhere_trans id' s2 s3);
    [apply (update_match_elsewhere id' (Match.set_complete v_winner_id now) s2) |].
  apply same_elsewhere_matches. congruence.
Qed.

(** A row that the view lists at [t0] is refused every commit and every
    reveal whose transaction starts at [t0] or later. *)
Lemma stale_row_refuses_commit (t0 now : timestamptz) (id agent : uuid)
    (h : string) (rs : Z) (s : db) (row : Match.row) :
  matches s !! id = Some row → is_stale t0 row = true → t0 <= now →
  is_ok (submit_commit now id agent h rs s) = false.
Proof.
  intros Hrow Hst Hnow. unfold submit_commit. rewrite Hrow.
  unfold is_stale, Match.is_pending, Match.is_waiting_reveals in *.
  destruct (Match.status row); simpl in *; try reflexivity.
  rewrite orb_false_r in Hst. apply Z.ltb_lt in Hst.
  destruct (match Match.strategy_deadline row with
            | Some d => now <? d
            | None => false
            end); [reflexivity |].
  destruct (Z.ltb_spec (Match.commit_deadline row) now); [reflexivity | lia].
Qed.

Lemma stale_row_refuses_reveal (sha256_hex : string → string)
    (t0 now : timestamptz) (id agent : uuid) (p_move p_salt : string)
    (s : db) (row : Match.row) :
  matches s !! id = Some row → is_stale t0 row = true → t0 <= now →
  is_ok (submit_reveal sha256_hex now id agent p_move p_salt s) = false.
Proof.
  intros Hrow Hst Hnow. unfold submit_reveal. rewrite Hrow.
  unfold is_stale, Match.is_pending, Match.is_waiting_reveals in *.
  destruct (Match.status row); simpl in *; try reflexivity.
  destruct (Match.reveal_deadline row) as [d |]; [| discriminate].
  apply Z.ltb_lt in Hst.
  destruct (Z.ltb_spec d now); [reflexivity | lia].
Qed.

Lemma rpc_refused {A} (f : db → res (db * A)) (s : db) :
  is_ok (f s) = false → fst (rpc f s) = s.
Proof. unfold rpc. destruct (f s) as [[s' a] | e]; [discriminate | done]. Qed.

Lemma post_challenge_matches (agent_id : uuid) (wager : Z) (new_id : uuid)
    (s : db) :
  matches (fst (post_challenge agent_id wager new_id s)) = matches s.
Proof.
  destruct (post_challenge agent_id wager new_id s) as [s' res'] eqn:Hp. simpl.
  unfold post_challenge in Hp.
  destruct (wager <=? 0); [by inversion Hp |].
  destruct (negb (is_ok (int4 wager))); [by inversion Hp |].
  destruct (rpc (escrow_wager agent_id wager) s) as [s1 r1] eqn:He.
  assert (H1 : matches s1 = matches s).
  { apply rpc_inv in He as [(b & He & _) | (e & -> & _)]; [| reflexivity].
    unfold escrow_wager in He. destruct (agents s !! agent_id) as [a |].
    - destruct (Agent.balance a <? wager).
      + by inversion He.
      + apply bind_Ok_inv in He as (sx & Hsx & He). inversion He; subst.
        by apply update_agent_frame in Hsx as (? & _).
    - by inversion He. }
  destruct r1 as [[|] | e]; try (inversion Hp; subst; exact H1).
  destruct (rpc (insert_challenge new_id agent_id wager) s1) as [s2 r2] eqn:Hi.
  assert (H2 : matches s2 = matches s1).
  { apply rpc_inv in Hi as [(c & Hi & _) | (e & -> & _)]; [| reflexivity].
    by apply insert_challenge_inv in Hi as (_ & _ & _ & _ & ->). }
  destruct r2 as [c | e]; inversion Hp; subst; [congruence |].
  rewrite <- H1, <- H2.
  apply (rpc_fst (refund_wager agent_id wager) s2
           (fun x => matches x = matches s2)); [reflexivity |].
  intros s3 u Hr. unfold refund_wager in Hr.
  apply bind_Ok_inv in Hr as (sx & Hsx & Hr). inversion Hr; subst.
  by apply update_agent_frame in Hsx as (? & _).
Qed.

Lemma cancel_challenge_matches (p_challenge_id p_agent_id : uuid) (s : db) :
  matches (fst (rpc (cancel_challenge p_challenge_id p_agent_id) s)) = matches s.
Proof.
  apply (rpc_fst (cancel_challenge p_challenge_id p_agent_id) s
           (fun x => matches x = matches s)); [reflexivity |].
  intros s' r Hcc. unfold cancel_challenge in Hcc.
  destruct (challenges s !! p_challenge_id) as [c |]; [| by inversion Hcc].
  destruct (negb (bool_decide (Challenge.challenger_id c = p_agent_id)));
    [by inversion Hcc |].
  destruct (Challenge.is_open c); simpl in Hcc; [| by inversion Hcc].
  apply bind_Ok_inv in Hcc as (s2 & Hs2 & Hcc).
  apply bind_Ok_inv in Hcc as (s3 & Hs3 & Hcc).
  inversion Hcc; subst s' r; clear Hcc.
  apply update_agent_frame in Hs2 as (H2 & _).
  apply insert_transaction_frame in Hs3 as (H3 & _).
  rewrite H3, H2.
  apply (update_challenge_status_frame p_challenge_id Challenge.cancelled s).
Qed.

Lemma set_strategy_matches (agent_id : uuid) (body_strategy : option json)
    (s : db) :
  matches (fst (set_strategy agent_id body_strategy s)) = matches s.
Proof.
  unfold set_strategy.
  destruct body_strategy as [strategy |]; [| reflexivity].
  destruct (negb (js_truthy strategy)); [reflexivity |].
  destruct (negb (validateStrategy strategy)); [reflexivity |].
  destruct (as_Strategy strategy); [| reflexivity].
  destruct (agents s !! agent_id); reflexivity.
Qed.

(** Accepting a challenge adds a row under a fresh key and leaves every row
    that is there as it is. *)
Lemma accept_challenge_keeps (now : timestamptz) (new_id : uuid)
    (challengeId agent_id : uuid) (ss cs : float) (s : db) (k : uuid)
    (m : Match.row) :
  matches s !! k = Some m →
  matches (fst (accept_challenge now new_id challengeId agent_id ss cs s)) !! k
  = Some m.
Proof.
  intros Hk. unfold accept_challenge.
  match goal with
  | |- matches (fst (rpc ?f s)) !! k = Some m =>
      apply (rpc_fst f s (fun x => matches x !! k = Some m)); [exact Hk |]
  end.
  intros s' m' Hm.
  apply bind_Ok_inv in Hm as (p & _ & Hm).
  apply bind_Ok_inv in Hm as (q & _ & Hcm).
  unfold create_match in Hcm.
  destruct (challenges s !! challengeId) as [c |]; [| discriminate].
  destruct (Challenge.is_open c); simpl in Hcm; [| discriminate].
  destruct (bool_decide (Challenge.challenger_id c = agent_id));
    [discriminate |].
  destruct (match agents s !! agent_id with
            | Some a => Agent.balance a <? Challenge.wager_amount c
            | None => false
            end); [discriminate |].
  apply bind_Ok_inv in Hcm as (s1 & Hs1 & Hcm).
  destruct (agents s !! Challenge.challenger_id c) as [challenger |];
    [| discriminate].
  destruct (agents s !! agent_id) as [accepter |]; [| discriminate].
  destruct (matches s1 !! new_id) eqn:Hfresh; [discriminate |].
  inversion Hcm; subst s' m'; clear Hcm.
  pose proof (update_agent_frame _ _ _ _ Hs1) as (Hm1 & _).
  match goal with
  | |- matches (update_challenge_status ?c ?st ?s2) !! _ = _ =>
      rewrite (proj1 (proj2 (update_challenge_status_frame c st s2)))
  end.
  simpl. destruct (decide (k = new_id)) as [-> |].
  - rewrite Hm1 in Hfresh. congruence.
  - rewrite lookup_insert_ne by done. by rewrite Hm1.
Qed.

(** One call on a row that the view lists at [t0]: the call leaves the row
    as the view shows it, or it is the reaper's and completes the match. *)
Lemma run_on_stale_row (sha256_hex : string → string) (t0 : timestamptz)
    (a : action) (id : uuid) (row : Match.row) (s : db) :
  matches s !! id = Some row → is_stale t0 row = true → not_before t0 a →
  ∃ m', matches (run sha256_hex a s) !! id = Some m'
        ∧ (m' = row ∨ Match.status m' = Match.complete).
Proof.
  intros Hrow Hst Hnb.
  assert (Hkeep : ∀ s', matches s' !! id = matches s !! id →
            ∃ m', matches s' !! id = Some m'
                  ∧ (m' = row ∨ Match.status m' = Match.complete)).
  { intros s' H. exists row. rewrite H. auto. }
  destruct a as [agent_id wager new_id | challenge_id agent_id
                 | now new_id challenge_id agent_id ss cs | agent_id strategy
                 | now agent_id match_id move_hash
                 | now now' rand1 rand2 agent_id match_id mvj salt
                 | now rand1 rand2 id0 row0]; simpl in *.
  - apply Hkeep. by rewrite post_challenge_matches.
  - apply Hkeep. by rewrite cancel_challenge_matches.
  - apply Hkeep. rewrite Hrow. by apply accept_challenge_keeps.
  - apply Hkeep. by rewrite set_strategy_matches.
  - apply Hkeep.
    destruct (commit_move now agent_id match_id move_hash s) as [s' r] eqn:Hcm.
    simpl. unfold commit_move in Hcm.
    destruct match_id as [id0 |]; [| by inversion Hcm].
    destruct move_hash as [[| | | h | |] |]; try (by inversion Hcm).
    destruct (negb (js_length h =? 64)%nat); [by inversion Hcm |].
    destruct (rpc (submit_commit now id0 agent_id h 60) s) as [s1 r1] eqn:Hrpc.
    assert (H1 : matches s1 !! id = matches s !! id).
    { destruct (decide (id0 = id)) as [-> | Hne].
      - pose proof (stale_row_refuses_commit t0 now id agent_id h 60 s row
                      Hrow Hst Hnb) as Hno.
        apply rpc_refused in Hno. rewrite Hrpc in Hno. simpl in Hno.
        by rewrite Hno.
      - apply rpc_inv in Hrpc as [(m & Hs & _) | (e & -> & _)]; [| done].
        apply submit_commit_elsewhere in Hs. by apply Hs. }
    destruct r1; inversion Hcm; subst; exact H1.
  - destruct (reveal_move sha256_hex now now' rand1 rand2 agent_id match_id
                mvj salt s) as [s' r] eqn:Hp.
    simpl. unfold reveal_move in Hp.
    destruct match_id as [id0 |]; [| inversion Hp; subst; by apply Hkeep].
    destruct (as_move mvj) as [mv |]; [| inversion Hp; subst; by apply Hkeep].
    destruct salt as [[| | | sl | |] |];
      try (inversion Hp; subst; by apply Hkeep).
    destruct (js_length sl <? 16)%nat; [inversion Hp; subst; by apply Hkeep |].
    destruct (rpc (submit_reveal sha256_hex now id0 agent_id (move_text mv) sl) s)
      as [s1 r1] eqn:Hrpc.
    destruct (decide (id0 = id)) as [-> | Hne].
    + pose proof (stale_row_refuses_reveal sha256_hex t0 now id agent_id
                    (move_text mv) sl s row Hrow Hst Hnb) as Hno.
      pose proof (rpc_refused _ _ Hno) as Hsame.
      unfold rpc in Hrpc.
      destruct (submit_reveal sha256_hex now id agent_id (move_text mv) sl s)
        as [[sx mx] | e]; [discriminate Hno |].
      inversion Hrpc; subst s1 r1. inversion Hp; subst. by apply Hkeep.
    + apply Hkeep.
      apply rpc_inv in Hrpc as [(m & Hs & ->) | (e & -> & ->)];
        [| by inversion Hp].
      apply submit_reveal_elsewhere in Hs.
      destruct (Match.agent1_move m) as [m1 |];
        [| inversion Hp; subst; by apply Hs].
      destruct (Match.agent2_move m) as [m2 |];
        [| inversion Hp; subst; by apply Hs].
      rewrite <- (Hs id) by done.
      unfold resolveMatch in Hp.
      destruct (agents s1 !! Match.agent1_id m); [| by inversion Hp].
      destruct (agents s1 !! Match.agent2_id m); [| by inversion Hp].
      match type of Hp with
      | (let (_, _) := ?t in _) = _ => destruct t as [s2 r2] eqn:Hrpc
      end.
      apply rpc_inv in Hrpc as [(x & Hx & ->) | (e & -> & ->)];
        inversion Hp; subst; [| reflexivity].
      apply resolve_match_elsewhere in Hx. by apply Hx.
  - destruct (processMatch now rand1 rand2 id0 row0 s) as [s' [out | e]] eqn:Hp;
      simpl.
    + apply processMatch_inv in Hp as (p1 & p2 & f1 & f2 & st1 & st2 & m' & Hr).
      destruct (decide (id0 = id)) as [-> | Hne].
      * apply resolve_match_inv in Hr as (m & _ & _ & Hm' & Hc & _).
        exists m'. auto.
      * apply Hkeep. apply resolve_match_elsewhere in Hr. by apply Hr.
    + apply Hkeep. unfold processMatch in Hp.
      repeat case_match; inversion Hp; subst; try reflexivity;
        match goal with
        | H : rpc _ _ = _ |- _ =>
            apply rpc_inv in H as [(? & _ & Heq) | (? & -> & _)];
            [discriminate | reflexivity]
        end.
Qed.

(** X9.  The reaper and the live calls never both act on a match.  Take a
    row that the stale_matches view lists at time t0, and let any handler
    calls be served after the view was read, one after another and each as
    a whole, in any number and order -- posts, cancels, accepts, strategy
    changes, commits, reveals and the reaper's own processMatch calls --
    where every commit and reveal runs in a transaction that starts at t0
    or later.  Then at every moment the match
    row is still exactly the row the view showed, or the match is complete:
    no commit and no reveal is accepted on it, so the row that processMatch
    settles is the row it read, and a reveal cannot be overwritten. *)
Theorem live_call_excludes_reaper (sha256_hex : string → string)
    (acts : list action) (t0 : timestamptz) (id : uuid) (row : Match.row)
    (s : db) :
  In (id, row) (stale_matches t0 s) →
  Forall (not_before t0) acts →
  ∃ m', matches (run_all sha256_hex acts s) !! id = Some m'
        ∧ (m' = row ∨ Match.status m' = Match.complete).
Proof.
  intros Hin Hacts. apply stale_matches_inv in Hin as [Hrow Hst].
  assert (Hinv : ∃ m', matches s !! id = Some m'
                       ∧ (m' = row ∨ Match.status m' = Match.complete))
    by eauto.
  clear Hrow. revert s Hinv.
  induction Hacts as [| a acts Ha _ IH]; intros s Hinv; [exact Hinv |].
  simpl. apply IH. destruct Hinv as (m & Hm & [-> | Hc]).
  - eapply run_on_stale_row; eassumption.
  - exists m. split; [| by right].
    destruct (run_evolves sha256_hex a s) as (Hrows & _).
    destruct (Hrows id m Hm) as (m'' & Hm'' & Hev).
    rewrite Hm''. f_equal.
    destruct Hev as (_ & _ & _ & _ & _ & _ & _ & _ & _ & Hfin).
    by apply Hfin.
Qed.

Lemma live_call_excludes_reaper_witness :
  In (20%N, duel_row) (stale_matches 130000000 duel_committed)
  ∧ Forall (not_before 130000000)
      [CommitMove 131000000 agent_B (Some 20%N) (Some (Jstring lone_hash));
       SetStrategy agent_B (Some always_paper);
       ProcessStale 132000000 0 0 20 duel_row;
       CommitMove 133000000 agent_B (Some 20%N) (Some (Jstring lone_hash))]
  ∧ ∃ m',
      matches
        (run_all padded_digest
           [CommitMove 131000000 agent_B (Some 20%N) (Some (Jstring lone_hash));
            SetStrategy agent_B (Some always_paper);
            ProcessStale 132000000 0 0 20 duel_row;
            CommitMove 133000000 agent_B (Some 20%N) (Some (Jstring lone_hash))]
           duel_committed) !! 20%N = Some m'
      ∧ (m' = duel_row ∨ Match.status m' = Match.complete).
Proof.
  assert (Hin : In (20%N, duel_row) (stale_matches 130000000 duel_committed)).
  { apply stale_pending_listed;
      [vm_compute; reflexivity | reflexivity | simpl; lia]. }
  assert (Hall : Forall (not_before 130000000)
            [CommitMove 131000000 agent_B (Some 20%N)
               (Some (Jstring lone_hash));
             SetStrategy agent_B (Some always_paper);
             ProcessStale 132000000 0 0 20 duel_row;
             CommitMove 133000000 agent_B (Some 20%N)
               (Some (Jstring lone_hash))]).
  { repeat constructor; simpl; lia. }
  split; [exact Hin |]. split; [exact Hall |].
  exact (live_call_excludes_reaper padded_digest _ _ _ _ _ Hin Hall).
Defined.

(** The condition on the clocks is needed.  The view is read at 141 s and
    lists the match; a reveal whose transaction started at 139 s, before the
    reveal deadline, is served after that read and is accepted; processMatch
    then settles the row as the view showed it, without A's move, and
    resolve_match writes the fallback paper over the revealed rock. *)
Example late_reveal_is_overwritten :
  ∃ row,
    (matches arena_committed !! 20%N = Some row
     ∧ is_stale 141000000 row = true)
    ∧ (Match.agent1_move
         <$> matches
               (run padded_digest
                  (RevealMove 139000000 139000001 0 0 agent_A (Some 20%N)
                     (Some (Jstring "rock")) (Some (Jstring salt_A)))
                  arena_committed) !! 20%N)
      = Some (Some rock)
    ∧ ((fun m => (Match.agent1_move m, Match.agent1_used_fallback m))
         <$> matches
               (run padded_digest (ProcessStale 141000000 0.5 0.5 20 row)
                  (run padded_digest
                     (RevealMove 139000000 139000001 0 0 agent_A (Some 20%N)
                        (Some (Jstring "rock")) (Some (Jstring salt_A)))
                     arena_committed)) !! 20%N)
      = Some (Some paper, true).
Proof.
  eexists. split; [split; [vm_compute; reflexivity | vm_compute; reflexivity] |].
  split; vm_compute; reflexivity.
Qed.

(** X17.  A complete match is final.  Once a match row is complete, no
    sequence of calls changes it in any column: the moves, the winner, the
    fallback flags and the completion time stay, whatever is posted,
    accepted, committed, revealed or reaped afterwards. *)
Theorem complete_match_is_final (sha256_hex : string → string)
    (acts : list action) (s : db) (id : uuid) (m : Match.row) :
  matches s !! id = Some m →
  Match.status m = Match.complete →
  matches (run_all sha256_hex acts s) !! id = Some m.
Proof.
  intros Hm Hc.
  destruct (run_all_evolves sha256_hex acts s) as (Hrows & _ & _).
  destruct (Hrows _ _ Hm) as (m' & Hm' & He).
  destruct He as (_ & _ & _ & _ & _ & _ & _ & _ & _ & Hfinal & _).
  rewrite Hm'. f_equal. by apply Hfinal.
Qed.

Lemma complete_match_is_final_witness :
  Match.status <$> matches arena_played !! 20%N = Some Match.complete
  ∧ matches (run_all padded_digest
               (ProcessStale 200000000 0 0 20 duel_row :: live_match)
               arena_played) !! 20%N
    = matches arena_played !! 20%N.
Proof.
  split; [vm_compute; reflexivity |].
  destruct (matches arena_played !! 20%N) as [m |] eqn:Hm.
  - apply (complete_match_is_final padded_digest _ arena_played 20 m Hm).
    vm_compute in Hm. inversion Hm. reflexivity.
  - vm_compute in Hm. discriminate.
Defined.

(** X18.  A commit is binding.  A commit hash stored for a participant of
    a match is still stored, unchanged, after any sequence of calls: no
    call of either participant, of a third agent or of the reaper replaces
    or clears it. *)
Theorem commit_is_binding (sha256_hex : string → string)
    (acts : list action) (s : db) (id agent : uuid) (m : Match.row)
    (h : string) :
  matches s !! id = Some m →
  participant_hash m agent = Some h →
  ∃ m', matches (run_all sha256_hex acts s) !! id = Some m'
        ∧ participant_hash m' agent = Some h.
Proof.
  intros Hm Hh.
  destruct (run_all_evolves sha256_hex acts s) as (Hrows & _ & _).
  destruct (Hrows _ _ Hm) as (m' & Hm' & He).
  destruct He as (_ & Hid1 & _ & _ & _ & _ & _ & _ & _ & _ & Hh1 & Hh2 & _).
  exists m'. split; [exact Hm' |].
  unfold participant_hash in *. rewrite Hid1.
  destruct (N.eqb agent (Match.agent1_id m)); auto.
Qed.

Lemma commit_is_binding_witness :
  participant_hash duel_row agent_A = Some lone_hash
  ∧ ∃ m', matches (run_all plain_digest
                     [CommitMove 80000000 agent_A (Some 20%N)
                        (Some (Jstring (padded_digest "paper")));
                      ProcessStale 130000000 0 0 20 duel_row]
                     duel_committed) !! 20%N = Some m'
          ∧ participant_hash m' agent_A = Some lone_hash
          ∧ Match.status m' = Match.complete.
Proof.
  split; [reflexivity |].
  destruct (commit_is_binding plain_digest
              [CommitMove 80000000 agent_A (Some 20%N)
                 (Some (Jstring (padded_digest "paper")));
               ProcessStale 130000000 0 0 20 duel_row]
              duel_committed 20 agent_A duel_row lone_hash)
    as (m' & Hm' & Hh); [vm_compute; reflexivity | reflexivity |].
  exists m'. split; [exact Hm' |]. split; [exact Hh |].
  vm_compute in Hm'. inversion Hm'. reflexivity.
Defined.

(** X19.  The terms of a match are fixed at its creation: after any
    sequence of calls the row is still there with the same challenge, the
    same two sides, the same wager, the same strategy snapshots, the same
    creation time and the same strategy and commit deadlines, and its
    status has not moved back to pending. *)
Theorem match_terms_are_fixed (sha256_hex : string → string)
    (acts : list action) (s : db) (id : uuid) (m : Match.row) :
  matches s !! id = Some m →
  ∃ m', matches (run_all sha256_hex acts s) !! id = Some m'
        ∧ Match.challenge_id m' = Match.challenge_id m
        ∧ Match.agent1_id m' = Match.agent1_id m
        ∧ Match.agent2_id m' = Match.agent2_id m
        ∧ Match.wager_amount m' = Match.wager_amount m
        ∧ Match.agent1_strategy m' = Match.agent1_strategy m
        ∧ Match.agent2_strategy m' = Match.agent2_strategy m
        ∧ Match.created_at m' = Match.created_at m
        ∧ Match.strategy_deadline m' = Match.strategy_deadline m
        ∧ Match.commit_deadline m' = Match.commit_deadline m
        ∧ (Match.status m' = Match.pending → Match.status m = Match.pending).
Proof.
  intros Hm.
  destruct (run_all_evolves sha256_hex acts s) as (Hrows & _ & _).
  destruct (Hrows _ _ Hm) as (m' & Hm' & He).
  destruct He as (H1 & H2 & H3 & H4 & H5 & H6 & H7 & H8 & H9 & _ & _ & _
                  & H13 & _).
  exists m'. repeat split; assumption.
Qed.

Lemma match_terms_are_fixed_witness :
  Match.agent1_strategy duel_row = Always rock
  ∧ Agent.strategy <$> agents duel_committed !! agent_A = Some (Always paper)
  ∧ ∃ m', matches (run_all plain_digest
                     [ProcessStale 130000000 0 0 20 duel_row] duel_committed)
            !! 20%N = Some m'
          ∧ Match.agent1_strategy m' = Always rock
          ∧ Match.wager_amount m' = 50
          ∧ Match.status m' = Match.complete.
Proof.
  split; [reflexivity |]. split; [vm_compute; reflexivity |].
  destruct (match_terms_are_fixed plain_digest
              [ProcessStale 130000000 0 0 20 duel_row] duel_committed 20
              duel_row)
    as (m' & Hm' & _ & _ & _ & Hw & Hs1 & _); [vm_compute; reflexivity |].
  exists m'. split; [exact Hm' |]. split; [exact Hs1 |]. split; [exact Hw |].
  vm_compute in Hm'. inversion Hm'. reflexivity.
Defined.

(** X20.  The phase follows the status.  If in every match row the phase
    is finished exactly when the status is complete (as after the backfill
    of migration 003), this remains so after any sequence of calls: new
    matches start in the strategy phase, and the trigger marks a match
    finished in the very update that completes it. *)
Theorem phase_tracks_status (sha256_hex : string → string)
    (acts : list action) (s : db) :
  (∀ id m, matches s !! id = Some m → phase_agrees m) →
  ∀ id m, matches (run_all sha256_hex acts s) !! id = Some m → phase_agrees m.
Proof.
  intros Hall id m' Hm'.
  destruct (run_all_evolves sha256_hex acts s) as (Hrows & Hnew & _).
  destruct (matches s !! id) as [m |] eqn:Hm.
  - destruct (Hrows _ _ Hm) as (x & Hx & He). rewrite Hm' in Hx.
    inversion Hx; subst x.
    destruct He as (_ & _ & _ & _ & _ & _ & _ & _ & _ & _ & _ & _ & _ & Hph).
    apply Hph. eapply Hall. exact Hm.
  - eapply Hnew; eassumption.
Qed.

Lemma phase_tracks_status_witness :
  Match.phase <$> matches arena_played !! 20%N = Some Match.finished
  ∧ ∀ id m, matches arena_played !! id = Some m → phase_agrees m.
Proof.
  split; [vm_compute; reflexivity |].
  apply (phase_tracks_status padded_digest live_match arena).
  intros id m Hm. unfold arena in Hm. simpl in Hm.
  rewrite lookup_empty in Hm. discriminate.
Defined.

(** X21.  A challenge keeps its terms, and a closed challenge is final:
    after any sequence of calls a challenge is still on record with the
    same challenger and the same wager, and one that was matched or
    cancelled is unchanged altogether, so it is never open again. *)
Theorem closed_challenge_is_final (sha256_hex : string → string)
    (acts : list action) (s : db) (cid : uuid) (c : Challenge.row) :
  challenges s !! cid = Some c →
  ∃ c', challenges (run_all sha256_hex acts s) !! cid = Some c'
        ∧ Challenge.challenger_id c' = Challenge.challenger_id c
        ∧ Challenge.wager_amount c' = Challenge.wager_amount c
        ∧ (Challenge.status c ≠ Challenge.open → c' = c).
Proof.
  intros Hc.
  destruct (run_all_evolves sha256_hex acts s) as (_ & _ & Hcs).
  exact (Hcs _ _ Hc).
Qed.

Lemma closed_challenge_is_final_witness :
  challenges arena_accepted !! 10%N
  = Some (Challenge.mk agent_A 50 Challenge.matched)
  ∧ challenges (run_all plain_digest
                  [CancelChallenge 10 agent_A;
                   AcceptChallenge 5 21 10 agent_B 60 60;
                   PostChallenge agent_A 70 10]
                  arena_accepted) !! 10%N
    = Some (Challenge.mk agent_A 50 Challenge.matched).
Proof.
  split; [vm_compute; reflexivity |].
  destruct (closed_challenge_is_final plain_digest
              [CancelChallenge 10 agent_A;
               AcceptChallenge 5 21 10 agent_B 60 60;
               PostChallenge agent_A 70 10]
              arena_accepted 10 (Challenge.mk agent_A 50 Challenge.matched))
    as (c' & Hc' & _ & _ & Hsame); [vm_compute; reflexivity |].
  rewrite Hc'. f_equal. apply Hsame. discriminate.
Defined.

(** ** Strategies over successive matches *)

Lemma cycle_step (s : db) (rand : float) (sequence : list Move)
    (state : gmap string jsval) (agentId : option uuid) (i : nat) :
  sequence ≠ [] →
  Z.of_nat i < 2 ^ 53 →
  state_index state = Some (Z.of_nat i) →
  computeMove s rand (Cycle sequence) state agentId
  = mkMoveResult (sequence !! (i mod length sequence)%nat)
      {[ "index" := JNum (Z.of_nat (S i mod length sequence)) ]}.
Proof.
  intros Hne Hsafe Hidx.
  assert (Hlen : (0 < length sequence)%nat)
    by (destruct sequence; [done | simpl; lia]).
  unfold computeMove. rewrite Hidx. unfold js_succ.
  rewrite binary64_of_Z_exact by lia.
  unfold js_rem, js_elem, js_number.
  destruct (Z.eqb_spec (Z.of_nat (length sequence)) 0) as [Hz | _]; [lia |].
  rewrite !Z.rem_mod_nonneg by lia.
  replace (Z.of_nat i + 1) with (Z.of_nat (S i)) by lia.
  rewrite <- !Nat2Z.inj_mod.
  destruct (Z.ltb_spec (Z.of_nat (i mod length sequence)) 0) as [Hneg | _];
    [lia |].
  rewrite Nat2Z.id. reflexivity.
Qed.

Lemma jsonb_of_index (j : Z) :
  jsonb_of_state {[ "index" := JNum j ]} = {[ "index" := JNum j ]}.
Proof. unfold jsonb_of_state. by rewrite map_fmap_singleton. Qed.

Lemma state_index_singleton (j : Z) :
  - 2 ^ 53 <= j <= 2 ^ 53 → state_index {[ "index" := JNum j ]} = Some j.
Proof.
  intros Hj. unfold state_index. rewrite lookup_singleton_eq.
  by apply binary64_of_Z_exact.
Qed.

Lemma cycle_run_from (s : db) (sequence : list Move) (agentId : option uuid)
    (state : gmap string jsval) (rands : list float) (i : nat) :
  sequence ≠ [] →
  Z.of_nat (length sequence) <= 2 ^ 53 →
  (i < length sequence)%nat →
  state_index state = Some (Z.of_nat i) →
  fallback_run s (Cycle sequence) agentId state rands
  = map (fun k => sequence !! ((i + k) mod length sequence)%nat)
        (seq 0 (length rands)).
Proof.
  intros Hne Hmax. revert state i.
  induction rands as [| rand rest IH]; intros state i Hi Hidx; [reflexivity |].
  assert (Hnext : (S i mod length sequence < length sequence)%nat)
    by (apply Nat.mod_upper_bound; lia).
  cbn [fallback_run length seq map].
  rewrite (cycle_step s rand sequence state agentId i Hne) by (exact Hidx || lia).
  cbn [move newState]. rewrite Nat.add_0_r. f_equal.
  rewrite jsonb_of_index.
  rewrite (IH _ (S i mod length sequence)%nat Hnext)
    by (apply state_index_singleton; lia).
  rewrite <- seq_shift, map_map. apply map_ext. intros k. f_equal.
  rewrite Nat.Div0.add_mod_idemp_l. f_equal. lia.
Qed.

Lemma cycle_run_defined (s : db) (sequence : list Move)
    (agentId : option uuid) (rands : list float) :
  (0 < length sequence)%nat →
  Z.of_nat (length sequence) <= 2 ^ 53 →
  Forall is_Some (fallback_run s (Cycle sequence) agentId ∅ rands).
Proof.
  intros Hlen Hmax.
  assert (Hne : sequence ≠ []) by (destruct sequence; [simpl in Hlen; lia | done]).
  rewrite (cycle_run_from s sequence agentId ∅ rands 0 Hne Hmax Hlen)
    by (by apply state_index_absent).
  apply Forall_forall. intros x Hx.
  apply list_elem_of_In, in_map_iff in Hx as (k & <- & _).
  apply lookup_lt_is_Some. by apply Nat.mod_upper_bound; lia.
Qed.



Lemma includes_moves_typed (items : list json) :
  forallb (fun m => includes_move (Some m)) items = true →
  ∃ sequence, mapM (fun m => as_move (Some m)) items = Some sequence
              ∧ length sequence = length items.
Proof.
  induction items as [| x rest IH]; intros Hall; [by exists [] |].
  simpl in Hall. apply andb_true_iff in Hall as [Hx Hrest].
  destruct (IH Hrest) as (sequence & Hseq & Hlen).
  unfold includes_move in Hx. destruct (as_move (Some x)) as [mv |] eqn:Hmv;
    [| discriminate].
  exists (mv :: sequence). split; [| simpl; by rewrite Hlen].
  apply mapM_Some_2. constructor; [exact Hmv | by apply mapM_Some_1].
Qed.

Lemma validateStrategy_typed (j : json) :
  validateStrategy j = true →
  ∃ st, as_Strategy j = Some st ∧ valid_shape st.
Proof.
  unfold validateStrategy, as_Strategy.
  destruct j as [| | | | | fields]; try discriminate.
  destruct (get "type" fields) as [[| | | t | |] |]; try discriminate.
  destruct (String.eqb t "random"); [intros _; by exists Random |].
  destruct (String.eqb t "always").
  { unfold includes_move. destruct (as_move (get "move" fields)) as [mv |];
      [| discriminate].
    intros _. by exists (Always mv). }
  destruct (String.eqb t "cycle").
  { destruct (get "sequence" fields) as [[| | | | items |] |]; try discriminate.
    intros H. apply andb_true_iff in H as [H Hall].
    apply andb_true_iff in H as [Hpos Hmax].
    destruct (includes_moves_typed items Hall) as (sequence & Hseq & Hlen).
    exists (Cycle sequence). rewrite Hseq. split; [reflexivity |].
    simpl. rewrite Hlen.
    apply Z.ltb_lt in Hpos. apply Z.leb_le in Hmax. lia. }
  destruct (String.eqb t "weighted").
  { destruct (as_number (get "rock" fields)) as [w_rock |]; [| discriminate].
    destruct (as_number (get "paper" fields)) as [w_paper |]; [| discriminate].
    destruct (as_number (get "scissors" fields)) as [w_scissors |];
      [| discriminate].
    intros H. exists (Weighted w_rock w_paper w_scissors). done. }
  destruct (String.eqb t "counter_last_loss"); [| discriminate].
  intros _. by exists CounterLastLoss.
Qed.

Lemma fallback_run_defined (s : db) (st : Strategy) (agentId : option uuid)
    (state : gmap string jsval) (rands : list float) :
  (∀ rand state', is_Some (move (computeMove s rand st state' agentId))) →
  Forall is_Some (fallback_run s st agentId state rands).
Proof.
  intros Hdef. revert state.
  induction rands as [| rand rest IH]; intros state; constructor;
    [apply Hdef | apply IH].
Qed.

(** X23.  A strategy that validateStrategy accepts is a well-formed
    strategy, and it never leaves an agent without a move: the accepted
    object reads as one of the five strategy shapes, a cycle has between 1
    and 20 moves, the weights of a weighted strategy sum to 1 within 0.001,
    and for always, cycle and weighted strategies every successive fallback
    from the reset state yields a defined move, whatever the random draws.
    (random and counter_last_loss index VALID_MOVES with a drawn number.) *)
Theorem validated_strategy_always_moves (j : json) :
  validateStrategy j = true →
  ∃ st, as_Strategy j = Some st
        ∧ valid_shape st
        ∧ (draws_random st = false →
           ∀ s agentId rands,
             Forall is_Some (fallback_run s st agentId ∅ rands)).
Proof.
  intros Hv. destruct (validateStrategy_typed j Hv) as (st & Hst & Hshape).
  exists st. split; [exact Hst |]. split; [exact Hshape |].
  intros Hnr s agentId rands.
  destruct st as [| mv | sequence | w_rock w_paper w_scissors |];
    try discriminate.
  - apply fallback_run_defined. intros rand state'. simpl. eauto.
  - simpl in Hshape. apply cycle_run_defined; lia.
  - apply fallback_run_defined. intros rand state'. simpl. eauto.
Qed.

Lemma validated_strategy_always_moves_witness :
  as_Strategy cycle_rock_paper = Some (Cycle [rock; paper])
  ∧ ∃ st, as_Strategy cycle_rock_paper = Some st
          ∧ valid_shape st
          ∧ (draws_random st = false →
             ∀ s agentId rands,
               Forall is_Some (fallback_run s st agentId ∅ rands)).
Proof.
  split; [reflexivity |].
  apply validated_strategy_always_moves. reflexivity.
Defined.

(** X24.  set-strategy replaces the strategy and nothing else of value.
    For a registered agent, an object that validateStrategy accepts is
    installed as the agent's strategy with the strategy state reset to the
    empty object, while the agent's balance, wins, losses and draws, every
    other agent, every challenge, every match (the strategy snapshots of
    running matches included) and the transaction log stay as they were.
    Every other request changes nothing: a body without a strategy, or with
    a falsy one (null, false, 0, the empty text), is answered 'strategy is
    required', and a truthy value that validateStrategy rejects is answered
    'Invalid strategy. Must be one of: ...'. *)
Theorem set_strategy_installs (agent_id : uuid) (j : json) (s : db)
    (a : Agent.row) :
  agents s !! agent_id = Some a →
  (validateStrategy j = true →
   ∃ st, as_Strategy j = Some st
         ∧ set_strategy agent_id (Some j) s
           = (mkDb (<[agent_id := Agent.mk (Agent.balance a) (Agent.wins a)
                                    (Agent.losses a) (Agent.draws a) st ∅]>
                      (agents s))
                   (challenges s) (matches s) (transactions s),
              Ok tt))
  ∧ (js_truthy j = true → validateStrategy j = false →
     set_strategy agent_id (Some j) s
     = (s, Err "Invalid strategy. Must be one of: random, always, cycle, weighted, counter_last_loss"))
  ∧ (js_truthy j = false →
     set_strategy agent_id (Some j) s = (s, Err "strategy is required"))
  ∧ set_strategy agent_id None s = (s, Err "strategy is required").
Proof.
  intros Ha. split; [| split; [| split]].
  - intros Hv. unfold set_strategy.
    assert (Ht : js_truthy j = true).
    { destruct j; try discriminate Hv. reflexivity. }
    rewrite Ht, Hv. simpl negb. cbv iota.
    destruct (validateStrategy_typed j Hv) as (st & Hst & _).
    exists st. split; [exact Hst |]. rewrite Hst, Ha. reflexivity.
  - intros Ht Hv. unfold set_strategy. rewrite Ht, Hv. reflexivity.
  - intros Ht. unfold set_strategy. rewrite Ht. reflexivity.
  - reflexivity.
Qed.

Lemma set_strategy_installs_witness :
  set_strategy agent_A (Some always_paper) duel
  = (mkDb (<[agent_A := Agent.mk 950 0 0 0 (Always paper) ∅]> (agents duel))
          (challenges duel) (matches duel) (transactions duel),
     Ok tt)
  ∧ set_strategy agent_A (Some (Jobject [("type", Jstring "always")])) duel
    = (duel, Err "Invalid strategy. Must be one of: random, always, cycle, weighted, counter_last_loss")
  ∧ set_strategy agent_A (Some Jnull) duel = (duel, Err "strategy is required")
  ∧ set_strategy agent_A (Some (Jnumber 0)) duel
    = (duel, Err "strategy is required").
Proof.
  destruct (set_strategy_installs agent_A always_paper duel
              (Agent.mk 950 0 0 0 (Always rock) ∅)) as [Hok _];
    [vm_compute; reflexivity |].
  destruct (Hok eq_refl) as (st & Hst & Hset).
  assert (Hpaper : st = Always paper) by (vm_compute in Hst; congruence).
  subst st.
  split; [exact Hset |].
  destruct (set_strategy_installs agent_A (Jobject [("type", Jstring "always")])
              duel (Agent.mk 950 0 0 0 (Always rock) ∅)) as (_ & Hinv & _);
    [vm_compute; reflexivity |].
  split; [exact (Hinv eq_refl eq_refl) |].
  destruct (set_strategy_installs agent_A Jnull duel
              (Agent.mk 950 0 0 0 (Always rock) ∅)) as (_ & _ & Hnull & _);
    [vm_compute; reflexivity |].
  split; [exact (Hnull eq_refl) |].
  destruct (set_strategy_installs agent_A (Jnumber 0) duel
              (Agent.mk 950 0 0 0 (Always rock) ∅)) as (_ & _ & Hzero & _);
    [vm_compute; reflexivity |].
  exact (Hzero eq_refl).
Defined.



(** ** Rate limiting *)

Lemma filter_filter_implies {A} (p q : A → bool) (l : list A) :
  (∀ x, p x = true → q x = true) →
  List.filter p (List.filter q l) = List.filter p l.
Proof.
  intros Himp. induction l as [| x l IH]; simpl; [reflexivity |].
  destruct (q x) eqn:Hq; simpl.
  - destruct (p x); [f_equal |]; exact IH.
  - destruct (p x) eqn:Hp; [| exact IH].
    rewrite (Himp _ Hp) in Hq. discriminate.
Qed.

Lemma filter_length_le {A} (p q : A → bool) (l : list A) :
  Forall (fun x => p x = true → q x = true) l →
  (length (List.filter p l) <= length (List.filter q l))%nat.
Proof.
  induction 1 as [| x l Hx _ IH]; simpl; [lia |].
  destruct (p x) eqn:Hp.
  - rewrite (Hx eq_refl). simpl. lia.
  - destruct (q x); simpl; lia.
Qed.

Lemma filter_length_ext {A} (p q : A → bool) (l : list A) :
  Forall (fun x => p x = q x) l →
  length (List.filter p l) = length (List.filter q l).
Proof.
  induction 1 as [| x l Hx _ IH]; simpl; [reflexivity |].
  rewrite Hx. destruct (q x); simpl; lia.
Qed.

Lemma in_window_kept (tl now : timestamptz) (key : string) (w : Z)
    (r : RateLimit.row) :
  tl <= now → w <= 600 → in_window now key w r = true → kept tl r = true.
Proof.
  intros Hnow Hw. unfold in_window, kept, seconds.
  intros [_ Hin]%andb_true_iff. apply Z.ltb_lt in Hin.
  apply negb_true_iff, Z.ltb_ge. lia.
Qed.

Lemma kept_later (tl now : timestamptz) (r : RateLimit.row) :
  tl <= now → kept now r = true → kept tl r = true.
Proof.
  intros Hnow. unfold kept.
  intros Hk%negb_true_iff%Z.ltb_ge. apply negb_true_iff, Z.ltb_ge. lia.
Qed.

Lemma same_recent_later (tl now : timestamptz) (t1 t2 : list RateLimit.row) :
  tl <= now → same_recent tl t1 t2 → same_recent now t1 t2.
Proof.
  unfold same_recent. intros Hnow Hs.
  rewrite <- (filter_filter_implies (kept now) (kept tl) t1)
    by (intros x; by apply kept_later).
  rewrite <- (filter_filter_implies (kept now) (kept tl) t2)
    by (intros x; by apply kept_later).
  by rewrite Hs.
Qed.

Lemma same_recent_window (tl now : timestamptz) (key : string) (w : Z)
    (t1 t2 : list RateLimit.row) :
  tl <= now → w <= 600 → same_recent tl t1 t2 →
  List.filter (in_window now key w) t1 = List.filter (in_window now key w) t2.
Proof.
  unfold same_recent. intros Hnow Hw Hs.
  rewrite <- (filter_filter_implies (in_window now key w) (kept tl) t1)
    by (intros x; by apply in_window_kept).
  rewrite <- (filter_filter_implies (in_window now key w) (kept tl) t2)
    by (intros x; by apply in_window_kept).
  by rewrite Hs.
Qed.

Lemma same_recent_clean (tl now : timestamptz) (t1 t2 : list RateLimit.row) :
  tl <= now → same_recent tl t1 t2 →
  same_recent now (clean_rate_limits now t1) t2.
Proof.
  intros Hnow Hs. apply (same_recent_later _ _ _ _ Hnow) in Hs.
  unfold same_recent, clean_rate_limits in *.
  by rewrite filter_filter_implies.
Qed.

Lemma rateLimit_same_recent (tl now : timestamptz) (key : string) (w m : Z)
    (t1 t2 : list RateLimit.row) :
  tl <= now → w <= 600 → same_recent tl t1 t2 →
  snd (rateLimit now key w m t1) = snd (rateLimit now key w m t2)
  ∧ same_recent now (fst (rateLimit now key w m t1))
                    (fst (rateLimit now key w m t2)).
Proof.
  intros Hnow Hw Hs.
  pose proof (same_recent_later _ _ _ _ Hnow Hs) as Hs'.
  unfold rateLimit. destruct (int4 w) as [w' |] eqn:Hw'; simpl; [| done].
  assert (w' = w) as ->.
  { unfold int4 in Hw'. by destruct (_ && _); inversion Hw'. }
  clear Hw'. destruct (int4 m) as [m' |]; simpl; [| done].
  unfold check_rate_limit.
  rewrite (same_recent_window tl now key w t1 t2 Hnow Hw Hs).
  destruct (int4 (Z.of_nat _)) as [v_count |]; simpl; [| done].
  destruct (m' <=? v_count); simpl; [done |].
  split; [done |]. unfold same_recent in *. simpl.
  destruct (kept now _); by rewrite Hs'.
Qed.

(** X26.  clean_rate_limits never changes what a caller is told.  With a
    clock that does not run backwards and windows of at most ten minutes
    (every handler's is), the answers of a series of rateLimit calls with
    cleanups run at any points between them are the answers the same calls
    get when no cleanup runs at all, whatever the table held at the start. *)
Theorem cleanup_never_changes_an_answer (es : list limiter_event)
    (t0 : timestamptz) (t : list RateLimit.row) :
  in_order t0 es →
  Forall short_window es →
  snd (serve es t) = snd (serve (List.filter is_limit es) t).
Proof.
  intros Ho Hf.
  assert (Hs : same_recent t0 t t) by reflexivity.
  revert Hs Ho Hf. generalize t at 1 3 as t1. generalize t as t2.
  revert t0.
  induction es as [| e es IH]; intros tl t2 t1 Hs Ho Hf; [reflexivity |].
  destruct Ho as [Hnow Ho]. inversion Hf as [| ? ? Hw Hf']; subst.
  destruct e as [now key w m | now]; simpl in *.
  - destruct (rateLimit_same_recent tl now key w m t1 t2 Hnow Hw Hs)
      as [Hv Hs'].
    destruct (rateLimit now key w m t1) as [t1' r1].
    destruct (rateLimit now key w m t2) as [t2' r2]. simpl in *. subst r2.
    specialize (IH now t2' t1' Hs' Ho Hf').
    destruct (serve es t1') as [t1'' log1].
    destruct (serve (List.filter is_limit es) t2') as [t2'' log2].
    simpl in *. by rewrite IH.
  - apply (IH now); [| exact Ho | exact Hf'].
    by apply (same_recent_clean tl).
Qed.

Lemma cleanup_never_changes_an_answer_witness :
  map sv_passed (snd (serve register_burst []))
  = [true; true; true; true; true; false]
  ∧ snd (serve register_burst [])
    = snd (serve (List.filter is_limit register_burst) []).
Proof.
  split; [vm_compute; reflexivity |].
  apply (cleanup_never_changes_an_answer register_burst 0 []).
  - vm_compute. intuition discriminate.
  - repeat constructor; vm_compute; discriminate.
Defined.

Section SlidingWindow.

Variable key : string.
Variables w m : Z.
Hypothesis window_range : INT4_MIN <= w <= 600.
Hypothesis maximum_range : 0 <= m <= INT4_MAX.

Lemma passed_within_app (t' : timestamptz) (log1 log2 : list served) :
  passed_within t' key w (log1 ++ log2)
  = (passed_within t' key w log1 + passed_within t' key w log2)%nat.
Proof. unfold passed_within. by rewrite List.filter_app, length_app. Qed.

Lemma pass_after_app (L : timestamptz) (log1 log2 : list served) :
  length (List.filter (pass_after key L) (log1 ++ log2))
  = (length (List.filter (pass_after key L) log1)
     + length (List.filter (pass_after key L) log2))%nat.
Proof. by rewrite List.filter_app, length_app. Qed.

Lemma in_step_clean (tl now : timestamptz) (t : list RateLimit.row)
    (log : list served) :
  tl <= now → in_step key w m tl t log → in_step key w m now (clean_rate_limits now t) log.
Proof.
  intros Hnow (Hat & Hrows & Hbound). split; [| split; [| exact Hbound]].
  - eapply Forall_impl; [exact Hat |]. simpl. intros; lia.
  - intros L HL. unfold clean_rate_limits.
    rewrite filter_filter_implies; [apply Hrows; unfold seconds in *; lia |].
    intros r [_ Hr%Z.ltb_lt]%andb_true_iff.
    apply negb_true_iff, Z.ltb_ge. unfold seconds in *. lia.
Qed.

(** A call under another key leaves the count of [key] alone. *)
Lemma in_step_other (tl now : timestamptz) (key' : string)
    (t t' : list RateLimit.row) (log : list served) (passed : bool) :
  tl <= now → key' ≠ key →
  t' = t ∨ t' = RateLimit.mk key' now :: t →
  in_step key w m tl t log →
  in_step key w m now t' (log ++ [mkServed now key' passed]).
Proof.
  intros Hnow Hkey Ht (Hat & Hrows & Hbound).
  assert (Hne : String.eqb key' key = false) by (apply String.eqb_neq; exact Hkey).
  split; [| split].
  - apply Forall_app. split.
    + eapply Forall_impl; [exact Hat |]. simpl. intros; lia.
    + constructor; [simpl; lia | constructor].
  - intros L HL. rewrite pass_after_app. simpl.
    unfold pass_after at 2. simpl. rewrite Hne, andb_false_r. simpl.
    rewrite Nat.add_0_r, <- Hrows by (unfold seconds in *; lia).
    destruct Ht as [-> | ->]; [reflexivity |].
    simpl. unfold row_after at 1. simpl. by rewrite Hne.
  - intros t''. rewrite passed_within_app.
    unfold passed_within at 2. simpl. unfold passed_in at 1. simpl.
    rewrite Hne, andb_false_r. simpl. specialize (Hbound t''). lia.
Qed.

(** The count check_rate_limit takes is the number of calls that passed in
    the window. *)
Lemma in_step_count (tl now : timestamptz) (t : list RateLimit.row)
    (log : list served) :
  tl <= now → in_step key w m tl t log →
  length (List.filter (in_window now key w) t) = passed_within now key w log.
Proof.
  intros Hnow (Hat & Hrows & _).
  change (in_window now key w) with (row_after key (now - seconds w)).
  rewrite Hrows by (unfold seconds; lia).
  unfold passed_within. apply filter_length_ext.
  eapply Forall_impl; [exact Hat |]. simpl. intros e He.
  unfold pass_after, passed_in.
  assert ((sv_at e <=? now) = true) as -> by (apply Z.leb_le; lia).
  by rewrite andb_true_r.
Qed.

(** A later window holds no more of the past calls than the window that
    ends now. *)
Lemma passed_within_later (tl now t' : timestamptz) (log : list served) :
  tl <= now → now <= t' → Forall (fun e => sv_at e <= tl) log →
  (passed_within t' key w log <= passed_within now key w log)%nat.
Proof.
  intros Hnow Ht' Hat. unfold passed_within. apply filter_length_le.
  eapply Forall_impl; [exact Hat |]. simpl. intros e He.
  unfold passed_in. rewrite !andb_true_iff, !Z.ltb_lt, !Z.leb_le.
  unfold seconds. intros [[[? ?] ?] ?]. repeat split; [done | done | lia | lia].
Qed.

Lemma in_step_rateLimit (tl now : timestamptz) (t : list RateLimit.row)
    (log : list served) :
  tl <= now → in_step key w m tl t log →
  in_step key w m now (fst (rateLimit now key w m t))
    (log ++ [mkServed now key (negb (is_some (snd (rateLimit now key w m t))))]).
Proof.
  intros Hnow Hstep.
  pose proof (in_step_count tl now t log Hnow Hstep) as Hcount.
  destruct Hstep as (Hat & Hrows & Hbound).
  assert (Hat' : Forall (fun e => sv_at e <= now) log).
  { eapply Forall_impl; [exact Hat |]. simpl. intros; lia. }
  unfold rateLimit.
  assert (int4 w = Ok w) as ->.
  { unfold int4, INT4_MIN, INT4_MAX in *.
    destruct (_ && _) eqn:Hr; [done |].
    apply andb_false_iff in Hr as [Hr%Z.leb_gt | Hr%Z.leb_gt]; lia. }
  assert (int4 m = Ok m) as ->.
  { unfold int4, INT4_MIN, INT4_MAX in *.
    destruct (_ && _) eqn:Hr; [done |].
    apply andb_false_iff in Hr as [Hr%Z.leb_gt | Hr%Z.leb_gt]; lia. }
  simpl. unfold check_rate_limit. rewrite Hcount.
  pose proof (Hbound now) as Hn.
  assert (int4 (Z.of_nat (passed_within now key w log))
          = Ok (Z.of_nat (passed_within now key w log))) as ->.
  { unfold int4, INT4_MIN, INT4_MAX in *.
    destruct (_ && _) eqn:Hr; [done |].
    apply andb_false_iff in Hr as [Hr%Z.leb_gt | Hr%Z.leb_gt]; lia. }
  simpl. destruct (m <=? _) eqn:Hfull; simpl.
  - (* throttled: nothing is written *)
    split; [| split].
    + apply Forall_app. split; [exact Hat' |].
      constructor; [simpl; lia | constructor].
    + intros L HL. rewrite pass_after_app. simpl.
      rewrite Nat.add_0_r. apply Hrows. unfold seconds in *. lia.
    + intros t'. rewrite passed_within_app. unfold passed_within at 2.
      simpl. specialize (Hbound t'). lia.
  - (* passed: one row, one entry *)
    apply Z.leb_gt in Hfull.
    split; [| split].
    + apply Forall_app. split; [exact Hat' |].
      constructor; [simpl; lia | constructor].
    + intros L HL. rewrite pass_after_app. simpl.
      unfold row_after at 1, pass_after at 2. simpl.
      rewrite String.eqb_refl. simpl.
      rewrite <- Hrows by (unfold seconds in *; lia).
      destruct (L <? now); simpl; lia.
    + intros t'. rewrite passed_within_app. unfold passed_within at 2.
      simpl. unfold passed_in at 1. simpl. rewrite String.eqb_refl. simpl.
      destruct ((t' - seconds w <? now) && (now <=? t')) eqn:Hin; simpl.
      * apply andb_true_iff in Hin as [_ Hle%Z.leb_le].
        pose proof (passed_within_later tl now t' log Hnow Hle Hat). lia.
      * specialize (Hbound t'). lia.
Qed.

End SlidingWindow.

(** check_rate_limit is its two statements, the count and then the insert,
    run on the same table. *)
Lemma check_rate_limit_statements (now : timestamptz) (p_key : string)
    (p_window_secs p_max_reqs : Z) (t : list RateLimit.row) :
  check_rate_limit now p_key p_window_secs p_max_reqs t
  = (v_count ← rate_limit_count now p_key p_window_secs t;
     Ok (rate_limit_insert now p_key p_max_reqs v_count t)).
Proof.
  unfold check_rate_limit, rate_limit_count, rate_limit_insert.
  destruct (int4 _) as [v |]; simpl; [| reflexivity].
  by destruct (p_max_reqs <=? v).
Qed.

(** Nothing locks the table between the two statements: of two calls that
    overlap, both may count before either inserts, and then both go
    through, here with a maximum of one call a minute. *)
Example overlapping_calls_both_pass :
  rate_limit_count 0 "k" 60 [] = Ok 0
  ∧ rate_limit_count 1 "k" 60 [] = Ok 0
  ∧ rate_limit_insert 0 "k" 1 0 [] = ([RateLimit.mk "k" 0], true)
  ∧ rate_limit_insert 1 "k" 1 0 [RateLimit.mk "k" 0]
    = ([RateLimit.mk "k" 1; RateLimit.mk "k" 0], true).
Proof. repeat split. Qed.

(** X27.  The limiter holds in every window, cleanups included, as long as
    the calls do not overlap.  The rateLimit calls and the clean_rate_limits
    runs are served one after another, each check_rate_limit transaction
    counting and inserting before the next one starts, from an empty table
    and with a clock that does not run backwards.  If every rateLimit call
    under a key asks for the same window of at most ten minutes and the same
    maximum, then no stretch of that many seconds, wherever it starts,
    contains more calls under the key that went through than the maximum,
    whatever other keys are used and whenever clean_rate_limits runs in
    between. *)
Theorem rate_limit_holds_in_every_window (es : list limiter_event)
    (t0 : timestamptz) (key : string) (w m : Z) :
  INT4_MIN <= w <= 600 →
  0 <= m <= INT4_MAX →
  in_order t0 es →
  Forall (limited_by key w m) es →
  ∀ t, Z.of_nat (passed_within t key w (snd (serve es []))) <= m.
Proof.
  intros Hw Hm Ho Hf.
  assert (Hstep : in_step key w m t0 [] []).
  { split; [by apply Forall_nil | split; [reflexivity |]].
    intros t'. unfold passed_within. simpl. lia. }
  change (snd (serve es [])) with ([] ++ snd (serve es [])).
  revert Hstep Ho Hf. generalize (@nil served) as log.
  generalize (@nil RateLimit.row) as t. revert t0.
  induction es as [| e es IH]; intros tl t log Hstep Ho Hf t'.
  { simpl. rewrite app_nil_r. by destruct Hstep as (_ & _ & Hbound). }
  destruct Ho as [Hnow Ho]. inversion Hf as [| ? ? Hlim Hf']; subst.
  destruct e as [now key' w' m' | now]; simpl in *.
  - destruct (decide (key' = key)) as [-> | Hkey].
    + destruct (Hlim eq_refl) as [-> ->].
      pose proof (in_step_rateLimit key w m Hw Hm tl now t log Hnow Hstep)
        as Hstep'.
      destruct (rateLimit now key w m t) as [t1 r]. simpl in Hstep'.
      specialize (IH now t1 _ Hstep' Ho Hf' t').
      destruct (serve es t1) as [t2 log']. simpl in *.
      by rewrite <- app_assoc in IH.
    + assert (Hstep' : in_step key w m now (fst (rateLimit now key' w' m' t))
                (log ++ [mkServed now key'
                           (negb (is_some (snd (rateLimit now key' w' m' t))))])).
      { apply (in_step_other key w m tl now key' t);
          [exact Hnow | exact Hkey | | exact Hstep].
        unfold rateLimit. destruct (int4 w'); simpl; [| by left].
        destruct (int4 m'); simpl; [| by left].
        unfold check_rate_limit.
        destruct (int4 (Z.of_nat _)); simpl; [| by left].
        destruct (_ <=? _); simpl; [by left | by right]. }
      destruct (rateLimit now key' w' m' t) as [t1 r]. simpl in Hstep'.
      specialize (IH now t1 _ Hstep' Ho Hf' t').
      destruct (serve es t1) as [t2 log']. simpl in *.
      by rewrite <- app_assoc in IH.
  - apply (IH now); [| exact Ho | exact Hf'].
    by apply (in_step_clean key w m tl).
Qed.

Lemma rate_limit_holds_in_every_window_witness :
  passed_within 599000000 "register:10.0.0.7" 600
    (snd (serve register_burst [])) = 5%nat
  ∧ ∀ t, Z.of_nat (passed_within t "register:10.0.0.7" 600
                     (snd (serve register_burst []))) <= 5.
Proof.
  split; [vm_compute; reflexivity |].
  apply (rate_limit_holds_in_every_window register_burst 0).
  - vm_compute. split; discriminate.
  - vm_compute. split; discriminate.
  - vm_compute. intuition discriminate.
  - repeat constructor; intros _; split; reflexivity.
Defined.

(** ** get-match *)

(** Maps with the same keys list them in the same order. *)
Lemma map_to_list_keys {A B} (m1 : gmap N A) :
  ∀ m2 : gmap N B,
    (∀ j, is_Some (m1 !! j) ↔ is_Some (m2 !! j)) →
    (map_to_list m1).*1 = (map_to_list m2).*1.
Proof.
  induction m1 as [| i x m1 Hi Hfirst IH] using map_first_key_ind;
    intros m2 Hdom.
  - assert (m2 = ∅) as ->; [| by rewrite !map_to_list_empty].
    apply map_empty. intros j. apply eq_None_not_Some. intros Hj.
    apply Hdom in Hj. rewrite lookup_empty in Hj. by destruct Hj.
  - assert (is_Some (m2 !! i)) as [y Hy].
    { apply Hdom. rewrite lookup_insert_eq. by eexists. }
    assert (Hfirst2 : map_first_key m2 i).
    { by apply (map_first_key_dom' (<[i:=x]> m1) m2). }
    rewrite <- (insert_delete_id m2 i y Hy) in Hfirst2 |- *.
    rewrite !map_to_list_insert_first_key;
      [| by rewrite lookup_delete_eq | exact Hfirst2 | exact Hi | exact Hfirst].
    simpl. f_equal. apply IH. intros j.
    destruct (decide (j = i)) as [-> | Hj].
    + rewrite Hi, lookup_delete_eq. split; intros []; discriminate.
    + rewrite lookup_delete_ne by done.
      specialize (Hdom j). by rewrite lookup_insert_ne in Hdom.
Qed.

Lemma same_keys_map {A} (l1 : list (N * A)) :
  ∀ (l2 : list (N * A)) (g : N → A → A),
    l1.*1 = l2.*1 →
    (∀ n k v1 v2, l1 !! n = Some (k, v1) → l2 !! n = Some (k, v2) →
                  v2 = g k v1) →
    l2 = map (fun '(k, v) => (k, g k v)) l1.
Proof.
  induction l1 as [| [k v] l1 IH]; intros [| [k2 v2] l2] g Hk Hv;
    try discriminate; [reflexivity |].
  simpl in Hk. inversion Hk; subst. simpl. f_equal.
  - f_equal. exact (Hv 0%nat k2 v v2 eq_refl eq_refl).
  - apply IH; [assumption |]. intros n k' v1' v2' Ha Hb.
    exact (Hv (S n) k' v1' v2' Ha Hb).
Qed.

(** Replacing a row keeps the place of every row. *)
Lemma map_to_list_replace {A} (t : gmap N A) (i : N) (x y : A) :
  t !! i = Some x →
  map_to_list (<[i := y]> t)
  = map (fun '(k, v) => (k, if decide (k = i) then y else v)) (map_to_list t).
Proof.
  intros Hx.
  assert (Hkeys : (map_to_list t).*1 = (map_to_list (<[i := y]> t)).*1).
  { apply map_to_list_keys. intros j. destruct (decide (j = i)) as [-> | Hj].
    - rewrite Hx, lookup_insert_eq. split; intros _; by eexists.
    - by rewrite lookup_insert_ne. }
  apply same_keys_map; [exact Hkeys |].
  intros n k v1 v2 H1 H2.
  apply list_elem_of_lookup_2, elem_of_map_to_list in H1.
  apply list_elem_of_lookup_2, elem_of_map_to_list in H2.
  destruct (decide (k = i)) as [-> | Hk].
  - rewrite lookup_insert_eq in H2. congruence.
  - rewrite lookup_insert_ne in H2 by done. congruence.
Qed.

Lemma omap_map_same {A B} (F : A → option B) (G : A → A) (l : list A) :
  Forall (fun x => F (G x) = F x) l → omap F (map G l) = omap F l.
Proof.
  induction 1 as [| x l Hx _ IH]; simpl; [reflexivity |].
  rewrite Hx. unfold omap in IH. by rewrite IH.
Qed.

Lemma hide_opponent_fields (agent : uuid) (m : Match.row) :
  Match.agent1_id (hide_opponent agent m) = Match.agent1_id m
  ∧ Match.agent2_id (hide_opponent agent m) = Match.agent2_id m
  ∧ Match.status (hide_opponent agent m) = Match.status m
  ∧ Match.phase (hide_opponent agent m) = Match.phase m
  ∧ Match.wager_amount (hide_opponent agent m) = Match.wager_amount m
  ∧ Match.strategy_deadline (hide_opponent agent m) = Match.strategy_deadline m
  ∧ Match.commit_deadline (hide_opponent agent m) = Match.commit_deadline m
  ∧ Match.reveal_deadline (hide_opponent agent m) = Match.reveal_deadline m
  ∧ Match.created_at (hide_opponent agent m) = Match.created_at m.
Proof. unfold hide_opponent. destruct (N.eqb _ _); repeat split. Qed.

Lemma is_some_fmap {A B} (f : A → B) (o1 o2 : option A) :
  f <$> o1 = f <$> o2 → is_some o1 = is_some o2.
Proof. by destruct o1, o2. Qed.

Section Secrecy.

Variable agent_name : uuid → string.

(** A row that is not complete is not in match_feed, whatever it holds. *)
Lemma match_feed_replace (s : db) (id : uuid) (m m' : Match.row) :
  matches s !! id = Some m →
  Match.status m ≠ Match.complete →
  Match.status m' ≠ Match.complete →
  match_feed agent_name (with_match id m' s) = match_feed agent_name s.
Proof.
  intros Hm Hs Hs'. unfold match_feed, with_match. simpl.
  rewrite (map_to_list_replace (matches s) id m m' Hm).
  apply omap_map_same. apply Forall_forall. intros [k v] Hkv.
  apply elem_of_map_to_list in Hkv.
  destruct (decide (k = id)) as [-> | Hk]; [| reflexivity].
  assert (v = m) as -> by congruence.
  unfold feed_row, Match.is_complete.
  destruct (Match.status m), (Match.status m'); done.
Qed.

End Secrecy.

(** X28.  get-match shows a participant nothing of the other side's secrets.
    For a match that is not finished, the answer to a participant is the
    same whatever commit hash, move, salt, strategy snapshot and fallback
    flag the row holds for the opponent, as long as the same ones are
    present: two stores that differ only there in this one row give the
    same response, and it is the sanitised object. *)
Theorem get_match_hides_opponent (agent_name : uuid → string) (agent id : uuid)
    (s : db) (m m' : Match.row) :
  matches s !! id = Some m →
  Match.phase m ≠ Match.finished →
  phase_agrees m →
  agent = Match.agent1_id m ∨ agent = Match.agent2_id m →
  hide_opponent agent m' = hide_opponent agent m →
  get_match agent_name (Some agent) (Some id) (with_match id m' s)
  = get_match agent_name (Some agent) (Some id) s
  ∧ ∃ v, get_match agent_name (Some agent) (Some id) s = Ok (Sanitised v).
Proof.
  intros Hm Hphase Hagree Hside Hhide.
  destruct (hide_opponent_fields agent m)
    as (H1 & H2 & Hst & Hph & Hw & Hsd & Hcd & Hrd & Hca).
  destruct (hide_opponent_fields agent m')
    as (H1' & H2' & Hst' & Hph' & Hw' & Hsd' & Hcd' & Hrd' & Hca').
  rewrite Hhide in H1', H2', Hst', Hph', Hw', Hsd', Hcd', Hrd', Hca'.
  rewrite H1 in H1'. rewrite H2 in H2'. rewrite Hst in Hst'.
  rewrite Hph in Hph'. rewrite Hw in Hw'. rewrite Hsd in Hsd'.
  rewrite Hcd in Hcd'. rewrite Hrd in Hrd'. rewrite Hca in Hca'.
  assert (Hnc : Match.status m ≠ Match.complete).
  { intros Hc. apply Hphase, Hagree, Hc. }
  assert (Hfeed : match_feed agent_name (with_match id m' s)
                  = match_feed agent_name s).
  { apply (match_feed_replace agent_name s id m m' Hm Hnc). congruence. }
  assert (Hpart : negb (N.eqb (Match.agent1_id m) agent)
                  && negb (N.eqb (Match.agent2_id m) agent) = false).
  { destruct Hside as [-> | ->]; rewrite N.eqb_refl; simpl;
      [reflexivity | apply andb_false_r]. }
  unfold get_match. simpl. rewrite lookup_insert_eq, Hm.
  rewrite <- Hph', <- H1', <- H2', <- Hst', <- Hw', <- Hsd', <- Hcd', <- Hrd',
    <- Hca'.
  destruct (Match.phase m) eqn:Hp; [| done].
  rewrite Hpart. unfold getOpponentHistory. rewrite Hfeed.
  unfold hide_opponent in Hhide. rewrite <- H1' in Hhide.
  destruct (N.eqb (Match.agent1_id m) agent) eqn:Hside1.
  - pose proof (f_equal Match.agent1_move_hash Hhide) as Hh1.
    pose proof (f_equal Match.agent2_move_hash Hhide) as Hh2.
    pose proof (f_equal Match.agent1_move Hhide) as Hm1.
    pose proof (f_equal Match.agent2_move Hhide) as Hm2.
    simpl in Hh1, Hh2, Hm1, Hm2.
    rewrite Hh1, Hm1, (is_some_fmap _ _ _ Hh2), (is_some_fmap _ _ _ Hm2).
    split; [reflexivity | by eexists].
  - pose proof (f_equal Match.agent1_move_hash Hhide) as Hh1.
    pose proof (f_equal Match.agent2_move_hash Hhide) as Hh2.
    pose proof (f_equal Match.agent1_move Hhide) as Hm1.
    pose proof (f_equal Match.agent2_move Hhide) as Hm2.
    simpl in Hh1, Hh2, Hm1, Hm2.
    rewrite Hh2, Hm2, (is_some_fmap _ _ _ Hh1), (is_some_fmap _ _ _ Hm1).
    split; [reflexivity | by eexists].
Qed.

Lemma get_match_hides_opponent_witness :
  matches (reveal_stage plain_digest) !! 20%N = Some reveal_row
  ∧ Match.agent2_move_hash reveal_row_other
    ≠ Match.agent2_move_hash reveal_row
  ∧ get_match scenario_name (Some agent_A) (Some 20%N)
      (with_match 20 reveal_row_other (reveal_stage plain_digest))
    = get_match scenario_name (Some agent_A) (Some 20%N)
        (reveal_stage plain_digest)
  ∧ ∃ v, get_match scenario_name (Some agent_A) (Some 20%N)
           (reveal_stage plain_digest) = Ok (Sanitised v).
Proof.
  split; [vm_compute; reflexivity |].
  split; [vm_compute; discriminate |].
  apply (get_match_hides_opponent scenario_name agent_A 20
           (reveal_stage plain_digest) reveal_row reveal_row_other).
  - vm_compute. reflexivity.
  - vm_compute. discriminate.
  - unfold phase_agrees. vm_compute. split; discriminate.
  - left. reflexivity.
  - vm_compute. reflexivity.
Defined.

(** ** The same rule elsewhere *)

(** X29.  The simulator, the browser game and resolve_match settle every
    pair of moves the same way.  In a match that create_match made from a
    challenge, the winner resolve_match determines from the challenger's and
    the accepter's move is the challenger exactly when the simulator's
    resolveOutcome says challenger_wins, the accepter exactly when it says
    accepter_wins, and nobody exactly when it says draw; and the browser
    game's winner gives the first player win, loss and draw in the same
    cases. *)
Theorem simulator_names_the_winner (now : timestamptz)
    (new_id cid accepter : uuid) (ss cs : Z) (s s' : db) (row : Match.row)
    (c : Challenge.row) (cm am : Move) :
  challenges s !! cid = Some c →
  create_match now new_id cid accepter ss cs s = Ok (s', row) →
  fst (determine_winner row cm am)
  = match Simulate.resolveOutcome cm am with
    | Simulate.challenger_wins => Some (Challenge.challenger_id c)
    | Simulate.accepter_wins => Some accepter
    | _ => None
    end
  ∧ winner (move_text cm) (move_text am)
    = match Simulate.resolveOutcome cm am with
      | Simulate.challenger_wins => "win"
      | Simulate.accepter_wins => "loss"
      | _ => "draw"
      end
  ∧ Simulate.resolveOutcome cm am ≠ Simulate.error.
Proof.
  intros Hc Hcm. unfold create_match in Hcm. rewrite Hc in Hcm.
  destruct (negb (Challenge.is_open c)); [discriminate |].
  destruct (bool_decide (Challenge.challenger_id c = accepter));
    [discriminate |].
  destruct (match agents s !! accepter with
            | Some a => Agent.balance a <? Challenge.wager_amount c
            | None => false
            end); [discriminate |].
  destruct (update_agent accepter _ s) as [s1 |]; simpl in Hcm;
    [| discriminate].
  destruct (agents s !! Challenge.challenger_id c); [| discriminate].
  destruct (agents s !! accepter); [| discriminate].
  destruct (matches s1 !! new_id); [discriminate |].
  inversion Hcm; subst. clear Hcm.
  destruct cm, am; repeat split; discriminate.
Qed.

Lemma simulator_names_the_winner_witness :
  Simulate.resolveOutcome paper rock = Simulate.challenger_wins
  ∧ ∃ s' row,
      create_match 0 20 10 agent_B 10 60 arena_posted = Ok (s', row)
      ∧ fst (determine_winner row paper rock) = Some agent_A
      ∧ winner "paper" "rock" = "win".
Proof.
  split; [reflexivity |].
  destruct (create_match 0 20 10 agent_B 10 60 arena_posted)
    as [[s' row] |] eqn:Hcm; [| vm_compute in Hcm; discriminate].
  exists s', row. split; [reflexivity |].
  assert (Hc : challenges arena_posted !! 10%N
               = Some (Challenge.mk agent_A 50 Challenge.open))
    by (vm_compute; reflexivity).
  destruct (simulator_names_the_winner 0 20 10 agent_B 10 60 arena_posted s'
              row _ paper rock Hc Hcm) as (Hw & Hg & _).
  split; [exact Hw | exact Hg].
Defined.

(** ** The sweep *)

Lemma processMatch_reports (now : timestamptz) (rand1 rand2 : float) (id : uuid)
    (row : Match.row) (s s' : db) (out : ProcessResult) :
  processMatch now rand1 rand2 id row s = (s', Ok out) →
  ∃ p1 p2 f1 f2 st1 st2 m',
    resolve_match now id p1 p2 f1 f2 st1 st2 s = Ok (s', m')
    ∧ r_winner_id out = Match.winner_id m'.
Proof.
  intros Hp. unfold processMatch in Hp.
  repeat case_match; inversion Hp; subst;
    match goal with
    | H : rpc _ _ = _ |- _ =>
        apply rpc_inv in H as [(? & Hs & Heq) | (? & _ & Heq)];
        inversion Heq; subst
    end;
    eauto 12.
Qed.

Lemma processMatch_evolves (now : timestamptz) (rand1 rand2 : float) (id : uuid)
    (row : Match.row) (s : db) :
  store_evolves s (fst (processMatch now rand1 rand2 id row s)).
Proof.
  destruct (processMatch now rand1 rand2 id row s) as [s' [out | e]] eqn:Hp;
    simpl.
  - apply processMatch_inv in Hp as (p1 & p2 & f1 & f2 & st1 & st2 & m' & Hr).
    eapply resolve_match_evolves; exact Hr.
  - unfold processMatch in Hp.
    repeat case_match; inversion Hp; subst; try apply store_evolves_refl;
      match goal with
      | H : rpc _ _ = _ |- _ =>
          apply rpc_inv in H as [(? & _ & Heq) | (? & -> & _)];
          [discriminate | apply store_evolves_refl]
      end.
Qed.

Lemma sweep_loop_settles (calls : uuid → timestamptz * float * float)
    (stale : list (uuid * Match.row)) :
  ∀ s : db,
    store_evolves s (fst (sweep_loop calls stale s))
    ∧ map fst (snd (sweep_loop calls stale s)) = map fst stale
    ∧ ∀ id out,
        In (id, Ok out) (snd (sweep_loop calls stale s)) →
        ∃ m', matches (fst (sweep_loop calls stale s)) !! id = Some m'
              ∧ Match.status m' = Match.complete
              ∧ Match.winner_id m' = r_winner_id out.
Proof.
  induction stale as [| [id row] rest IH]; intros s.
  { simpl. split; [apply store_evolves_refl |]. split; [reflexivity |].
    intros id out []. }
  simpl. destruct (calls id) as [[now rand1] rand2].
  pose proof (processMatch_evolves now rand1 rand2 id row s) as Hev.
  destruct (processMatch now rand1 rand2 id row s) as [s1 r] eqn:Hp.
  destruct (IH s1) as (Hev' & Hids & Hok).
  destruct (sweep_loop calls rest s1) as [s2 rs]. simpl in *.
  split; [eapply store_evolves_trans; eassumption |].
  split; [by rewrite Hids |].
  intros id' out [Hhead | Htail]; [| by apply Hok].
  inversion Hhead; subst id' r.
  apply processMatch_reports in Hp
    as (p1 & p2 & f1 & f2 & st1 & st2 & m' & Hr & Hw).
  apply resolve_match_inv in Hr as (m & _ & _ & Hm' & Hc & _).
  destruct Hev' as (Hrows & _).
  destruct (Hrows id m' Hm') as (m2 & Hm2 & Hrow).
  destruct Hrow as (_ & _ & _ & _ & _ & _ & _ & _ & _ & Hfinal & _).
  rewrite (Hfinal Hc) in Hm2.
  exists m'. split; [exact Hm2 |]. split; [exact Hc | by rewrite Hw].
Qed.

(** X30.  What the sweep reports as settled is settled.  A run of the reaper
    gives one entry for every row the stale_matches view listed, in the
    view's order; every match it reports a result for is complete in the
    store the run leaves, with the winner the entry names, whatever the
    later steps of the same run did; and no later query of the view, at any
    time, lists that match again. *)
Theorem sweep_settles_what_it_reports (now : timestamptz)
    (calls : uuid → timestamptz * float * float) (s : db) :
  processed (snd (process_stale_matches now calls s))
  = length (stale_matches now s)
  ∧ map fst (reported (snd (process_stale_matches now calls s)))
    = map fst (stale_matches now s)
  ∧ ∀ id out,
      In (id, Ok out) (reported (snd (process_stale_matches now calls s))) →
      (∃ m', matches (fst (process_stale_matches now calls s)) !! id = Some m'
             ∧ Match.status m' = Match.complete
             ∧ Match.winner_id m' = r_winner_id out)
      ∧ ∀ now' row',
          ¬ In (id, row')
              (stale_matches now' (fst (process_stale_matches now calls s))).
Proof.
  unfold process_stale_matches.
  destruct (stale_matches now s) as [| st stale] eqn:Hst.
  { simpl. split; [reflexivity |]. split; [reflexivity |]. intros id out []. }
  destruct (sweep_loop_settles calls (st :: stale) s) as (_ & Hids & Hok).
  destruct (sweep_loop calls (st :: stale) s) as [s' rs].
  unfold reported. simpl fst in *. simpl snd in *. cbn [results processed].
  split.
  { rewrite <- (length_map fst rs), Hids. by rewrite length_map. }
  split; [exact Hids |].
  intros id out Hin. destruct (Hok id out Hin) as (m' & Hm' & Hc & Hw).
  split; [by exists m' |].
  intros now' row' Hstale. apply stale_matches_inv in Hstale as [Hrow Hs].
  rewrite Hm' in Hrow. inversion Hrow; subst row'.
  unfold is_stale, Match.is_pending, Match.is_waiting_reveals in Hs.
  rewrite Hc in Hs. discriminate.
Qed.

Lemma sweep_settles_what_it_reports_witness :
  map fst (reported (snd (process_stale_matches 130000000 sweep_calls
                            duel_committed))) = [20%N]
  ∧ ∃ m', matches (fst (process_stale_matches 130000000 sweep_calls
                          duel_committed)) !! 20%N = Some m'
          ∧ Match.status m' = Match.complete
          ∧ Match.winner_id m' = Some agent_B.
Proof.
  destruct (sweep_settles_what_it_reports 130000000 sweep_calls duel_committed)
    as (_ & _ & Hok).
  split; [vm_compute; reflexivity |].
  destruct (Hok 20%N (mkProcessResult (Some agent_B) paper scissors false true))
    as [(m' & Hm' & Hc & Hw) _].
  { vm_compute. left. reflexivity. }
  exists m'. split; [exact Hm' |]. split; [exact Hc | exact Hw].
Defined.
